(** * EyeCue: the capture / analyse / speak pipeline

    A shallow embedding of the TypeScript sources of the EyeCue mobile
    application: the backend client [services/huggingfaceApi.ts] (retrying
    requests, speech synthesis), the audio queue that every screen and the
    camera context carry, and the capture pipelines of the Detect and
    Describe screens.

    JavaScript runs these functions on a single-threaded event loop: the
    only places where other code can run are the [await]s.  Each model
    therefore takes the answers of the outside world (the backend, the file
    system, the audio device, the user) as an explicit argument and returns
    the list of effects the function performed, in program order. *)

From Stdlib Require Import String Ascii List ZArith QArith Qminmax Qabs.
From Stdlib Require Import Bool Arith Lia Lqa.
From Stdlib Require Import Floats.SpecFloat.
Import ListNotations.

Local Close Scope Q_scope.
Local Open Scope string_scope.
Local Open Scope list_scope.

(** ** Values shared by the models *)

(** A JavaScript [Error]: the sources only ever inspect [name] and
    [message]. *)
Record error : Type := mkError { name : string; message : string }.

(** The settlement of a promise. *)
Inductive outcome (A : Type) : Type :=
| Resolved (a : A)
| Rejected (e : error).
Arguments Resolved {A} a.
Arguments Rejected {A} e.

(** How a call of an [async] function that yields a string ends. *)
Inductive result : Type :=
| Returned (s : string)
| Thrown (e : error).

(** Truthiness of a JavaScript string: every string but the empty one. *)
Definition truthy (s : string) : bool := negb (s =? "").

(** ** services/huggingfaceApi.ts *)

Module Api.

Definition BACKEND_URL : string := "http://192.168.1.20:8000".
Definition BLIP_API_URL : string := BACKEND_URL ++ "/caption".
Definition DETR_API_URL : string := BACKEND_URL ++ "/detect".
Definition BLIP_VQA_API_URL : string := BACKEND_URL ++ "/vqa".
Definition WHISPER_API_URL : string := BACKEND_URL ++ "/transcribe".
Definition SPEAK_API_URL : string := BACKEND_URL ++ "/speak".

Definition MAX_RETRIES : nat := 6.
Definition RETRY_DELAY : Z := 3000%Z.
Definition FALLBACK_MESSAGE : string :=
  "Error processing your request. Please try again.".

(** [new Error('Request aborted')] *)
Definition request_aborted : error := mkError "Error" "Request aborted".

(** The JSON body of a backend answer, with the fields of the wire
    contract.  [None] is an absent (or [null]) field; a present field has
    the type the contract gives it. *)
Record response : Type := mkResponse {
  caption : option string;
  labels : option (list string);
  answer : option string;
  text : option string
}.

Definition no_fields : response := mkResponse None None None None.

(** [data?.f] for a string field, followed by the truthiness test of the
    [if]: [Some s] when the branch is taken with value [s].  [data] itself
    may be [null] or [undefined]. *)
Definition truthy_field (data : option response)
           (f : response -> option string) : option string :=
  match data with
  | None => None
  | Some r =>
      match f r with
      | Some s => if truthy s then Some s else None
      | None => None
      end
  end.

(** [data?.labels]: an array is truthy whatever its length. *)
Definition labels_field (data : option response) : option (list string) :=
  match data with
  | None => None
  | Some r => labels r
  end.

(** [Array.prototype.join] on an array of strings. *)
Definition join (sep : string) (l : list string) : string :=
  String.concat sep l.

(** The cancellation token as the callee sees it: [None] when the caller
    passed no signal, [Some b] for a signal whose [aborted] flag is [b].
    The flag can only change while the function is suspended in an
    [await], and only from [false] to [true]. *)
Definition signal : Type := option bool.

(** [signal?.aborted], as a condition. *)
Definition aborted (s : signal) : bool :=
  match s with
  | Some b => b
  | None => false
  end.

(** [controller.abort()] ran (or not) while the callee was suspended. *)
Definition fire (s : signal) (b : bool) : signal :=
  option_map (fun a => a || b) s.

(** What the outside world does during one iteration of a retry loop. *)
Record attempt_env : Type := mkAttempt {
  info : outcome bool;               (* getInfoAsync(uri): fileInfo.exists *)
  abort_during_info : bool;
  post : outcome (option response);  (* axios.post(...): response.data *)
  abort_during_post : bool;
  abort_during_sleep : bool
}.

(** The answers to the successive iterations, by attempt number. *)
Definition world : Type := nat -> attempt_env.

(** What a call does, in order.  [Attempt n] is a ghost marker for the
    entry of iteration [n] into its [try] block; the others are real:
    a read of [signal?.aborted], the file-system query, the HTTP request,
    the [console.warn] of a failed attempt and the [sleep]. *)
Inductive event : Type :=
| ReadAborted (observed : bool)
| Attempt (n : nat)
| GetInfo (uri : string)
| Post (endpoint : string) (extra : list (string * string))
| Warn (n : nat)
| Sleep (ms : Z).

Definition trace : Type := list event.

(** [sendImage]: the abort test, the existence test on the file, then the
    multipart request; an abort raised by the request is re-thrown as
    [request_aborted], any other error as it is. *)
Definition sendImage (uri endpoint : string)
           (extraData : list (string * string)) (s : signal)
           (a : attempt_env)
  : trace * signal * outcome (option response) :=
  if aborted s then
    ([ReadAborted true], s, Rejected request_aborted)
  else
    let s1 := fire s (abort_during_info a) in
    match info a with
    | Rejected e => ([ReadAborted false; GetInfo uri], s1, Rejected e)
    | Resolved false =>
        ([ReadAborted false; GetInfo uri], s1,
         Rejected (mkError "Error" "File does not exist at URI"))
    | Resolved true =>
        let s2 := fire s1 (abort_during_post a) in
        let t := [ReadAborted false; GetInfo uri; Post endpoint extraData] in
        match post a with
        | Resolved data => (t, s2, Resolved data)
        | Rejected e =>
            if (name e =? "AbortError") || (message e =? "Request aborted")
            then (t, s2, Rejected request_aborted)
            else (t, s2, Rejected e)
        end
    end.

(** The [for] loop of [sendImageForCaptioning].  [fuel] counts the
    iterations left, [attempt] is the loop variable: the loop is entered
    with [fuel = MAX_RETRIES] and [attempt = 1], so [fuel = 0] is the exit
    on [attempt <= MAX_RETRIES] being false. *)
Fixpoint captioning_loop (fuel attempt : nat) (uri : string) (s : signal)
         (w : world) : trace * result :=
  match fuel with
  | O => ([], Returned FALLBACK_MESSAGE)
  | S fuel' =>
      if aborted s then ([ReadAborted true], Thrown request_aborted)
      else
        let '(t, s1, r) := sendImage uri BLIP_API_URL [] s (w attempt) in
        let pre := ReadAborted false :: Attempt attempt :: t in
        match r with
        | Resolved data =>
            match truthy_field data caption with
            | Some c => (pre, Returned c)
            | None =>
                let '(t', res) := captioning_loop fuel' (S attempt) uri s1 w in
                (pre ++ t', res)
            end
        | Rejected e =>
            if message e =? "Request aborted" then (pre, Thrown e)
            else if (attempt <? MAX_RETRIES)%nat then
              if aborted s1 then
                (pre ++ [Warn attempt; ReadAborted true],
                 Thrown request_aborted)
              else
                let s2 := fire s1 (abort_during_sleep (w attempt)) in
                let '(t', res) := captioning_loop fuel' (S attempt) uri s2 w in
                (pre ++ [Warn attempt; ReadAborted false; Sleep RETRY_DELAY]
                     ++ t', res)
            else (pre ++ [Warn attempt], Returned FALLBACK_MESSAGE)
        end
  end.

Definition sendImageForCaptioning (uri : string) (s : signal) (w : world)
  : trace * result :=
  if aborted s then ([ReadAborted true], Thrown request_aborted)
  else
    let '(t, res) := captioning_loop MAX_RETRIES 1 uri s w in
    (ReadAborted false :: t, res).

(** [sendImageForObjectDetection]: a successful answer always ends the
    loop, with the joined labels or with the "no objects" sentence. *)
Fixpoint detection_loop (fuel attempt : nat) (uri : string) (s : signal)
         (w : world) : trace * result :=
  match fuel with
  | O => ([], Returned FALLBACK_MESSAGE)
  | S fuel' =>
      if aborted s then ([ReadAborted true], Thrown request_aborted)
      else
        let '(t, s1, r) := sendImage uri DETR_API_URL [] s (w attempt) in
        let pre := ReadAborted false :: Attempt attempt :: t in
        match r with
        | Resolved data =>
            match labels_field data with
            | Some l => (pre, Returned (join ", " l))
            | None => (pre, Returned "No objects detected.")
            end
        | Rejected e =>
            if message e =? "Request aborted" then (pre, Thrown e)
            else if (attempt <? MAX_RETRIES)%nat then
              if aborted s1 then
                (pre ++ [Warn attempt; ReadAborted true],
                 Thrown request_aborted)
              else
                let s2 := fire s1 (abort_during_sleep (w attempt)) in
                let '(t', res) := detection_loop fuel' (S attempt) uri s2 w in
                (pre ++ [Warn attempt; ReadAborted false; Sleep RETRY_DELAY]
                     ++ t', res)
            else (pre ++ [Warn attempt], Returned FALLBACK_MESSAGE)
        end
  end.

Definition sendImageForObjectDetection (uri : string) (s : signal)
           (w : world) : trace * result :=
  if aborted s then ([ReadAborted true], Thrown request_aborted)
  else
    let '(t, res) := detection_loop MAX_RETRIES 1 uri s w in
    (ReadAborted false :: t, res).

(** [sendImageForVQA]: as captioning, on the [answer] field and with the
    question as an extra form field. *)
Fixpoint vqa_loop (fuel attempt : nat) (uri question : string) (s : signal)
         (w : world) : trace * result :=
  match fuel with
  | O => ([], Returned FALLBACK_MESSAGE)
  | S fuel' =>
      if aborted s then ([ReadAborted true], Thrown request_aborted)
      else
        let '(t, s1, r) :=
          sendImage uri BLIP_VQA_API_URL [("question", question)] s
                    (w attempt) in
        let pre := ReadAborted false :: Attempt attempt :: t in
        match r with
        | Resolved data =>
            match truthy_field data answer with
            | Some c => (pre, Returned c)
            | None =>
                let '(t', res) :=
                  vqa_loop fuel' (S attempt) uri question s1 w in
                (pre ++ t', res)
            end
        | Rejected e =>
            if message e =? "Request aborted" then (pre, Thrown e)
            else if (attempt <? MAX_RETRIES)%nat then
              if aborted s1 then
                (pre ++ [Warn attempt; ReadAborted true],
                 Thrown request_aborted)
              else
                let s2 := fire s1 (abort_during_sleep (w attempt)) in
                let '(t', res) :=
                  vqa_loop fuel' (S attempt) uri question s2 w in
                (pre ++ [Warn attempt; ReadAborted false; Sleep RETRY_DELAY]
                     ++ t', res)
            else (pre ++ [Warn attempt], Returned FALLBACK_MESSAGE)
        end
  end.

Definition sendImageForVQA (uri question : string) (s : signal) (w : world)
  : trace * result :=
  if aborted s then ([ReadAborted true], Thrown request_aborted)
  else
    let '(t, res) := vqa_loop MAX_RETRIES 1 uri question s w in
    (ReadAborted false :: t, res).

(** [sendImageForColorVQA]: the canned question; a successful answer
    without an [answer] ends the loop with ["Unknown"]. *)
Fixpoint color_loop (fuel attempt : nat) (uri : string) (s : signal)
         (w : world) : trace * result :=
  match fuel with
  | O => ([], Returned FALLBACK_MESSAGE)
  | S fuel' =>
      if aborted s then ([ReadAborted true], Thrown request_aborted)
      else
        let '(t, s1, r) :=
          sendImage uri BLIP_VQA_API_URL
                    [("question", "What is the main color?")] s
                    (w attempt) in
        let pre := ReadAborted false :: Attempt attempt :: t in
        match r with
        | Resolved data =>
            match truthy_field data answer with
            | Some c => (pre, Returned c)
            | None => (pre, Returned "Unknown")
            end
        | Rejected e =>
            if message e =? "Request aborted" then (pre, Thrown e)
            else if (attempt <? MAX_RETRIES)%nat then
              if aborted s1 then
                (pre ++ [Warn attempt; ReadAborted true],
                 Thrown request_aborted)
              else
                let s2 := fire s1 (abort_during_sleep (w attempt)) in
                let '(t', res) := color_loop fuel' (S attempt) uri s2 w in
                (pre ++ [Warn attempt; ReadAborted false; Sleep RETRY_DELAY]
                     ++ t', res)
            else (pre ++ [Warn attempt], Returned FALLBACK_MESSAGE)
        end
  end.

Definition sendImageForColorVQA (uri : string) (s : signal) (w : world)
  : trace * result :=
  if aborted s then ([ReadAborted true], Thrown request_aborted)
  else
    let '(t, res) := color_loop MAX_RETRIES 1 uri s w in
    (ReadAborted false :: t, res).

(** [sendAudioForTranscription]: the request is posted directly (no
    [sendImage], no existence test); every abort path returns the empty
    string instead of throwing. *)
Fixpoint transcription_loop (fuel attempt : nat) (audioUri : string)
         (s : signal) (w : world) : trace * result :=
  match fuel with
  | O => ([], Returned FALLBACK_MESSAGE)
  | S fuel' =>
      if aborted s then ([ReadAborted true], Returned "")
      else
        let s1 := fire s (abort_during_post (w attempt)) in
        let pre :=
          [ReadAborted false; Attempt attempt; Post WHISPER_API_URL []] in
        match post (w attempt) with
        | Resolved data =>
            match truthy_field data text with
            | Some c => (pre, Returned c)
            | None => (pre, Returned "")
            end
        | Rejected e =>
            if (name e =? "AbortError") || (message e =? "Request aborted")
            then (pre, Returned "")
            else if (attempt <? MAX_RETRIES)%nat then
              if aborted s1 then
                (pre ++ [Warn attempt; ReadAborted true], Returned "")
              else
                let s2 := fire s1 (abort_during_sleep (w attempt)) in
                let '(t', res) :=
                  transcription_loop fuel' (S attempt) audioUri s2 w in
                (pre ++ [Warn attempt; ReadAborted false; Sleep RETRY_DELAY]
                     ++ t', res)
            else (pre ++ [Warn attempt], Returned FALLBACK_MESSAGE)
        end
  end.

Definition sendAudioForTranscription (audioUri : string) (s : signal)
           (w : world) : trace * result :=
  if aborted s then ([ReadAborted true], Returned "")
  else
    let '(t, res) := transcription_loop MAX_RETRIES 1 audioUri s w in
    (ReadAborted false :: t, res).

(** The five operations behind one name, to state what they share. *)
Inductive operation : Type :=
| Caption
| Detect
| Vqa (question : string)
| Color
| Transcribe.

Definition run (op : operation) (uri : string) (s : signal) (w : world)
  : trace * result :=
  match op with
  | Caption => sendImageForCaptioning uri s w
  | Detect => sendImageForObjectDetection uri s w
  | Vqa q => sendImageForVQA uri q s w
  | Color => sendImageForColorVQA uri s w
  | Transcribe => sendAudioForTranscription uri s w
  end.

(** *** The shape the five loops share

    Not a function of the source: the five loops above are five copies of
    one retry policy that differ in the request they send, in what they
    make of a successful answer, in which errors count as an abort and in
    how an abort ends the call.  [retry_loop] is that shape, and each loop
    is proved equal to an instance of it. *)
Record policy : Type := mkPolicy {
  request : signal -> attempt_env -> trace * signal * outcome (option response);
  on_data : option response -> option result;  (* [None]: next iteration *)
  is_abort : error -> bool;
  abort_caught : error -> result;
  abort_seen : result
}.

Fixpoint retry_loop (p : policy) (fuel attempt : nat) (s : signal)
         (w : world) : trace * result :=
  match fuel with
  | O => ([], Returned FALLBACK_MESSAGE)
  | S fuel' =>
      if aborted s then ([ReadAborted true], abort_seen p)
      else
        let '(t, s1, r) := request p s (w attempt) in
        let pre := ReadAborted false :: Attempt attempt :: t in
        match r with
        | Resolved data =>
            match on_data p data with
            | Some res => (pre, res)
            | None =>
                let '(t', res) := retry_loop p fuel' (S attempt) s1 w in
                (pre ++ t', res)
            end
        | Rejected e =>
            if is_abort p e then (pre, abort_caught p e)
            else if (attempt <? MAX_RETRIES)%nat then
              if aborted s1 then
                (pre ++ [Warn attempt; ReadAborted true], abort_seen p)
              else
                let s2 := fire s1 (abort_during_sleep (w attempt)) in
                let '(t', res) := retry_loop p fuel' (S attempt) s2 w in
                (pre ++ [Warn attempt; ReadAborted false; Sleep RETRY_DELAY]
                     ++ t', res)
            else (pre ++ [Warn attempt], Returned FALLBACK_MESSAGE)
        end
  end.

Definition retry (p : policy) (s : signal) (w : world) : trace * result :=
  if aborted s then ([ReadAborted true], abort_seen p)
  else
    let '(t, res) := retry_loop p MAX_RETRIES 1 s w in
    (ReadAborted false :: t, res).

Definition message_is_abort (e : error) : bool :=
  message e =? "Request aborted".

Definition image_policy (uri endpoint : string)
           (extra : list (string * string))
           (k : option response -> option result) : policy :=
  mkPolicy (sendImage uri endpoint extra) k message_is_abort Thrown
           (Thrown request_aborted).

Definition caption_policy (uri : string) : policy :=
  image_policy uri BLIP_API_URL []
    (fun data => option_map Returned (truthy_field data caption)).

Definition detection_policy (uri : string) : policy :=
  image_policy uri DETR_API_URL []
    (fun data =>
       Some match labels_field data with
            | Some l => Returned (join ", " l)
            | None => Returned "No objects detected."
            end).

Definition vqa_policy (uri question : string) : policy :=
  image_policy uri BLIP_VQA_API_URL [("question", question)]
    (fun data => option_map Returned (truthy_field data answer)).

Definition color_policy (uri : string) : policy :=
  image_policy uri BLIP_VQA_API_URL [("question", "What is the main color?")]
    (fun data =>
       Some match truthy_field data answer with
            | Some c => Returned c
            | None => Returned "Unknown"
            end).

Definition transcription_policy : policy :=
  mkPolicy
    (fun s a =>
       ([Post WHISPER_API_URL []], fire s (abort_during_post a), post a))
    (fun data =>
       Some match truthy_field data text with
            | Some c => Returned c
            | None => Returned ""
            end)
    (fun e => (name e =? "AbortError") || (message e =? "Request aborted"))
    (fun _ => Returned "")
    (Returned "").

Definition policy_of (op : operation) (uri : string) : policy :=
  match op with
  | Caption => caption_policy uri
  | Detect => detection_policy uri
  | Vqa q => vqa_policy uri q
  | Color => color_policy uri
  | Transcribe => transcription_policy
  end.

(** *** Observations on traces *)

Definition is_attempt (e : event) : bool :=
  match e with Attempt _ => true | _ => false end.

Definition is_sleep (e : event) : bool :=
  match e with Sleep _ => true | _ => false end.

Definition is_io (e : event) : bool :=
  match e with GetInfo _ | Post _ _ => true | _ => false end.

(** Number of attempts, of delays, of file-system and network accesses. *)
Definition attempts (t : trace) : nat := length (filter is_attempt t).
Definition sleeps (t : trace) : nat := length (filter is_sleep t).
Definition io_count (t : trace) : nat := length (filter is_io t).

(** Every delay lasts [d] milliseconds. *)
Definition fixed_delay (d : Z) (t : trace) : bool :=
  forallb (fun e => match e with Sleep ms => (ms =? d)%Z | _ => true end) t.

(** Every attempt and every delay comes right after a read of the token
    that found it not cancelled; [prev] is the event before [t]. *)
Fixpoint guarded (prev : option event) (t : trace) : bool :=
  match t with
  | [] => true
  | e :: t' =>
      (if is_attempt e || is_sleep e then
         match prev with
         | Some (ReadAborted false) => true
         | _ => false
         end
       else true)
      && guarded (Some e) t'
  end.

(** A read that finds the token cancelled is the last thing that happens. *)
Fixpoint abort_is_last (t : trace) : bool :=
  match t with
  | [] => true
  | ReadAborted true :: t' => match t' with [] => true | _ => false end
  | _ :: t' => abort_is_last t'
  end.




(** *** The grammar of a retry trace *)

(** The grammar of what a retry loop does from iteration [k] on with
    [fuel] iterations left.  [through] tells whether an iteration may fall
    through to the next one without a delay. *)
Definition is_request_event (e : event) : bool :=
  match e with
  | GetInfo _ | Post _ _ | ReadAborted false => true
  | _ => false
  end.

Inductive loop_trace (through : bool) : nat -> nat -> trace -> Prop :=
| lt_exit k : loop_trace through 0 k []
| lt_cancelled f k : loop_trace through (S f) k [ReadAborted true]
| lt_settled f k tr :
    forallb is_request_event tr = true ->
    loop_trace through (S f) k (ReadAborted false :: Attempt k :: tr)
| lt_gave_up f k tr :
    forallb is_request_event tr = true ->
    loop_trace through (S f) k
               ((ReadAborted false :: Attempt k :: tr) ++ [Warn k])
| lt_cancelled_late f k tr :
    forallb is_request_event tr = true ->
    loop_trace through (S f) k
               ((ReadAborted false :: Attempt k :: tr)
                  ++ [Warn k; ReadAborted true])
| lt_retry f k tr t' :
    forallb is_request_event tr = true ->
    loop_trace through f (S k) t' ->
    loop_trace through (S f) k
               ((ReadAborted false :: Attempt k :: tr)
                  ++ [Warn k; ReadAborted false; Sleep RETRY_DELAY] ++ t')
| lt_through f k tr t' :
    through = true ->
    forallb is_request_event tr = true ->
    loop_trace through f (S k) t' ->
    loop_trace through (S f) k
               ((ReadAborted false :: Attempt k :: tr) ++ t').

(** A policy whose request performs only reads of the token, file-system
    and network accesses. *)
Definition plain_request (p : policy) : Prop :=
  forall s a, aborted s = false ->
              forallb is_request_event (fst (fst (request p s a))) = true.

(** When every request is rejected no iteration falls through. *)
Definition rejects (p : policy) (w : world) : Prop :=
  forall s n, exists e, snd (request p s (w n)) = Rejected e.

(** *** Inputs of interest *)

(** An error that the request layer takes for an abort. *)
Definition abort_error (e : error) : bool :=
  (name e =? "AbortError") || (message e =? "Request aborted").

(** The attempt fails, and not by an abort: the file query is rejected or
    finds no file, or the request is rejected (the transcription sends its
    request without a file query). *)
Definition attempt_fails (op : operation) (a : attempt_env) : bool :=
  match op with
  | Transcribe =>
      match post a with
      | Rejected e => negb (abort_error e)
      | Resolved _ => false
      end
  | _ =>
      match info a with
      | Rejected e => negb (message_is_abort e)
      | Resolved false => true
      | Resolved true =>
          match post a with
          | Rejected e => negb (abort_error e)
          | Resolved _ => false
          end
      end
  end.

(** The request succeeds with a body in which field [f] is absent (or
    falsy). *)
Definition fieldless (f : response -> option string) (a : attempt_env) : bool :=
  match info a, post a with
  | Resolved true, Resolved data =>
      match truthy_field data f with
      | None => true
      | Some _ => false
      end
  | _, _ => false
  end.

(** Nobody aborts while the attempt is under way. *)
Definition undisturbed (a : attempt_env) : bool :=
  negb (abort_during_info a || abort_during_post a || abort_during_sleep a).

(** The token is not cancelled at the call and is not cancelled later. *)
Definition never_cancelled (s : signal) (w : world) : Prop :=
  match s with
  | None => True
  | Some b => b = false /\ forall n, undisturbed (w n) = true
  end.

(** The request of the policy is rejected with an error that is not an
    abort, and leaves the token as it was. *)
Definition fails_plainly (p : policy) (s : signal) (a : attempt_env) : Prop :=
  exists t e, request p s a = (t, s, Rejected e) /\ is_abort p e = false.

(** The request of the policy succeeds with a body the policy does not
    return on, and leaves the token as it was. *)
Definition falls_through (p : policy) (s : signal) (a : attempt_env) : Prop :=
  exists t d, request p s a = (t, s, Resolved d) /\ on_data p d = None.

(** How a call ends when a read of the token finds it cancelled. *)
Definition cancelled_result (op : operation) : result :=
  match op with
  | Transcribe => Returned ""
  | _ => Thrown request_aborted
  end.

(** *** Sample worlds *)

(** The file is there and the backend answers every request with [body]. *)
Definition answering (body : option response) : world :=
  fun _ => mkAttempt (Resolved true) false (Resolved body) false false.

(** The file is there and every request fails on the network. *)
Definition unreachable : world :=
  fun _ => mkAttempt (Resolved true) false
                     (Rejected (mkError "AxiosError" "Network Error"))
                     false false.

End Api.

(** ** IEEE-754 doubles, the numbers of the JavaScript engine *)

Module Double.

Definition prec : Z := 53.
Definition emax : Z := 1024.

(** An integer literal, or an integer such as [text.length], as a double. *)
Definition of_Z (z : Z) : spec_float := binary_normalize prec emax z 0 false.

(** The literal [0.1]: the double nearest to one tenth,
    [0x3FB999999999999A]. *)
Definition tenth : spec_float := S754_finite false 7205759403792794 (-56).

Definition mul : spec_float -> spec_float -> spec_float := SFmul prec emax.
Definition add : spec_float -> spec_float -> spec_float := SFadd prec emax.

(** [Math.max] and [Math.min] of two numbers: [NaN] if either is; of the
    two zeros, [+0] is the larger. *)
Definition Math_max (x y : spec_float) : spec_float :=
  match SFcompare x y with
  | None => S754_nan
  | Some Lt => y
  | Some Gt => x
  | Some Eq => match x with S754_zero true => y | _ => x end
  end.

Definition Math_min (x y : spec_float) : spec_float :=
  match SFcompare x y with
  | None => S754_nan
  | Some Lt => x
  | Some Gt => y
  | Some Eq => match y with S754_zero true => y | _ => x end
  end.

(** The rational number a finite double stands for. *)
Definition value (x : spec_float) : Q :=
  match x with
  | S754_finite s m e =>
      let v := match e with
               | Z0 => inject_Z (Zpos m)
               | Zpos p => inject_Z (Zpos m * 2 ^ Zpos p)
               | Zneg p => Qmake (Zpos m) (2 ^ p)
               end in
      if s then Qopp v else v
  | _ => 0%Q
  end.

Definition finite (x : spec_float) : bool :=
  match x with S754_finite _ _ _ | S754_zero _ => true | _ => false end.

(** [at_least mT eT x]: [x] is [+Infinity] or a positive normal double not
    below the one of mantissa [mT] and exponent [eT]. *)
Definition at_least (mT eT : Z) (x : spec_float) : Prop :=
  x = S754_infinity false
  \/ exists m e, x = S754_finite false m e
                 /\ (2 ^ 52 <= Zpos m < 2 ^ 53)%Z
                 /\ (eT < e \/ (e = eT /\ mT <= Zpos m))%Z.

Definition same (x y : spec_float) : bool :=
  match x, y with
  | S754_finite s m e, S754_finite s' m' e' =>
      Bool.eqb s s' && Pos.eqb m m' && Z.eqb e e'
  | S754_zero s, S754_zero s' => Bool.eqb s s'
  | S754_infinity s, S754_infinity s' => Bool.eqb s s'
  | _, _ => false
  end.

End Double.

(** ** Speech synthesis (services/huggingfaceApi.ts, continued) *)

Module Speech.

(** A sound object of the audio library, with the text it speaks. *)
Record sound : Type := mkSound { sid : nat; clip : string; playing : bool }.

(** The module variable [currentSound], the sounds the audio device holds,
    the next fresh sound identity and the scratch file [speech.mp3]. *)
Record state : Type := mkState {
  currentSound : option nat;
  loaded : list sound;
  fresh : nat;
  scratch : option string
}.

(** The module is loaded with [currentSound = null]. *)
Definition initial : state := mkState None [] 0 None.

Definition stopAsync (id : nat) (st : state) : state :=
  mkState (currentSound st)
          (map (fun s => if (sid s =? id)%nat
                         then mkSound (sid s) (clip s) false else s)
               (loaded st))
          (fresh st) (scratch st).

Definition unloadAsync (id : nat) (st : state) : state :=
  mkState (currentSound st)
          (filter (fun s => negb (sid s =? id)%nat) (loaded st))
          (fresh st) (scratch st).

Definition playAsync (id : nat) (st : state) : state :=
  mkState (currentSound st)
          (map (fun s => if (sid s =? id)%nat
                         then mkSound (sid s) (clip s) true else s)
               (loaded st))
          (fresh st) (scratch st).

(** [Audio.Sound.createAsync({uri}, {shouldPlay: false})] on the scratch
    file: a new sound, loaded and silent. *)
Definition createAsync (what : string) (st : state) : nat * state :=
  (fresh st,
   mkState (currentSound st) (loaded st ++ [mkSound (fresh st) what false])
           (S (fresh st)) (scratch st)).

Definition writeScratch (what : string) (st : state) : state :=
  mkState (currentSound st) (loaded st) (fresh st) (Some what).

Definition deleteScratch (st : state) : state :=
  mkState (currentSound st) (loaded st) (fresh st) None.

(** [cancelSpeakText]: stop and unload the sound [currentSound] refers to,
    if any, and reset the variable. *)
Definition cancelSpeakText (st : state) : state :=
  match currentSound st with
  | Some id =>
      let st' := unloadAsync id (stopAsync id st) in
      mkState None (loaded st') (fresh st') (scratch st')
  | None => st
  end.

(** [text.length] counts UTF-16 code units.  A text is held here as its
    UTF-8 bytes: a byte that starts a character of the basic plane counts
    one unit, one that starts a character beyond it counts two (a surrogate
    pair), a continuation byte none. *)
Definition utf16_units (c : ascii) : nat :=
  let b := nat_of_ascii c in
  if (b <? 128)%nat then 1%nat
  else if (b <? 192)%nat then 0%nat
  else if (b <? 240)%nat then 1%nat
  else 2%nat.

Fixpoint text_length (text : string) : nat :=
  match text with
  | EmptyString => 0%nat
  | String c rest => (utf16_units c + text_length rest)%nat
  end.

(** The timeout of [speakText], in milliseconds, in the doubles of the
    source and as a function of [text.length]:
    [Math.max(text.length * 0.1 + 5, 30) * 1000], then
    [Math.min(estimatedDuration, 120000)]. *)
Definition estimate (length : nat) : spec_float :=
  Double.mul
    (Double.Math_max
       (Double.add (Double.mul (Double.of_Z (Z.of_nat length)) Double.tenth)
                   (Double.of_Z 5))
       (Double.of_Z 30))
    (Double.of_Z 1000).

Definition timeout_of (length : nat) : spec_float :=
  Double.Math_min (estimate length) (Double.of_Z 120000).

Definition estimatedDuration (text : string) : spec_float :=
  estimate (text_length text).

Definition timeoutDuration (text : string) : spec_float :=
  timeout_of (text_length text).

(** [clamp x lo hi], as the specification words it, and the timeout it
    gives for a length: the clamp of [0.1 * length + 5] seconds between 30
    and 120 seconds, in milliseconds. *)
Definition clamp (x lo hi : spec_float) : spec_float :=
  Double.Math_min (Double.Math_max x lo) hi.

Definition clamped_of (length : nat) : spec_float :=
  Double.mul
    (clamp (Double.add (Double.mul (Double.of_Z (Z.of_nat length))
                                   Double.tenth)
                       (Double.of_Z 5))
           (Double.of_Z 30) (Double.of_Z 120))
    (Double.of_Z 1000).

(** The same clamp in exact arithmetic, in milliseconds. *)
Definition exact_timeout (length : nat) : Q :=
  (Qmin (Qmax (inject_Z (Z.of_nat length) * (1 # 10) + 5) 30) 120 * 1000)%Q.

(** What is checked of the timeout at one length. *)
Definition checked (length : nat) : bool :=
  Double.same (timeout_of length) (clamped_of length)
  && Double.finite (timeout_of length)
  && Qle_bool 30000 (Double.value (timeout_of length))
  && Qle_bool (Double.value (timeout_of length)) 120000
  && Qle_bool (Qabs (Double.value (timeout_of length) - exact_timeout length))
              (1 # 2 ^ 36).

(** A text of [n] letters. *)
Definition letters (n : nat) : string := String.concat "" (repeat "a" n).

(** [String.prototype.includes] *)
Fixpoint includes (needle hay : string) : bool :=
  String.prefix needle hay
  || match hay with
     | EmptyString => false
     | String _ hay' => includes needle hay'
     end.

(** What the backend and the file system answer to one call of
    [speakText]. *)
Record tts_env : Type := mkTts {
  fetched : outcome (bool * nat);  (* response.ok, audioData.byteLength *)
  written : bool                   (* fileInfo.exists after the write *)
}.

(** The [catch] block of [speakText]: a timeout cancels the speech; the
    error is thrown again. *)
Definition speakText_catch (e : error) (st : state) : state :=
  if includes "timeout" (message e) then cancelSpeakText st else st.

(** [speakText] up to and including [await sound.playAsync()]: cancel the
    speech in progress, settle, fetch the audio, write the scratch file,
    create the sound and play it.  Yields the sound it plays. *)
Definition speakText_begin (what : string) (env : tts_env) (st : state)
  : state * outcome nat :=
  let st1 := cancelSpeakText st in
  let fail e st' := (speakText_catch e st', Rejected e) in
  match fetched env with
  | Rejected e => fail e st1
  | Resolved (ok, byteLength) =>
      if negb ok then fail (mkError "Error" "HTTP error! status") st1
      else if (byteLength =? 0)%nat
      then fail (mkError "Error" "Received empty audio data") st1
      else
        let st2 := writeScratch what st1 in
        if negb (written env)
        then fail (mkError "Error" "Failed to write audio file") st2
        else
          let '(id, st3) := createAsync what st2 in
          (playAsync id st3, Resolved id)
  end.

(** [speakText] from [await playPromise] on: the playback finishes by
    itself, or the timeout fires first. *)
Definition speakText_end (id : nat) (finished : bool) (st : state)
  : state * outcome unit :=
  let st1 := deleteScratch (unloadAsync id st) in
  if finished then (st1, Resolved tt)
  else
    let e := mkError "Error" "Speech playback timeout" in
    (speakText_catch e st1, Rejected e).

(** The texts that are audible. *)
Definition audible (st : state) : list string :=
  map clip (filter playing (loaded st)).

(** A backend that synthesises every text. *)
Definition synthesises : tts_env := mkTts (Resolved (true, 1024)) true.

(** What the outside can do to the speech module, since [currentSound] is
    exported read-only. *)
Inductive call : Type :=
| Cancel
| Begin (what : string) (env : tts_env)
| End_ (id : nat) (finished : bool).

Definition step (c : call) (st : state) : state :=
  match c with
  | Cancel => cancelSpeakText st
  | Begin what env => fst (speakText_begin what env st)
  | End_ id finished => fst (speakText_end id finished st)
  end.

Definition run (cs : list call) (st : state) : state :=
  fold_left (fun st c => step c st) cs st.

End Speech.

(** ** The audio queue (Detect, Describe, the camera context, the tab
    navigator: the same two functions over two refs) *)

Module Queue.

Section Jobs.

(** A job is an [async] function without arguments; all the queue does with
    it is call it and await it. *)
Variable job : Type.

(** [audioQueueRef.current], [isPlayingAudioRef.current], and the job whose
    promise a suspended [playNextInQueue] awaits, if one is suspended. *)
Record state : Type := mkState {
  audioQueue : list job;
  isPlayingAudio : bool;
  awaited : option job
}.

Definition idle : state := mkState [] false None.

Inductive event : Type :=
| Started (j : job)
| Settled (j : job) (fulfilled : bool).

(** [playNextInQueue] up to its [await]: return at once when a job plays or
    the queue is empty, else take the head of the queue and call it. *)
Definition playNextInQueue (st : state) : state * list event :=
  if isPlayingAudio st || (length (audioQueue st) =? 0)%nat then (st, [])
  else
    match audioQueue st with
    | nextAudio :: rest => (mkState rest true (Some nextAudio), [Started nextAudio])
    | [] => (mkState [] false (awaited st), [])
    end.

(** [playNextInQueue] from its [await] on, when the promise of the job
    settles (a rejection is caught and logged): clear the flag and play the
    next job. *)
Definition resume (fulfilled : bool) (st : state) : state * list event :=
  match awaited st with
  | None => (st, [])
  | Some j =>
      let '(st', evs) :=
        playNextInQueue (mkState (audioQueue st) false None) in
      (st', Settled j fulfilled :: evs)
  end.

(** [queueAudio] *)
Definition queueAudio (audioFn : job) (st : state) : state * list event :=
  playNextInQueue
    (mkState (audioQueue st ++ [audioFn]) (isPlayingAudio st) (awaited st)).

(** What happens to a queue: a caller enqueues a job, or the job that
    plays settles. *)
Inductive input : Type :=
| Enqueue (j : job)
| Settle (fulfilled : bool).

Definition step (i : input) (st : state) : state * list event :=
  match i with
  | Enqueue j => queueAudio j st
  | Settle fulfilled => resume fulfilled st
  end.

Fixpoint run (ins : list input) (st : state) : state * list event :=
  match ins with
  | [] => (st, [])
  | i :: ins' =>
      let '(st1, evs) := step i st in
      let '(st2, log) := run ins' st1 in
      (st2, evs ++ log)
  end.

(** The jobs enqueued by the inputs, and those started in a log, in
    order. *)
Fixpoint enqueued (ins : list input) : list job :=
  match ins with
  | [] => []
  | Enqueue j :: ins' => j :: enqueued ins'
  | Settle _ :: ins' => enqueued ins'
  end.

Fixpoint started (log : list event) : list job :=
  match log with
  | [] => []
  | Started j :: log' => j :: started log'
  | Settled _ _ :: log' => started log'
  end.

(** A log in which jobs run one at a time: a job starts only when none
    runs, and the job that settles is the one that runs.  [busy] is the job
    running before the log. *)
Fixpoint serial (busy : option job) (log : list event) : Prop :=
  match log with
  | [] => True
  | Started j :: log' => busy = None /\ serial (Some j) log'
  | Settled j _ :: log' => busy = Some j /\ serial None log'
  end.

(** The flag is set exactly while a job is awaited, and no job waits in the
    queue of an idle player. *)
Definition consistent (st : state) : Prop :=
  (isPlayingAudio st = true <-> awaited st <> None)
  /\ (isPlayingAudio st = false -> audioQueue st = []).

End Jobs.

Arguments mkState {job} _ _ _.
Arguments idle {job}.
Arguments Started {job} j.
Arguments Settled {job} j fulfilled.
Arguments Enqueue {job} j.
Arguments Settle {job} fulfilled.
Arguments audioQueue {job} _.
Arguments isPlayingAudio {job} _.
Arguments awaited {job} _.
Arguments playNextInQueue {job} st.
Arguments resume {job} fulfilled st.
Arguments queueAudio {job} audioFn st.
Arguments step {job} i st.
Arguments run {job} ins st.
Arguments enqueued {job} ins.
Arguments started {job} log.
Arguments serial {job} busy log.
Arguments consistent {job} st.

End Queue.

(** ** screens/Detect.tsx: the capture pipeline *)

Module Detect.

Definition CAPTURE_COOLDOWN : Z := 2000%Z.

(** The refs of the component that [takePhoto] and [handleFocusChange]
    share: they live across renders, so a suspended [takePhoto] sees what
    a focus change did to them. *)
Record refs : Type := mkRefs {
  sessionId : nat;                (* sessionIdRef.current *)
  cameraReady : bool;             (* cameraRef.current is not null *)
  abortController : Api.signal;   (* abortControllerRef.current?.signal *)
  loadingSound : bool;            (* loadingSoundRef.current is not null *)
  lastResizedUri : option string; (* lastResizedUriRef.current *)
  lastCaptureTime : Z             (* lastCaptureTimeRef.current *)
}.

(** The React state that the closure of [takePhoto] captured at the render
    that created it; it does not change while the call runs. *)
Record closure : Type := mkClosure {
  isDetecting : bool;
  isCapturing : bool;
  isFocused : bool
}.

(** What the pipeline does to the outside. *)
Inductive effect : Type :=
| SetIsCapturing (b : bool)
| SetIsDetecting (b : bool)
| SetCapturedPhoto (uri : string)
| SetDetectionResults (s : string)
| Later (ms : Z) (e : effect)          (* setTimeout(() => e, ms) *)
| SpeakText (s : string)
| PlayLoadingSound
| StopLoadingSound                     (* loadingSoundRef.current.stopAsync() *)
| UnloadLoadingSound                   (* loadingSoundRef.current.unloadAsync() *)
| Detection (uri : string) (s : Api.signal)
| DeleteFile (uri : string)
| ConsoleWarn.

(** The updates of the displayed state. *)
Fixpoint is_ui (e : effect) : bool :=
  match e with
  | SetIsCapturing _ | SetIsDetecting _ | SetCapturedPhoto _
  | SetDetectionResults _ => true
  | Later _ e' => is_ui e'
  | _ => false
  end.

Definition is_speech (e : effect) : bool :=
  match e with
  | SpeakText _ => true
  | _ => false
  end.

(** The [await]s of [stopLoadingSound]. *)
Inductive wait : Type :=
| GetStatus
| StopAsync
| UnloadAsync.

(** The [await]s of [takePhoto] and of the [stopLoadingSound] it calls, in
    program order (the last two are those of the [catch] block). *)
Inductive site : Type :=
| TakePicture
| SpeakProcessing
| Pause300
| CreateSound
| SetLooping
| PlaySound
| Resize
| Detect_
| StopLoading (w : wait)
| Pause500
| SpeakOutput
| DeleteResized
| StopLoadingCatch (w : wait)
| SpeakRetry.

(** What the outside does during one call: the clock at the call, the
    focus changes handled while the call is suspended at each site (the new
    value of [isFocused] for each), the promises that are rejected, and the
    values of those that are fulfilled. *)
Record schedule : Type := mkSchedule {
  clock : Z;
  focus_changes : site -> list bool;
  rejects : site -> option error;
  photo : option string;      (* takenPhoto?.uri *)
  resized : string;           (* resized.uri *)
  detected : string;          (* what sendImageForObjectDetection returns *)
  isLoaded : bool             (* status.isLoaded of the loading cue *)
}.

(** [handleFocusChange], on the refs: both branches stop the loading cue
    and open a new session; gaining the focus replaces the abort
    controller, losing it aborts and drops the controller. *)
Definition handleFocusChange (focused : bool) (r : refs) : refs :=
  if focused then
    mkRefs (S (sessionId r)) (cameraReady r) (Some false) false
           (lastResizedUri r) 0%Z
  else
    mkRefs (S (sessionId r)) (cameraReady r) None false
           (lastResizedUri r) 0%Z.

(** *** Completions of an [async] body *)

(** How a block ends: normally, by [return], or by a [throw]. *)
Inductive completion (A : Type) : Type :=
| Normal (a : A)
| Return
| Throw (e : error).
Arguments Normal {A} a.
Arguments Return {A}.
Arguments Throw {A} e.

(** A block: from the refs to the effects performed, each with the session
    that was current when it was performed, the refs, and the completion. *)
Definition M (A : Type) : Type :=
  refs -> list (nat * effect) * refs * completion A.

Definition ret {A : Type} (a : A) : M A := fun r => ([], r, Normal a).

Definition bind {A B : Type} (m : M A) (k : A -> M B) : M B :=
  fun r =>
    let '(l1, r1, c) := m r in
    match c with
    | Normal a => let '(l2, r2, c2) := k a r1 in (l1 ++ l2, r2, c2)
    | Return => (l1, r1, Return)
    | Throw e => (l1, r1, Throw e)
    end.

Definition return_ {A : Type} : M A := fun r => ([], r, Return).

Definition throw {A : Type} (e : error) : M A := fun r => ([], r, Throw e).

Definition get : M refs := fun r => ([], r, Normal r).

Definition modify (f : refs -> refs) : M unit := fun r => ([], f r, Normal tt).

Definition perform (e : effect) : M unit :=
  fun r => ([(sessionId r, e)], r, Normal tt).

(** Suspension at a site: the focus changes of the schedule happen. *)
Definition suspend (sch : schedule) (s : site) : M unit :=
  modify (fun r => fold_left (fun r f => handleFocusChange f r)
                             (focus_changes sch s) r).

(** [await] of a promise that may be rejected. *)
Definition await (sch : schedule) (s : site) : M unit :=
  bind (suspend sch s)
       (fun _ => match rejects sch s with
                 | Some e => throw e
                 | None => ret tt
                 end).

(** [try { body } catch (e) { handler } finally { finalizer }]: a [return]
    or [throw] of the finalizer overrides the completion so far. *)
Definition try_catch_finally {A : Type} (body : M A) (handler : error -> M A)
           (finalizer : M unit) : M A :=
  fun r =>
    let '(l1, r1, c1) := body r in
    let '(l2, r2, c2) :=
      match c1 with
      | Throw e => handler e r1
      | _ => ([], r1, c1)
      end in
    let '(l3, r3, c3) := finalizer r2 in
    (l1 ++ l2 ++ l3, r3,
     match c3 with
     | Normal _ => c2
     | Return => Return
     | Throw e => Throw e
     end).

Notation "x <- m ;; k" := (bind m (fun x => k))
  (at level 61, m at next level, right associativity).
Notation "m ;; k" := (bind m (fun _ => k))
  (at level 61, right associativity).

Definition set_lastCaptureTime (t : Z) (r : refs) : refs :=
  mkRefs (sessionId r) (cameraReady r) (abortController r) (loadingSound r)
         (lastResizedUri r) t.

Definition set_loadingSound (b : bool) (r : refs) : refs :=
  mkRefs (sessionId r) (cameraReady r) (abortController r) b
         (lastResizedUri r) (lastCaptureTime r).

Definition set_lastResizedUri (u : option string) (r : refs) : refs :=
  mkRefs (sessionId r) (cameraReady r) (abortController r) (loadingSound r)
         u (lastCaptureTime r).

(** A method call on [loadingSoundRef.current], which throws a TypeError
    when the ref is null by then. *)
Definition on_loadingSound (e : effect) : M unit :=
  r <- get ;;
  if loadingSound r then perform e
  else throw (mkError "TypeError" "null is not an object").

(** [stopLoadingSound]: nothing when the ref is null; else the status of
    the sound is queried and a loaded sound is stopped and unloaded; an
    error is logged; the ref is cleared in any case.  [s] names the three
    [await]s of the call. *)
Definition stopLoadingSound (sch : schedule) (s : wait -> site) : M unit :=
  r <- get ;;
  if loadingSound r then
    try_catch_finally
      (await sch (s GetStatus) ;;
       if isLoaded sch then
         on_loadingSound StopLoadingSound ;;
         await sch (s StopAsync) ;;
         on_loadingSound UnloadLoadingSound ;;
         await sch (s UnloadAsync)
       else ret tt)
      (fun _ => perform ConsoleWarn)
      (modify (set_loadingSound false))
  else ret tt.

(** The test [sessionIdRef.current !== currentSession] *)
Definition stale_test (currentSession : nat) : M bool :=
  r' <- get ;; ret (negb (sessionId r' =? currentSession)%nat).

(** The [try] block of [takePhoto].  The photo fails the test
    [!takenPhoto?.uri] when the camera gives none or one whose uri is
    empty. *)
Definition takePhoto_try (c : closure) (sch : schedule) (currentSession : nat)
  : M unit :=
  let stale := stale_test currentSession in
  modify (set_lastCaptureTime (clock sch)) ;;
  perform (SetIsCapturing true) ;;
  await sch TakePicture ;;
  match photo sch with
  | None => throw (mkError "Error" "Photo capture failed")
  | Some uri =>
      if negb (truthy uri)
      then throw (mkError "Error" "Photo capture failed")
      else
        old <- stale ;;
        if old then return_
        else
          perform (SetCapturedPhoto uri) ;;
          perform (SetIsDetecting true) ;;
          perform (SetDetectionResults "Processing...") ;;
          perform (SpeakText "Processing...") ;;
          await sch SpeakProcessing ;;
          suspend sch Pause300 ;;
          await sch CreateSound ;;
          modify (set_loadingSound true) ;;
          await sch SetLooping ;;
          perform PlayLoadingSound ;;
          await sch PlaySound ;;
          await sch Resize ;;
          modify (set_lastResizedUri (Some (resized sch))) ;;
          r1 <- get ;;
          perform (Detection (resized sch) (abortController r1)) ;;
          await sch Detect_ ;;
          let result := detected sch in
          old <- stale ;;
          if old then return_
          else
            stopLoadingSound sch StopLoading ;;
            let output := if truthy result then result
                          else "No objects found" in
            perform (SetDetectionResults output) ;;
            suspend sch Pause500 ;;
            (if isFocused c
             then perform (SpeakText output) ;; await sch SpeakOutput
             else ret tt) ;;
            perform (DeleteFile (resized sch)) ;;
            await sch DeleteResized ;;
            modify (set_lastResizedUri None)
  end.

(** Its [catch] block. *)
Definition takePhoto_catch (sch : schedule) (currentSession : nat)
           (error : error) : M unit :=
  old <- stale_test currentSession ;;
  if old then return_
  else
    perform ConsoleWarn ;;
    stopLoadingSound sch StopLoadingCatch ;;
    perform (SetDetectionResults "Please Try Again") ;;
    perform (SpeakText "Please Try Again") ;;
    await sch SpeakRetry.

(** Its [finally] block. *)
Definition takePhoto_finally (currentSession : nat) : M unit :=
  old <- stale_test currentSession ;;
  if old then return_
  else
    perform (SetIsDetecting false) ;;
    perform (Later 1000 (SetIsCapturing false)).

(** [takePhoto] *)
Definition takePhoto (c : closure) (sch : schedule) : M unit :=
  r <- get ;;
  if (clock sch - lastCaptureTime r <? CAPTURE_COOLDOWN)%Z then return_
  else if negb (cameraReady r) || isDetecting c || isCapturing c then return_
  else
    let currentSession := sessionId r in
    try_catch_finally (takePhoto_try c sch currentSession)
                      (takePhoto_catch sch currentSession)
                      (takePhoto_finally currentSession).

(** The updates of the display and the speech that a log holds under a
    session other than [session]. *)
Definition stale_effects (session : nat) (log : list (nat * effect))
  : list (nat * effect) :=
  filter (fun p => negb (fst p =? session)%nat
                   && (is_ui (snd p) || is_speech (snd p))) log.

(** The screen has the focus, the camera is mounted, session 1 is
    current. *)
Definition focused_refs : refs := mkRefs 1 true (Some false) false None 0%Z.

Definition fresh_closure : closure := mkClosure false false true.

(** Every promise is fulfilled and the detection returns [detected];
    [changes] tells the focus changes. *)
Definition smooth (changes : site -> list bool) (detected : string)
  : schedule :=
  mkSchedule 5000%Z changes (fun _ => None) (Some "photo.jpg") "resized.jpg"
             detected true.

(** No focus change. *)
Definition stays (s : site) : list bool := [].

(** The user leaves the screen while [takePhoto] waits for the loading cue
    to stop, after the detection has returned. *)
Definition leaves_during_stop (s : site) : list bool :=
  match s with
  | StopLoading GetStatus => [false]
  | _ => []
  end.

(** The user leaves the screen during the 500 ms pause that precedes the
    speech of the result. *)
Definition leaves_during_pause (s : site) : list bool :=
  match s with
  | Pause500 => [false]
  | _ => []
  end.

(** The user leaves the screen while the detection request is pending. *)
Definition leaves_during_detection (s : site) : list bool :=
  match s with
  | Detect_ => [false]
  | _ => []
  end.

(** *** A contract for blocks

    [safe e P m Q]: from refs that satisfy [P], block [m] performs no
    update of the display and no speech under a session other than [e],
    and when it completes normally with [a] the refs satisfy [Q a]. *)
Definition safe {A : Type} (e : nat) (P : refs -> Prop) (m : M A)
           (Q : A -> refs -> Prop) : Prop :=
  forall r, P r ->
            stale_effects e (fst (fst (m r))) = []
            /\ match snd (m r) with
               | Normal a => Q a (snd (fst (m r)))
               | _ => True
               end.

(** Session [e] is the current one. *)
Definition current (e : nat) (r : refs) : Prop := sessionId r = e.

(** Nothing is known of the refs. *)
Definition anyhow (r : refs) : Prop := True.

End Detect.

(** ** screens/Describe.tsx: the voice question *)

Module Describe.

Definition RECORDING_TIMEOUT : Z := 10000%Z.

(** The React state and the refs that the recording of a question
    involves, and the calls of [forceStopRecording] that are suspended, in
    the order of their invocation, on [recording.stopAndUnloadAsync()] and
    on the transcription. *)
Record state : Type := mkState {
  recording : option nat;
  forceGestureEnd : bool;
  isLongPressActive : bool;
  recordingTimeLeft : Z;
  statusMessage : string;
  vqaResponse : string;
  isCaptioning : bool;
  isDetecting : bool;
  isWhisperProcessing : bool;
  isCapturing : bool;
  capturedPhoto : option string;
  countdownInterval : bool;   (* countdownIntervalRef.current is not null *)
  recordingTimeout : bool;    (* recordingTimeoutRef.current is not null *)
  stopping : list nat;
  transcribing : list nat
}.

Definition setRecording (v : option nat) (st : state) : state :=
  mkState v (forceGestureEnd st) (isLongPressActive st) (recordingTimeLeft st)
          (statusMessage st) (vqaResponse st) (isCaptioning st)
          (isDetecting st) (isWhisperProcessing st) (isCapturing st)
          (capturedPhoto st) (countdownInterval st) (recordingTimeout st)
          (stopping st) (transcribing st).

Definition setForceGestureEnd (v : bool) (st : state) : state :=
  mkState (recording st) v (isLongPressActive st) (recordingTimeLeft st)
          (statusMessage st) (vqaResponse st) (isCaptioning st)
          (isDetecting st) (isWhisperProcessing st) (isCapturing st)
          (capturedPhoto st) (countdownInterval st) (recordingTimeout st)
          (stopping st) (transcribing st).

Definition setIsLongPressActive (v : bool) (st : state) : state :=
  mkState (recording st) (forceGestureEnd st) v (recordingTimeLeft st)
          (statusMessage st) (vqaResponse st) (isCaptioning st)
          (isDetecting st) (isWhisperProcessing st) (isCapturing st)
          (capturedPhoto st) (countdownInterval st) (recordingTimeout st)
          (stopping st) (transcribing st).

Definition setRecordingTimeLeft (v : Z) (st : state) : state :=
  mkState (recording st) (forceGestureEnd st) (isLongPressActive st) v
          (statusMessage st) (vqaResponse st) (isCaptioning st)
          (isDetecting st) (isWhisperProcessing st) (isCapturing st)
          (capturedPhoto st) (countdownInterval st) (recordingTimeout st)
          (stopping st) (transcribing st).

Definition setStatusMessage (v : string) (st : state) : state :=
  mkState (recording st) (forceGestureEnd st) (isLongPressActive st)
          (recordingTimeLeft st) v (vqaResponse st) (isCaptioning st)
          (isDetecting st) (isWhisperProcessing st) (isCapturing st)
          (capturedPhoto st) (countdownInterval st) (recordingTimeout st)
          (stopping st) (transcribing st).

Definition setVqaResponse (v : string) (st : state) : state :=
  mkState (recording st) (forceGestureEnd st) (isLongPressActive st)
          (recordingTimeLeft st) (statusMessage st) v (isCaptioning st)
          (isDetecting st) (isWhisperProcessing st) (isCapturing st)
          (capturedPhoto st) (countdownInterval st) (recordingTimeout st)
          (stopping st) (transcribing st).

Definition setIsDetecting (v : bool) (st : state) : state :=
  mkState (recording st) (forceGestureEnd st) (isLongPressActive st)
          (recordingTimeLeft st) (statusMessage st) (vqaResponse st)
          (isCaptioning st) v (isWhisperProcessing st) (isCapturing st)
          (capturedPhoto st) (countdownInterval st) (recordingTimeout st)
          (stopping st) (transcribing st).

Definition setIsWhisperProcessing (v : bool) (st : state) : state :=
  mkState (recording st) (forceGestureEnd st) (isLongPressActive st)
          (recordingTimeLeft st) (statusMessage st) (vqaResponse st)
          (isCaptioning st) (isDetecting st) v (isCapturing st)
          (capturedPhoto st) (countdownInterval st) (recordingTimeout st)
          (stopping st) (transcribing st).

Definition clearCountdownInterval (st : state) : state :=
  mkState (recording st) (forceGestureEnd st) (isLongPressActive st)
          (recordingTimeLeft st) (statusMessage st) (vqaResponse st)
          (isCaptioning st) (isDetecting st) (isWhisperProcessing st)
          (isCapturing st) (capturedPhoto st) false (recordingTimeout st)
          (stopping st) (transcribing st).

Definition clearRecordingTimeout (st : state) : state :=
  mkState (recording st) (forceGestureEnd st) (isLongPressActive st)
          (recordingTimeLeft st) (statusMessage st) (vqaResponse st)
          (isCaptioning st) (isDetecting st) (isWhisperProcessing st)
          (isCapturing st) (capturedPhoto st) (countdownInterval st) false
          (stopping st) (transcribing st).

Definition suspended (stop transcription : list nat) (st : state) : state :=
  mkState (recording st) (forceGestureEnd st) (isLongPressActive st)
          (recordingTimeLeft st) (statusMessage st) (vqaResponse st)
          (isCaptioning st) (isDetecting st) (isWhisperProcessing st)
          (isCapturing st) (capturedPhoto st) (countdownInterval st)
          (recordingTimeout st) stop transcription.

Inductive effect : Type :=
| StopAndUnload (rec : nat)     (* recording.stopAndUnloadAsync() *)
| Transcribe (rec : nat).       (* sendAudioForTranscription(uri, signal) *)


(** [forceStopRecording] up to [await recording.stopAndUnloadAsync()]:
    nothing without a recording; else both timers are cleared, the
    countdown and the status message are reset and the recording is asked
    to stop.  [recording] stays set until that promise settles. *)
Definition forceStopRecording (st : state) : state * list effect :=
  match recording st with
  | None => (st, [])
  | Some rec =>
      (suspended (stopping st ++ [rec]) (transcribing st)
         (setStatusMessage ""
            (setRecordingTimeLeft 0%Z
               (clearRecordingTimeout (clearCountdownInterval st)))),
       [StopAndUnload rec])
  end.

(** The [catch] and [finally] blocks of [forceStopRecording]. *)
Definition forceStopRecording_catch (st : state) : state :=
  setVqaResponse "Recognition failed."
    (setIsWhisperProcessing false
       (setIsDetecting false (setStatusMessage "" (setRecording None st)))).

Definition forceStopRecording_finally (st : state) : state :=
  setIsWhisperProcessing false (setIsDetecting false st).

(** The oldest suspended call of [forceStopRecording], once
    [stopAndUnloadAsync] has settled: the recording is dropped and the
    processing is displayed; then come the end-of-recording sound, the
    "Processing..." speech and the processing cue, and the audio is sent to
    the transcription.  [ok] tells that none of the steps up to there
    throws; if one does, the [catch] and [finally] blocks end the call. *)
Definition forceStopRecording_stopped (ok : bool) (st : state)
  : state * list effect :=
  match stopping st with
  | [] => (st, [])
  | rec :: others =>
      let st1 :=
        setVqaResponse "Processing..."
          (setIsWhisperProcessing true
             (setIsDetecting true (setRecording None st))) in
      if ok then
        (suspended others (transcribing st ++ [rec]) st1, [Transcribe rec])
      else
        (suspended others (transcribing st)
           (forceStopRecording_finally (forceStopRecording_catch st1)),
         [])
  end.

(** The oldest call that waits for the transcription, once it (and the
    answer to the question, if one was recognized) has returned: [shown] is
    what is displayed as the answer. *)
Definition forceStopRecording_answered (shown : string) (st : state)
  : state * list effect :=
  match transcribing st with
  | [] => (st, [])
  | rec :: others =>
      (suspended (stopping st) others
         (forceStopRecording_finally (setVqaResponse shown st)),
       [])
  end.

(** [longPressGesture.onFinalize] *)
Definition onFinalize (st : state) : state * list effect :=
  let '(st1, effs) :=
    match recording st with
    | Some _ => forceStopRecording st
    | None => (st, [])
    end in
  (setForceGestureEnd false (setIsLongPressActive false st1), effs).

(** The callback of the countdown interval of [handleLongPressStart],
    every second: the updater of [recordingTimeLeft] counts down and, at
    zero, clears the interval and sets [forceGestureEnd]. *)
Definition countdown (st : state) : state :=
  let newTime := (recordingTimeLeft st - 1)%Z in
  if (newTime <=? 0)%Z then
    setRecordingTimeLeft 0%Z
      (setForceGestureEnd true (clearCountdownInterval st))
  else setRecordingTimeLeft newTime st.

(** The callback of the 10 s timeout of [handleLongPressStart].  It tests
    the session and the [recording] of its closure, which is the state of
    the render that started the long press: [captured]. *)
Definition timeout_callback (same_session : bool) (captured : option nat)
           (st : state) : state :=
  match captured with
  | Some _ => if same_session then setForceGestureEnd true st else st
  | None => st
  end.

(** [handleLongPressStart] returns at once when a recording exists, so the
    closure that arms the timers holds no recording. *)
Definition captured_by_handleLongPressStart : option nat := None.

(** What happens while a question is recorded: a second elapses, the 10 s
    timeout fires, the gesture library finalizes a long press (at its end
    or at its cancellation) and calls [onFinalize], the promise of
    [stopAndUnloadAsync] settles, the transcription and the answer have
    returned.  The timers call back only while they are armed. *)
Inductive event : Type :=
| Tick
| TimeoutFires
| Finalize
| Stopped (ok : bool)
| Answered (shown : string).

Definition step (e : event) (st : state) : state * list effect :=
  match e with
  | Tick =>
      if countdownInterval st then (countdown st, []) else (st, [])
  | TimeoutFires =>
      if recordingTimeout st then
        (timeout_callback true captured_by_handleLongPressStart st, [])
      else (st, [])
  | Finalize => onFinalize st
  | Stopped ok => forceStopRecording_stopped ok st
  | Answered shown => forceStopRecording_answered shown st
  end.

Fixpoint run (evs : list event) (st : state) : state * list effect :=
  match evs with
  | [] => (st, [])
  | e :: evs' =>
      let '(st1, effs) := step e st in
      let '(st2, log) := run evs' st1 in
      (st2, effs ++ log)
  end.

(** The state in which [handleLongPressStart] leaves the component: the
    recording runs, ten seconds are left and both timers are armed. *)
Definition listening (rec : nat) (photo : string) : state :=
  mkState (Some rec) false true (RECORDING_TIMEOUT / 1000)%Z "Listening..."
          "" false false false false (Some photo) true true [] [].

Definition is_stop (e : effect) : bool :=
  match e with
  | StopAndUnload _ => true
  | _ => false
  end.

(** How many times the stop of a recording was invoked. *)
Definition stops (log : list effect) : nat := length (filter is_stop log).




(** The recording runs with [n] seconds left. *)
Definition counting (n : Z) (rec : nat) (photo : string) : state :=
  setRecordingTimeLeft n (listening rec photo).

(** The countdown has run out: the interval is cleared and
    [forceGestureEnd] is set. *)
Definition expired (rec : nat) (photo : string) : state :=
  mkState (Some rec) true true 0%Z "Listening..." "" false false false false
          (Some photo) false true [] [].

(** [onFinalize] has invoked the stop, which has not settled yet. *)
Definition stopping_state (rec : nat) (photo : string) : state :=
  mkState (Some rec) false false 0%Z "" "" false false false false
          (Some photo) false false [rec] [].


Definition is_transcribe (e : effect) : bool :=
  match e with
  | Transcribe _ => true
  | _ => false
  end.

(** How many times an audio was sent to the transcription. *)
Definition transcriptions (log : list effect) : nat :=
  length (filter is_transcribe log).

(** What holds of the component and of what it has done so far, whatever
    the events were: everything concerns the one recording [rec]; every
    call that waits for the stop or has sent its audio was invoked by a
    stop; and once a stop was invoked both timers are cleared. *)
Definition consistent (rec : nat) (st : state) (log : list effect) : Prop :=
  (recording st = Some rec \/ recording st = None)
  /\ Forall (eq rec) (stopping st)
  /\ Forall (fun e => e = StopAndUnload rec \/ e = Transcribe rec) log
  /\ transcriptions log + length (stopping st) <= stops log
  /\ (stops log = 0
      \/ (countdownInterval st = false /\ recordingTimeout st = false)).

End Describe.

(** ** Further observations on the retrying client *)

Module Retry.

Import Api.

Definition is_post (e : event) : bool :=
  match e with Post _ _ => true | _ => false end.

Definition is_warn (e : event) : bool :=
  match e with Warn _ => true | _ => false end.

(** Number of HTTP requests and of warnings of a call. *)
Definition posts (t : trace) : nat := length (filter is_post t).
Definition warnings (t : trace) : nat := length (filter is_warn t).

(** The time a call spends in [sleep], in milliseconds. *)
Fixpoint total_delay (t : trace) : Z :=
  match t with
  | [] => 0%Z
  | Sleep ms :: t' => (ms + total_delay t')%Z
  | _ :: t' => total_delay t'
  end.

(** The request of the policy settles the call with [res]: it succeeds
    with a body the policy returns on, or it is rejected with an error the
    policy takes for an abort. *)
Definition decides (p : policy) (s : signal) (a : attempt_env) (res : result)
  : Prop :=
  exists t s' r,
    request p s a = (t, s', r)
    /\ match r with
       | Resolved d => on_data p d = Some res
       | Rejected e => is_abort p e = true /\ res = abort_caught p e
       end.

(** The request of a policy sends at most one HTTP request. *)
Definition single_post (p : policy) : Prop :=
  forall s a, posts (fst (fst (request p s a))) <= 1.

(** The file is missing at every attempt. *)
Definition file_missing (w : world) : Prop :=
  forall n, info (w n) = Resolved false.


(** The backend is down for the first two attempts and then answers with a
    caption. *)
Definition recovering : world :=
  fun n => if (n <=? 2)%nat then unreachable n
           else answering
                  (Some (mkResponse (Some "a red mug") None None None)) n.

(** An error that the request layer does not take for an abort: it is
    neither named AbortError nor says "Request aborted". *)
Definition CanceledError : error := mkError "CanceledError" "canceled".

(** The first request fails on the network; the token is cancelled while
    the second is in flight, which is rejected with [CanceledError]. *)
Definition cancelled_second : world :=
  fun n => if (n <=? 1)%nat then unreachable n
           else mkAttempt (Resolved true) false (Rejected CanceledError)
                          true false.

End Retry.

(** ** Further observations on the audio queue *)

Module Playback.

(** The jobs a queue still owes: those that wait and the one that plays. *)
Definition pending {job : Type} (st : Queue.state job) : nat :=
  length (Queue.audioQueue st)
  + match Queue.awaited st with Some _ => 1 | None => 0 end.

End Playback.

(** ** contexts/CameraContext.tsx *)

Module CameraContext.

(** [CameraType], as the context uses it. *)
Inductive CameraType : Type := back | front.

(** A job of the audio queue of the context: the text it speaks. *)
Definition job : Type := string.

(** The state of the provider: its React state, the ref that guards the
    tutorial, and its audio queue. *)
Record state : Type := mkState {
  facing : CameraType;
  hasFlippedOnce : bool;
  isTutorialActive : bool;
  tutorialInProgress : bool;     (* tutorialInProgressRef.current *)
  audio : Queue.state job
}.

(** The provider when it mounts. *)
Definition initial : state := mkState back false false false Queue.idle.

Definition tutorialText : string :=
  "Welcome to the EyeCue application! You can swipe left or right to switch between modes. To capture an image, simply double tap anywhere on the screen. In Color mode, the application will automatically capture an image every second to identify colors. To ask a question, first use the describe mode to receive a scene description, then long tap to record your voice and ask your question. To switch between the front and back camera, swipe down.".

(** The text of the job that [setFacing] queues. *)
Definition announcement (newFacing : CameraType) : job :=
  String.append "Camera "
                match newFacing with front => "Front" | back => "Back" end.

(** [setFacing]: the argument is a facing or a function of the current
    one; the change is announced through the queue once the initial flip
    is over. *)
Definition setFacing (value : CameraType + (CameraType -> CameraType))
           (st : state) : state * list (Queue.event job) :=
  let newFacing :=
    match value with
    | inl v => v
    | inr f => f (facing st)
    end in
  if hasFlippedOnce st then
    let '(q, evs) := Queue.queueAudio (announcement newFacing) (audio st) in
    (mkState newFacing true (isTutorialActive st) (tutorialInProgress st) q,
     evs)
  else
    (mkState newFacing false (isTutorialActive st) (tutorialInProgress st)
             (audio st), []).

(** What the screens pass to [setFacing] on a swipe down:
    [facing === "back" ? "front" : "back"]. *)
Definition other (f : CameraType) : CameraType :=
  match f with back => front | front => back end.

Definition toggle (st : state) : state * list (Queue.event job) :=
  setFacing (inl (other (facing st))) st.

(** The two timers of the mount effect: after 100 ms the camera faces
    front, 300 ms later it faces back again and the flip is over. *)
Definition flip_front (st : state) : state :=
  mkState front (hasFlippedOnce st) (isTutorialActive st)
          (tutorialInProgress st) (audio st).

Definition flip_back (st : state) : state :=
  mkState back true (isTutorialActive st) (tutorialInProgress st) (audio st).

(** What happens to the context after it has mounted: a swipe down on a
    screen, or the job that plays settles. *)
Inductive action : Type :=
| Toggle
| Settled (fulfilled : bool).

Definition act (a : action) (st : state) : state * list (Queue.event job) :=
  match a with
  | Toggle => toggle st
  | Settled ok =>
      let '(q, evs) := Queue.resume ok (audio st) in
      (mkState (facing st) (hasFlippedOnce st) (isTutorialActive st)
               (tutorialInProgress st) q, evs)
  end.

Fixpoint run (acts : list action) (st : state)
  : state * list (Queue.event job) :=
  match acts with
  | [] => (st, [])
  | a :: acts' =>
      let '(st1, evs) := act a st in
      let '(st2, log) := run acts' st1 in
      (st2, evs ++ log)
  end.

Fixpoint toggles (acts : list action) : nat :=
  match acts with
  | [] => 0
  | Toggle :: acts' => S (toggles acts')
  | Settled _ :: acts' => toggles acts'
  end.

(** The announcements of [n] successive swipes from facing [f]. *)
Fixpoint announcements (f : CameraType) (n : nat) : list job :=
  match n with
  | 0 => []
  | S n' => announcement (other f) :: announcements (other f) n'
  end.

(** The facing after [n] swipes from [f]. *)
Fixpoint swiped (f : CameraType) (n : nat) : CameraType :=
  match n with
  | 0 => f
  | S n' => swiped (other f) n'
  end.

(** The inputs the queue of the context gets from a list of actions. *)
Fixpoint queue_inputs (f : CameraType) (acts : list action)
  : list (Queue.input job) :=
  match acts with
  | [] => []
  | Toggle :: acts' =>
      Queue.Enqueue (announcement (other f)) :: queue_inputs (other f) acts'
  | Settled ok :: acts' => Queue.Settle ok :: queue_inputs f acts'
  end.

(** *** The tutorial *)

Inductive effect : Type :=
| SetIsTutorialActive (b : bool)
| CancelSpeakText
| Pause (ms : Z)
| SpeakText (what : string)
| ConsoleWarn.

(** [startTutorial] up to its [try]: nothing when a tutorial is active or
    in progress; else the ref and the state are raised.  The boolean tells
    whether the tutorial starts. *)
Definition startTutorial_enter (st : state) : state * list effect * bool :=
  if isTutorialActive st || tutorialInProgress st then (st, [], false)
  else
    (mkState (facing st) (hasFlippedOnce st) true true (audio st),
     [SetIsTutorialActive true], true).

(** The [try] block: the three texts, each after a pause of 200 ms.
    [spoken what] tells whether [speakText(what)] is fulfilled; the first
    rejection goes to the [catch] block, which logs it. *)
Fixpoint speak_all (spoken : string -> bool) (texts : list string)
  : list effect :=
  match texts with
  | [] => []
  | what :: rest =>
      Pause 200 :: SpeakText what
            :: (if spoken what then speak_all spoken rest else [ConsoleWarn])
  end.

Definition startTutorial_try (spoken : string -> bool) : list effect :=
  CancelSpeakText
    :: speak_all spoken ["Tutorial ON"; tutorialText; "Tutorial OFF"].

(** The [finally] block. *)
Definition startTutorial_leave (st : state) : state * list effect :=
  (mkState (facing st) (hasFlippedOnce st) false false (audio st),
   [SetIsTutorialActive false]).

(** A whole call of [startTutorial]. *)
Definition startTutorial (spoken : string -> bool) (st : state)
  : state * list effect :=
  let '(st1, effs, started) := startTutorial_enter st in
  if started then
    let '(st2, effs') := startTutorial_leave st1 in
    (st2, effs ++ startTutorial_try spoken ++ effs')
  else (st1, effs).

Definition is_speech (e : effect) : bool :=
  match e with SpeakText _ => true | _ => false end.

(** The texts a list of effects speaks. *)
Fixpoint spoken_texts (effs : list effect) : list string :=
  match effs with
  | [] => []
  | SpeakText what :: effs' => what :: spoken_texts effs'
  | _ :: effs' => spoken_texts effs'
  end.

End CameraContext.

(** ** App.tsx: the announcements of the tab navigator *)

Module TabNavigator.

(** A job of the queue of the navigator: the texts it speaks, in order. *)
Definition job : Type := list string.

(** The refs of [TabNavigator]. *)
Record refs : Type := mkRefs {
  hasAnnouncedTutorial : bool;
  isInitialMount : bool;
  audio : Queue.state job
}.

Definition mounted : refs := mkRefs false true Queue.idle.

Inductive effect : Type :=
| CancelSpeakText
| Queued (e : Queue.event job).

(** The mount effect: the first mode and the tutorial prompt, once. *)
Definition announce_mount (r : refs) : refs * list effect :=
  if hasAnnouncedTutorial r then (r, [])
  else
    let '(q, evs) :=
      Queue.queueAudio ["Detect"; "Swipe up for tutorial"] (audio r) in
    (mkRefs true (isInitialMount r) q, map Queued evs).

(** The [state] listener of the navigator, for a navigation state whose
    current route is [routeName], from a render in which the tutorial is
    active or not. *)
Definition on_state (isTutorialActive : bool) (routeName : string) (r : refs)
  : refs * list effect :=
  if isTutorialActive then (r, [])
  else if isInitialMount r then
    (mkRefs (hasAnnouncedTutorial r) false (audio r), [])
  else
    let '(q, evs) := Queue.queueAudio [routeName] (audio r) in
    (mkRefs (hasAnnouncedTutorial r) false q, CancelSpeakText :: map Queued evs).

(** What happens to the navigator after it has mounted: a navigation state
    event, with the tutorial flag of the render it comes from and the name
    of the current route, or the job that plays settles. *)
Inductive event : Type :=
| Navigated (isTutorialActive : bool) (routeName : string)
| Settled (fulfilled : bool).

Definition handle (e : event) (r : refs) : refs * list effect :=
  match e with
  | Navigated tutorial routeName => on_state tutorial routeName r
  | Settled ok =>
      let '(q, evs) := Queue.resume ok (audio r) in
      (mkRefs (hasAnnouncedTutorial r) (isInitialMount r) q, map Queued evs)
  end.

Fixpoint listen (evs : list event) (r : refs) : refs * list effect :=
  match evs with
  | [] => (r, [])
  | e :: evs' =>
      let '(r1, effs) := handle e r in
      let '(r2, log) := listen evs' r1 in
      (r2, effs ++ log)
  end.

(** The queue events among the effects. *)
Fixpoint queue_log (effs : list effect) : list (Queue.event job) :=
  match effs with
  | [] => []
  | Queued e :: effs' => e :: queue_log effs'
  | CancelSpeakText :: effs' => queue_log effs'
  end.

(** The routes of the navigation events outside a tutorial. *)
Fixpoint heard (evs : list event) : list string :=
  match evs with
  | [] => []
  | Navigated false routeName :: evs' => routeName :: heard evs'
  | _ :: evs' => heard evs'
  end.

(** The inputs the queue of the navigator gets from the events;
    [first] tells that no navigation event outside a tutorial was seen
    yet. *)
Fixpoint queue_inputs (first : bool) (evs : list event)
  : list (Queue.input job) :=
  match evs with
  | [] => []
  | Navigated true _ :: evs' => queue_inputs first evs'
  | Navigated false routeName :: evs' =>
      if first then queue_inputs false evs'
      else Queue.Enqueue [routeName] :: queue_inputs false evs'
  | Settled ok :: evs' => Queue.Settle ok :: queue_inputs first evs'
  end.

End TabNavigator.

(** ** A capture that no focus change disturbs

    Support for the properties of [Detect.takePhoto] on the runs during
    which the screen keeps the focus. *)

Module Capture.

Import Detect.

(** No focus change is handled while the call is suspended. *)
Definition undisturbed (sch : schedule) : Prop :=
  forall s, focus_changes sch s = [].

(** The two guards at the head of [takePhoto] let the call through: the
    cooldown is over, the camera is mounted, and the render of the closure
    shows neither a detection nor a capture. *)
Definition goes_ahead (c : closure) (sch : schedule) (r : refs) : bool :=
  negb (clock sch - lastCaptureTime r <? CAPTURE_COOLDOWN)%Z
  && cameraReady r && negb (isDetecting c) && negb (isCapturing c).

(** The texts spoken, and the texts put in the result line, in order. *)
Fixpoint spoken (log : list (nat * effect)) : list string :=
  match log with
  | [] => []
  | (_, SpeakText s) :: log' => s :: spoken log'
  | _ :: log' => spoken log'
  end.

Fixpoint displayed (log : list (nat * effect)) : list string :=
  match log with
  | [] => []
  | (_, SetDetectionResults s) :: log' => s :: displayed log'
  | _ :: log' => displayed log'
  end.

(** The files deleted. *)
Fixpoint deleted (log : list (nat * effect)) : list string :=
  match log with
  | [] => []
  | (_, DeleteFile uri) :: log' => uri :: deleted log'
  | _ :: log' => deleted log'
  end.

(** The promises awaited in the [try] block, in order; the result is
    spoken only when the closure has the focus. *)
Definition try_sites (c : closure) : list site :=
  [TakePicture; SpeakProcessing; CreateSound; SetLooping; PlaySound; Resize;
   Detect_]
    ++ (if isFocused c then [SpeakOutput] else []) ++ [DeleteResized].

Definition fulfilled (sch : schedule) (s : site) : bool :=
  match rejects sch s with
  | None => true
  | Some _ => false
  end.

(** Every step of the [try] block succeeds. *)
Definition succeeds (c : closure) (sch : schedule) : bool :=
  match photo sch with
  | Some uri => truthy uri && forallb (fulfilled sch) (try_sites c)
  | None => false
  end.

(** A step of the [try] block fails: the camera gives no photo, or one
    without a uri, or a promise is rejected. *)
Definition fails (c : closure) (sch : schedule) : bool :=
  match photo sch with
  | Some uri =>
      negb (truthy uri) || negb (forallb (fulfilled sch) (try_sites c))
  | None => true
  end.

(** What the screen shows and says for a detection result. *)
Definition output (sch : schedule) : string :=
  if truthy (detected sch) then detected sch else "No objects found".

End Capture.

(** ** Blocks of an [async] function, over any refs and effects

    The blocks of [Detect], with the refs and the effects left open: a
    block maps the refs to the effects performed, each with the session
    current when it was performed, the refs, and the completion. *)

Module Async.

Section Blocks.

Context {refs effect : Type}.
Variable sessionId : refs -> nat.

Definition M (A : Type) : Type :=
  refs -> list (nat * effect) * refs * Detect.completion A.

Definition ret {A : Type} (a : A) : M A := fun r => ([], r, Detect.Normal a).

Definition bind {A B : Type} (m : M A) (k : A -> M B) : M B :=
  fun r =>
    let '(l1, r1, c) := m r in
    match c with
    | Detect.Normal a => let '(l2, r2, c2) := k a r1 in (l1 ++ l2, r2, c2)
    | Detect.Return => (l1, r1, Detect.Return)
    | Detect.Throw e => (l1, r1, Detect.Throw e)
    end.

Definition return_ {A : Type} : M A := fun r => ([], r, Detect.Return).

Definition throw {A : Type} (e : error) : M A :=
  fun r => ([], r, Detect.Throw e).

Definition get : M refs := fun r => ([], r, Detect.Normal r).

Definition modify (f : refs -> refs) : M unit :=
  fun r => ([], f r, Detect.Normal tt).

Definition perform (e : effect) : M unit :=
  fun r => ([(sessionId r, e)], r, Detect.Normal tt).

(** [try { body } catch (e) { handler } finally { finalizer }]: a [return]
    or [throw] of the finalizer overrides the completion so far. *)
Definition try_catch_finally {A : Type} (body : M A) (handler : error -> M A)
           (finalizer : M unit) : M A :=
  fun r =>
    let '(l1, r1, c1) := body r in
    let '(l2, r2, c2) :=
      match c1 with
      | Detect.Throw e => handler e r1
      | _ => ([], r1, c1)
      end in
    let '(l3, r3, c3) := finalizer r2 in
    (l1 ++ l2 ++ l3, r3,
     match c3 with
     | Detect.Normal _ => c2
     | Detect.Return => Detect.Return
     | Detect.Throw e => Detect.Throw e
     end).

(** [try { body } catch (e) { handler }] *)
Definition try_catch {A : Type} (body : M A) (handler : error -> M A) : M A :=
  fun r =>
    let '(l1, r1, c1) := body r in
    match c1 with
    | Detect.Throw e => let '(l2, r2, c2) := handler e r1 in (l1 ++ l2, r2, c2)
    | _ => (l1, r1, c1)
    end.

(** *** Contracts *)

(** The effects that show: [stale_effects] keeps those of a log performed
    under a session other than [session]. *)
Variable shows : effect -> bool.

Definition stale_effects (session : nat) (log : list (nat * effect))
  : list (nat * effect) :=
  filter (fun p => negb (fst p =? session)%nat && shows (snd p)) log.

(** [safe e P m Q]: from refs that satisfy [P], block [m] performs no
    effect that shows under a session other than [e], and when it
    completes normally with [a] the refs satisfy [Q a]. *)
Definition safe {A : Type} (e : nat) (P : refs -> Prop) (m : M A)
           (Q : A -> refs -> Prop) : Prop :=
  forall r, P r ->
            stale_effects e (fst (fst (m r))) = []
            /\ match snd (m r) with
               | Detect.Normal a => Q a (snd (fst (m r)))
               | _ => True
               end.

(** Session [e] is the current one. *)
Definition current (e : nat) (r : refs) : Prop := sessionId r = e.

(** Nothing is known of the refs. *)
Definition anyhow (r : refs) : Prop := True.

(** [within P Q may_return may_throw m]: from refs that satisfy [P], block
    [m] ends with refs that satisfy [Q], by [return] only if [may_return]
    and by [throw] only if [may_throw]. *)
Definition within {A : Type} (P Q : refs -> Prop)
           (may_return may_throw : bool) (m : M A) : Prop :=
  forall r, P r ->
            Q (snd (fst (m r)))
            /\ match snd (m r) with
               | Detect.Normal _ => True
               | Detect.Return => may_return = true
               | Detect.Throw _ => may_throw = true
               end.

End Blocks.

End Async.

(** ** The Color screen (screens/Color.tsx) *)

Module ColorScreen.

Definition CAPTURE_COOLDOWN : Z := 2000%Z.

(** The refs of the component that [takePhoto] shares with the focus
    handler and the cleanup of the component. *)
Record refs : Type := mkRefs {
  sessionId : nat;                (* sessionIdRef.current *)
  cameraReady : bool;             (* cameraRef.current is not null *)
  abortController : Api.signal;   (* abortControllerRef.current?.signal *)
  loadingSound : bool;            (* loadingSoundRef.current is not null *)
  lastCaptureTime : Z             (* lastCaptureTimeRef.current *)
}.

(** The React state in the closure of [takePhoto]. *)
Record closure : Type := mkClosure {
  isDetecting : bool;
  isCapturing : bool;
  isFocused : bool
}.

Inductive effect : Type :=
| SetIsCapturing (b : bool)
| SetIsDetecting (b : bool)
| SetCapturedPhoto (uri : string)
| SetDetectedColor (s : string)
| Later (ms : Z) (e : effect)          (* setTimeout(() => e, ms) *)
| SpeakText (s : string)
| CancelSpeakText
| PlayLoadingSound                     (* sound.playAsync() *)
| StopLoadingSound                     (* loadingSoundRef.current.stopAsync() *)
| UnloadLoadingSound                   (* loadingSoundRef.current.unloadAsync() *)
| UnloadSound                          (* sound.unloadAsync(), not yet in the ref *)
| ColorRequest (uri : string) (s : Api.signal)
| ConsoleWarn.

(** The results put on the screen, the flags raised, and the speech. *)
Fixpoint shows (e : effect) : bool :=
  match e with
  | SetIsCapturing b | SetIsDetecting b => b
  | SetCapturedPhoto _ | SetDetectedColor _ | SpeakText _ => true
  | Later _ e' => shows e'
  | _ => false
  end.

(** The calls of [stopLoadingSound] in [takePhoto]. *)
Inductive place : Type :=
| AfterPhoto
| SoundCatch
| AfterColor
| InCatch
| InFinally.

(** The [await]s of [takePhoto] and of the [stopLoadingSound] it calls. *)
Inductive site : Type :=
| TakePicture
| SpeakProcessing
| CreateSound
| UnloadNew
| SetLooping
| PlaySound
| ColorVQA
| SpeakColor
| SpeakRetry
| GetStatus (p : place)
| StopAsync (p : place)
| UnloadAsync (p : place)
| Stopped (p : place).     (* await stopLoadingSound() resumes *)

(** What the outside does during one call: the clock at the call; what
    the rest of the component (the focus handler, the cleanup) does to the
    refs while the call is suspended at a site, which may be anything; the
    promises that are rejected; and the values of those fulfilled. *)
Record schedule : Type := mkSchedule {
  clock : Z;
  meanwhile : site -> refs -> refs;
  rejects : site -> option error;
  photo : option string;      (* photo?.uri, when truthy *)
  colorResp : string;         (* what sendImageForColorVQA returns *)
  isLoaded : place -> bool    (* status.isLoaded *)
}.

Definition M : Type -> Type := @Async.M refs effect.

Definition perform (e : effect) : M unit := Async.perform sessionId e.

Notation "x <- m ;; k" := (Async.bind m (fun x => k))
  (at level 61, m at next level, right associativity).
Notation "m ;; k" := (Async.bind m (fun _ => k))
  (at level 61, right associativity).

(** Suspension at a site: the rest of the component runs. *)
Definition suspend (sch : schedule) (s : site) : M unit :=
  Async.modify (meanwhile sch s).

(** [await] of a promise that may be rejected. *)
Definition await (sch : schedule) (s : site) : M unit :=
  suspend sch s ;;
  match rejects sch s with
  | Some e => Async.throw e
  | None => Async.ret tt
  end.

Definition set_lastCaptureTime (t : Z) (r : refs) : refs :=
  mkRefs (sessionId r) (cameraReady r) (abortController r) (loadingSound r) t.

Definition set_loadingSound (b : bool) (r : refs) : refs :=
  mkRefs (sessionId r) (cameraReady r) (abortController r) b
         (lastCaptureTime r).

(** A method call on [loadingSoundRef.current], which throws a TypeError
    when the ref is null by then. *)
Definition on_loadingSound (e : effect) : M unit :=
  r <- Async.get ;;
  if loadingSound r then perform e
  else Async.throw (mkError "TypeError" "null is not an object").

(** [await stopLoadingSound()]: nothing when the ref is null; else the
    status of the sound is queried, a loaded sound is stopped and unloaded
    and the ref cleared; an error clears the ref as well. *)
Definition stopLoadingSound (sch : schedule) (p : place) : M unit :=
  (r <- Async.get ;;
   if loadingSound r then
     Async.try_catch
       (await sch (GetStatus p) ;;
        if isLoaded sch p then
          on_loadingSound StopLoadingSound ;;
          await sch (StopAsync p) ;;
          on_loadingSound UnloadLoadingSound ;;
          await sch (UnloadAsync p) ;;
          Async.modify (set_loadingSound false)
        else Async.ret tt)
       (fun _ =>
          perform ConsoleWarn ;;
          Async.modify (set_loadingSound false))
   else Async.ret tt) ;;
  suspend sch (Stopped p).

(** [speakText(text)] inside its own [try]: an error is logged and the
    speech cancelled. *)
Definition speak_guarded (sch : schedule) (s : site) (text : string)
  : M unit :=
  Async.try_catch
    (perform (SpeakText text) ;; await sch s)
    (fun _ => perform ConsoleWarn ;; perform CancelSpeakText).

(** The test [sessionIdRef.current !== currentSession || !isFocused] *)
Definition stale_test (c : closure) (currentSession : nat) : M bool :=
  r <- Async.get ;;
  Async.ret (negb (sessionId r =? currentSession)%nat || negb (isFocused c)).

(** [takePhoto] *)
Definition takePhoto (c : closure) (sch : schedule) : M unit :=
  let now := clock sch in
  r <- Async.get ;;
  if (now - lastCaptureTime r <? CAPTURE_COOLDOWN)%Z then Async.return_
  else if negb (cameraReady r) || isDetecting c || isCapturing c
          || negb (isFocused c) then Async.return_
  else
    let currentSession := sessionId r in
    let stale := stale_test c currentSession in
    Async.try_catch_finally
      (Async.modify (set_lastCaptureTime now) ;;
       perform (SetIsCapturing true) ;;
       await sch TakePicture ;;
       match photo sch with
       | None => Async.throw (mkError "Error" "Photo capture failed")
       | Some uri =>
           old <- stale ;;
           if old then stopLoadingSound sch AfterPhoto ;; Async.return_
           else
             perform (SetCapturedPhoto uri) ;;
             perform (SetDetectedColor "") ;;
             perform (SetIsDetecting true) ;;
             (if isFocused c then
                Async.try_catch
                  (old <- stale ;;
                   if old then Async.ret tt
                   else
                     perform (SpeakText "Processing...") ;;
                     await sch SpeakProcessing)
                  (fun _ => perform ConsoleWarn ;; perform CancelSpeakText) ;;
                Async.try_catch
                  (await sch CreateSound ;;
                   old <- stale ;;
                   if old then
                     perform UnloadSound ;;
                     await sch UnloadNew ;;
                     Async.return_
                   else
                     Async.modify (set_loadingSound true) ;;
                     await sch SetLooping ;;
                     perform PlayLoadingSound ;;
                     await sch PlaySound)
                  (fun _ =>
                     perform ConsoleWarn ;;
                     stopLoadingSound sch SoundCatch)
              else Async.ret tt) ;;
             r1 <- Async.get ;;
             perform (ColorRequest uri (abortController r1)) ;;
             await sch ColorVQA ;;
             perform CancelSpeakText ;;
             stopLoadingSound sch AfterColor ;;
             old <- stale ;;
             if old then Async.return_
             else
               perform (SetDetectedColor
                          (if truthy (colorResp sch) then colorResp sch
                           else "No color detected.")) ;;
               old <- stale ;;
               (if truthy (colorResp sch) && negb old
                then speak_guarded sch SpeakColor (colorResp sch)
                else Async.ret tt) ;;
               perform (SetIsDetecting false)
       end)
      (fun err =>
         perform CancelSpeakText ;;
         stopLoadingSound sch InCatch ;;
         old <- stale ;;
         if old then Async.return_
         else
           perform ConsoleWarn ;;
           perform (SetDetectedColor "Please Try Again") ;;
           (if isFocused c
            then speak_guarded sch SpeakRetry "Please Try Again"
            else Async.ret tt) ;;
           perform (SetIsDetecting false))
      (perform CancelSpeakText ;;
       stopLoadingSound sch InFinally ;;
       old <- stale ;;
       if negb old then perform (Later 1000 (SetIsCapturing false))
       else perform (SetIsCapturing false)).

(** The two guards at the head of [takePhoto] let the call through. *)
Definition goes_ahead (c : closure) (sch : schedule) (r : refs) : bool :=
  negb (clock sch - lastCaptureTime r <? CAPTURE_COOLDOWN)%Z
  && cameraReady r && negb (isDetecting c) && negb (isCapturing c)
  && isFocused c.

(** The release of the capture flag, at once or in a second. *)
Definition releases (e : effect) : bool :=
  match e with
  | SetIsCapturing false => true
  | Later 1000 (SetIsCapturing false) => true
  | _ => false
  end.

(** The last effect of a log. *)
Definition last_effect (log : list (nat * effect)) : option effect :=
  match rev log with
  | (_, e) :: _ => Some e
  | [] => None
  end.

(** The last effect of a log releases the capture flag. *)
Definition ends_released (log : list (nat * effect)) : bool :=
  match last_effect log with
  | Some e => releases e
  | None => false
  end.

(** Nothing else touches the refs while the call is suspended. *)
Definition undisturbed (sch : schedule) : Prop :=
  forall s r, meanwhile sch s r = r.

(** Session [e] is current and the last capture was at [t]. *)
Definition settled (e : nat) (t : Z) (r : refs) : Prop :=
  sessionId r = e /\ lastCaptureTime r = t.

(** The screen has the focus, the camera is mounted, session 1 is
    current. *)
Definition focused_refs : refs := mkRefs 1 true (Some false) false 0%Z.

Definition fresh_closure : closure := mkClosure false false true.

(** Nothing fails and nothing else runs; the color is [color]. *)
Definition smooth (color : string) : schedule :=
  mkSchedule 5000%Z (fun _ r => r) (fun _ => None) (Some "photo.jpg") color
             (fun _ => true).

End ColorScreen.

(** * Theorems *)

(** ** The retrying client *)

Import Api.

Lemma sendImage_plain uri endpoint extra s a :
  aborted s = false ->
  forallb is_request_event (fst (fst (sendImage uri endpoint extra s a))) = true.
Proof.
  intros Hs. unfold sendImage. rewrite Hs.
  destruct (info a) as [[|]|e]; try reflexivity.
  destruct (post a) as [d|e]; [reflexivity|].
  destruct (_ || _); reflexivity.
Qed.

Lemma policy_of_plain op uri : plain_request (policy_of op uri).
Proof.
  intros s a Hs.
  destruct op; simpl; try (apply sendImage_plain; assumption); reflexivity.
Qed.

Lemma retry_loop_shape p :
  plain_request p ->
  forall fuel k s w, loop_trace true fuel k (fst (retry_loop p fuel k s w)).
Proof.
  intros Hp fuel. induction fuel as [|fuel IH]; intros k s w; simpl.
  - constructor.
  - destruct (aborted s) eqn:Hs; [constructor|].
    specialize (Hp s (w k) Hs).
    destruct (request p s (w k)) as [[tr s1] r]. simpl in Hp.
    destruct r as [data|e].
    + destruct (on_data p data) as [res|].
      * apply lt_settled; assumption.
      * specialize (IH (S k) s1 w).
        destruct (retry_loop p fuel (S k) s1 w) as [t' res]. simpl in *.
        apply (lt_through true fuel k tr t'); auto.
    + destruct (is_abort p e); [apply lt_settled; assumption|].
      destruct (k <? MAX_RETRIES)%nat.
      * destruct (aborted s1).
        -- apply (lt_cancelled_late true fuel k tr); assumption.
        -- specialize (IH (S k) (fire s1 (abort_during_sleep (w k))) w).
           destruct (retry_loop p fuel (S k) _ w) as [t' res]. simpl in *.
           apply (lt_retry true fuel k tr t'); assumption.
      * apply (lt_gave_up true fuel k tr); assumption.
Qed.



(** Each loop of the source is the shared shape at its policy. *)
Lemma captioning_loop_retry fuel : forall k uri s w,
  captioning_loop fuel k uri s w = retry_loop (caption_policy uri) fuel k s w.
Proof.
  induction fuel as [|fuel IH]; intros k uri s w; simpl; [reflexivity|].
  destruct (aborted s); [reflexivity|].
  destruct (sendImage uri BLIP_API_URL [] s (w k)) as [[tr s1] [data|e]].
  - destruct (truthy_field data caption); simpl; [reflexivity|].
    rewrite IH. reflexivity.
  - unfold message_is_abort. destruct (message e =? _); [reflexivity|].
    destruct (k <? MAX_RETRIES)%nat; [|reflexivity].
    destruct (aborted s1); [reflexivity|]. rewrite IH. reflexivity.
Qed.

Lemma detection_loop_retry fuel : forall k uri s w,
  detection_loop fuel k uri s w = retry_loop (detection_policy uri) fuel k s w.
Proof.
  induction fuel as [|fuel IH]; intros k uri s w; simpl; [reflexivity|].
  destruct (aborted s); [reflexivity|].
  destruct (sendImage uri DETR_API_URL [] s (w k)) as [[tr s1] [data|e]].
  - destruct (labels_field data); reflexivity.
  - unfold message_is_abort. destruct (message e =? _); [reflexivity|].
    destruct (k <? MAX_RETRIES)%nat; [|reflexivity].
    destruct (aborted s1); [reflexivity|]. rewrite IH. reflexivity.
Qed.

Lemma vqa_loop_retry fuel : forall k uri q s w,
  vqa_loop fuel k uri q s w = retry_loop (vqa_policy uri q) fuel k s w.
Proof.
  induction fuel as [|fuel IH]; intros k uri q s w; simpl; [reflexivity|].
  destruct (aborted s); [reflexivity|].
  destruct (sendImage uri BLIP_VQA_API_URL _ s (w k)) as [[tr s1] [data|e]].
  - destruct (truthy_field data answer); simpl; [reflexivity|].
    rewrite IH. reflexivity.
  - unfold message_is_abort. destruct (message e =? _); [reflexivity|].
    destruct (k <? MAX_RETRIES)%nat; [|reflexivity].
    destruct (aborted s1); [reflexivity|]. rewrite IH. reflexivity.
Qed.

Lemma color_loop_retry fuel : forall k uri s w,
  color_loop fuel k uri s w = retry_loop (color_policy uri) fuel k s w.
Proof.
  induction fuel as [|fuel IH]; intros k uri s w; simpl; [reflexivity|].
  destruct (aborted s); [reflexivity|].
  destruct (sendImage uri BLIP_VQA_API_URL _ s (w k)) as [[tr s1] [data|e]].
  - destruct (truthy_field data answer); reflexivity.
  - unfold message_is_abort. destruct (message e =? _); [reflexivity|].
    destruct (k <? MAX_RETRIES)%nat; [|reflexivity].
    destruct (aborted s1); [reflexivity|]. rewrite IH. reflexivity.
Qed.

Lemma transcription_loop_retry fuel : forall k uri s w,
  transcription_loop fuel k uri s w = retry_loop transcription_policy fuel k s w.
Proof.
  induction fuel as [|fuel IH]; intros k uri s w; simpl; [reflexivity|].
  destruct (aborted s); [reflexivity|].
  destruct (post (w k)) as [data|e].
  - destruct (truthy_field data text); reflexivity.
  - destruct (_ || _); [reflexivity|].
    destruct (k <? MAX_RETRIES)%nat; [|reflexivity].
    destruct (aborted (fire s _)); [reflexivity|]. rewrite IH. reflexivity.
Qed.

Lemma run_retry op uri s w : run op uri s w = retry (policy_of op uri) s w.
Proof.
  destruct op; unfold run, retry, policy_of,
    sendImageForCaptioning, sendImageForObjectDetection,
    sendImageForVQA, sendImageForColorVQA, sendAudioForTranscription;
    (destruct (aborted s); [reflexivity|]).
  - rewrite captioning_loop_retry. reflexivity.
  - rewrite detection_loop_retry. reflexivity.
  - rewrite vqa_loop_retry. reflexivity.
  - rewrite color_loop_retry. reflexivity.
  - rewrite transcription_loop_retry. reflexivity.
Qed.

(** *** What the grammar gives *)

Lemma attempts_app t u : attempts (t ++ u) = attempts t + attempts u.
Proof. unfold attempts. rewrite filter_app, length_app. reflexivity. Qed.

Lemma sleeps_app t u : sleeps (t ++ u) = sleeps t + sleeps u.
Proof. unfold sleeps. rewrite filter_app, length_app. reflexivity. Qed.

Lemma request_events_attempts tr :
  forallb is_request_event tr = true -> attempts tr = 0.
Proof.
  induction tr as [|e tr IH]; simpl; [reflexivity|].
  intros H. apply andb_prop in H as [He H].
  destruct e as [[|]| | | | |]; try discriminate; apply IH; assumption.
Qed.

Lemma request_events_sleeps tr :
  forallb is_request_event tr = true -> sleeps tr = 0.
Proof.
  induction tr as [|e tr IH]; simpl; [reflexivity|].
  intros H. apply andb_prop in H as [He H].
  destruct e as [[|]| | | | |]; try discriminate; apply IH; assumption.
Qed.

Lemma request_events_fixed_delay d tr u :
  forallb is_request_event tr = true ->
  fixed_delay d (tr ++ u) = fixed_delay d u.
Proof.
  induction tr as [|e tr IH]; simpl; [reflexivity|].
  intros H. apply andb_prop in H as [He H].
  destruct e as [[|]| | | | |]; try discriminate; apply IH; assumption.
Qed.

Lemma request_events_abort_is_last tr u :
  forallb is_request_event tr = true ->
  abort_is_last (tr ++ u) = abort_is_last u.
Proof.
  induction tr as [|e tr IH]; simpl; [reflexivity|].
  intros H. apply andb_prop in H as [He H].
  destruct e as [[|]| | | | |]; try discriminate; apply IH; assumption.
Qed.


(** After plain request events, a continuation that does not start with an
    attempt or a delay is guarded whatever came before it. *)
Lemma request_events_guarded tr u :
  forallb is_request_event tr = true ->
  (forall prev, guarded prev u = true) ->
  forall prev, guarded prev (tr ++ u) = true.
Proof.
  intros Htr Hu. induction tr as [|e tr IH]; simpl; [exact Hu|].
  simpl in Htr. apply andb_prop in Htr as [He Htr]. intros prev.
  destruct e as [[|]| | | | |]; try discriminate; simpl; apply IH; assumption.
Qed.

Lemma attempts_iteration k tr u :
  forallb is_request_event tr = true ->
  attempts ((ReadAborted false :: Attempt k :: tr) ++ u) = S (attempts u).
Proof.
  intros H. rewrite attempts_app. change (attempts (_ :: _ :: tr)) with (S (attempts tr)).
  rewrite (request_events_attempts _ H). reflexivity.
Qed.

Lemma sleeps_iteration k tr u :
  forallb is_request_event tr = true ->
  sleeps ((ReadAborted false :: Attempt k :: tr) ++ u) = sleeps u.
Proof.
  intros H. rewrite sleeps_app. change (sleeps (_ :: _ :: tr)) with (sleeps tr).
  rewrite (request_events_sleeps _ H). reflexivity.
Qed.

Lemma loop_trace_attempts b f k t : loop_trace b f k t -> attempts t <= f.
Proof.
  induction 1.
  - apply Nat.le_refl.
  - cbn. lia.
  - rewrite <- (app_nil_r (_ :: _ :: tr)), attempts_iteration by assumption.
    change (attempts []) with 0. lia.
  - rewrite attempts_iteration by assumption.
    change (attempts [Warn k]) with 0. lia.
  - rewrite attempts_iteration by assumption.
    change (attempts [Warn k; ReadAborted true]) with 0. lia.
  - rewrite attempts_iteration by assumption. cbn [app].
    change (attempts (_ :: _ :: _ :: t')) with (attempts t'). lia.
  - rewrite attempts_iteration by assumption. lia.
Qed.

Lemma fixed_delay_iteration d k tr u :
  forallb is_request_event tr = true ->
  fixed_delay d ((ReadAborted false :: Attempt k :: tr) ++ u) = fixed_delay d u.
Proof.
  intros H.
  change (fixed_delay d ((ReadAborted false :: Attempt k :: tr) ++ u))
    with (fixed_delay d (tr ++ u)).
  apply request_events_fixed_delay, H.
Qed.

Lemma loop_trace_fixed_delay b f k t :
  loop_trace b f k t -> fixed_delay 3000 t = true.
Proof.
  induction 1; try reflexivity.
  - rewrite <- (app_nil_r (_ :: _ :: tr)), fixed_delay_iteration by assumption.
    reflexivity.
  - rewrite fixed_delay_iteration by assumption. reflexivity.
  - rewrite fixed_delay_iteration by assumption. reflexivity.
  - rewrite fixed_delay_iteration by assumption. exact IHloop_trace.
  - rewrite fixed_delay_iteration by assumption. exact IHloop_trace.
Qed.

Lemma loop_trace_abort_is_last b f k t :
  loop_trace b f k t -> abort_is_last t = true.
Proof.
  induction 1; try reflexivity; cbn [app abort_is_last].
  - rewrite <- (app_nil_r tr), request_events_abort_is_last by assumption.
    reflexivity.
  - rewrite request_events_abort_is_last by assumption. reflexivity.
  - rewrite request_events_abort_is_last by assumption. reflexivity.
  - rewrite request_events_abort_is_last by assumption. assumption.
  - rewrite request_events_abort_is_last by assumption. assumption.
Qed.

Lemma loop_trace_guarded b f k t :
  loop_trace b f k t -> forall prev, guarded prev t = true.
Proof.
  induction 1; intros prev; try reflexivity; cbn [app guarded is_attempt is_sleep orb andb].
  - rewrite <- (app_nil_r tr). apply request_events_guarded; [assumption|].
    reflexivity.
  - apply request_events_guarded; [assumption|]. reflexivity.
  - apply request_events_guarded; [assumption|]. reflexivity.
  - apply request_events_guarded; [assumption|]. intros p.
    cbn [guarded is_attempt is_sleep orb andb]. apply IHloop_trace.
  - apply request_events_guarded; assumption.
Qed.


(** *** Results *)

Lemma never_cancelled_live s w :
  never_cancelled s w ->
  aborted s = false /\
  forall n, fire s (abort_during_info (w n)) = s /\
            fire s (abort_during_post (w n)) = s /\
            fire s (abort_during_sleep (w n)) = s.
Proof.
  destruct s as [b|]; simpl.
  - intros [-> H]. split; [reflexivity|]. intros n. specialize (H n).
    unfold undisturbed in H. apply negb_true_iff in H.
    apply orb_false_iff in H as [H H3]. apply orb_false_iff in H as [H1 H2].
    rewrite H1, H2, H3. repeat split.
  - intros _. repeat split.
Qed.

(** A cancellation seen by a read of the token ends the call the way the
    policy ends on an abort. *)
Lemma retry_loop_cancelled p :
  plain_request p ->
  forall fuel k s w,
    In (ReadAborted true) (fst (retry_loop p fuel k s w)) ->
    snd (retry_loop p fuel k s w) = abort_seen p.
Proof.
  intros Hp.
  assert (Hno : forall tr, forallb is_request_event tr = true ->
                           ~ In (ReadAborted true) tr).
  { intros tr H Hin. rewrite forallb_forall in H. apply H in Hin. discriminate. }
  induction fuel as [|fuel IH]; intros k s w; simpl; [intros []|].
  destruct (aborted s) eqn:Hs; [reflexivity|].
  specialize (Hp s (w k) Hs). apply Hno in Hp.
  destruct (request p s (w k)) as [[tr s1] r]. simpl in Hp.
  assert (Hpre : forall u, In (ReadAborted true)
                              ((ReadAborted false :: Attempt k :: tr) ++ u) ->
                           In (ReadAborted true) u).
  { intros u H. apply in_app_or in H as [H|H]; [|exact H].
    destruct H as [H|[H|H]]; try discriminate. contradiction. }
  destruct r as [data|e].
  - destruct (on_data p data) as [res|].
    + simpl. intros H. rewrite <- (app_nil_r tr) in H.
      apply (Hpre []) in H. destruct H.
    + specialize (IH (S k) s1 w).
      destruct (retry_loop p fuel (S k) s1 w) as [t' res]. simpl in *.
      intros H. apply IH, Hpre, H.
  - destruct (is_abort p e).
    + simpl. intros H. rewrite <- (app_nil_r tr) in H.
      apply (Hpre []) in H. destruct H.
    + destruct (k <? MAX_RETRIES)%nat.
      * destruct (aborted s1); [reflexivity|].
        specialize (IH (S k) (fire s1 (abort_during_sleep (w k))) w).
        destruct (retry_loop p fuel (S k) _ w) as [t' res].
        cbn [fst snd] in *. intros H. apply Hpre in H.
        destruct H as [H|[H|[H|H]]]; try discriminate. apply IH, H.
      * cbn [fst snd]. intros H. apply Hpre in H.
        destruct H as [H|[]]. discriminate.
Qed.

(** When every attempt fails without an abort and nobody cancels, the loop
    runs to its bound and returns the fallback message. *)
Lemma retry_loop_exhausted p s w :
  plain_request p ->
  aborted s = false ->
  (forall n, fire s (abort_during_sleep (w n)) = s) ->
  forall fuel k,
    k + fuel = S MAX_RETRIES ->
    (forall n, k <= n <= MAX_RETRIES -> fails_plainly p s (w n)) ->
    snd (retry_loop p fuel k s w) = Returned FALLBACK_MESSAGE /\
    attempts (fst (retry_loop p fuel k s w)) = fuel /\
    sleeps (fst (retry_loop p fuel k s w)) = fuel - 1.
Proof.
  intros Hp Hs Hsleep. induction fuel as [|fuel IH]; intros k Hk Hfail.
  - repeat split.
  - cbn [retry_loop]. rewrite Hs.
    destruct (Hfail k) as (tr & e & Hreq & He); [lia|].
    pose proof (Hp s (w k) Hs) as Htr. rewrite Hreq in *. cbn [fst] in Htr.
    rewrite He. destruct (k <? MAX_RETRIES)%nat eqn:Hlt.
    + apply Nat.ltb_lt in Hlt. rewrite Hs, Hsleep.
      destruct (IH (S k)) as (Hres & Hatt & Hsl); [lia| |].
      { intros n Hn. apply Hfail. lia. }
      destruct (retry_loop p fuel (S k) s w) as [t' res]. cbn [fst snd] in *.
      rewrite attempts_iteration, sleeps_iteration by assumption.
      cbn [app]. change (attempts (_ :: _ :: _ :: t')) with (attempts t').
      change (sleeps (_ :: _ :: _ :: t')) with (S (sleeps t')).
      repeat split; [assumption|lia|lia].
    + apply Nat.ltb_ge in Hlt. assert (fuel = 0) as -> by lia.
      cbn [fst snd]. rewrite attempts_iteration, sleeps_iteration by assumption.
      repeat split.
Qed.

(** When every answer is a success the policy does not return on and nobody
    cancels, the loop runs to its bound without a single delay and returns
    the fallback message. *)
Lemma retry_loop_all_through p s w :
  plain_request p ->
  aborted s = false ->
  forall fuel k,
    (forall n, k <= n < k + fuel -> falls_through p s (w n)) ->
    snd (retry_loop p fuel k s w) = Returned FALLBACK_MESSAGE /\
    attempts (fst (retry_loop p fuel k s w)) = fuel /\
    sleeps (fst (retry_loop p fuel k s w)) = 0.
Proof.
  intros Hp Hs. induction fuel as [|fuel IH]; intros k Hall.
  - repeat split.
  - cbn [retry_loop]. rewrite Hs.
    destruct (Hall k) as (tr & d & Hreq & Hd); [lia|].
    pose proof (Hp s (w k) Hs) as Htr. rewrite Hreq in *. cbn [fst] in Htr.
    rewrite Hd.
    destruct (IH (S k)) as (Hres & Hatt & Hsl).
    { intros n Hn. apply Hall. lia. }
    destruct (retry_loop p fuel (S k) s w) as [t' res]. cbn [fst snd] in *.
    rewrite attempts_iteration, sleeps_iteration by assumption.
    repeat split; [assumption|lia|assumption].
Qed.

Lemma attempt_fails_plainly op uri s a :
  aborted s = false ->
  fire s (abort_during_info a) = s ->
  fire s (abort_during_post a) = s ->
  attempt_fails op a = true ->
  fails_plainly (policy_of op uri) s a.
Proof.
  intros Hs Hi Hp Hf. unfold fails_plainly.
  assert (Himg : forall endpoint extra k,
             match info a with
             | Rejected e => negb (message_is_abort e)
             | Resolved false => true
             | Resolved true =>
                 match post a with
                 | Rejected e => negb (abort_error e)
                 | Resolved _ => false
                 end
             end = true ->
             exists t e,
               request (image_policy uri endpoint extra k) s a
               = (t, s, Rejected e)
               /\ is_abort (image_policy uri endpoint extra k) e = false).
  { intros endpoint extra k H. cbn [request is_abort image_policy].
    unfold sendImage. rewrite Hs, Hi, Hp.
    destruct (info a) as [[|]|e].
    - destruct (post a) as [d|e]; [discriminate|].
      apply negb_true_iff in H. unfold abort_error in H. rewrite H.
      eexists _, e. split; [reflexivity|].
      apply orb_false_iff in H as [_ H]. exact H.
    - eexists _, _. split; reflexivity.
    - apply negb_true_iff in H. eexists _, e. split; [reflexivity|exact H]. }
  destruct op; cbn [attempt_fails] in Hf; try (apply Himg; exact Hf).
  cbn [policy_of transcription_policy request is_abort]. rewrite Hp.
  destruct (post a) as [d|e]; [discriminate|].
  apply negb_true_iff in Hf. eexists _, e. split; [reflexivity|exact Hf].
Qed.

Lemma fieldless_falls_through uri endpoint extra f s a :
  aborted s = false ->
  fire s (abort_during_info a) = s ->
  fire s (abort_during_post a) = s ->
  fieldless f a = true ->
  falls_through
    (image_policy uri endpoint extra
                  (fun data => option_map Returned (truthy_field data f))) s a.
Proof.
  intros Hs Hi Hp Hf. unfold falls_through, fieldless in *.
  cbn [request on_data image_policy]. unfold sendImage. rewrite Hs, Hi, Hp.
  destruct (info a) as [[|]|e]; try discriminate.
  destruct (post a) as [d|e]; try discriminate.
  eexists _, d. split; [reflexivity|].
  destruct (truthy_field d f); [discriminate|reflexivity].
Qed.



(** ** The retrying client on sample inputs *)

Example caption_first_attempt :
  sendImageForCaptioning
    "photo.jpg" (Some false)
    (answering (Some (mkResponse (Some "a red mug on a table") None None None)))
  = ([ReadAborted false; ReadAborted false; Attempt 1; ReadAborted false;
      GetInfo "photo.jpg"; Post BLIP_API_URL []],
     Returned "a red mug on a table").
Proof. reflexivity. Qed.

Example detection_joins_labels :
  snd (sendImageForObjectDetection
         "photo.jpg" None
         (answering (Some (mkResponse None (Some ["cat"; "dog"]) None None))))
  = Returned "cat, dog".
Proof. reflexivity. Qed.

Example caption_unreachable :
  fst (sendImageForCaptioning "photo.jpg" None unreachable)
  = ReadAborted false
    :: concat
         (map (fun n =>
                 [ReadAborted false; Attempt n; ReadAborted false;
                  GetInfo "photo.jpg"; Post BLIP_API_URL []; Warn n;
                  ReadAborted false; Sleep 3000])
              [1; 2; 3; 4; 5])
    ++ [ReadAborted false; Attempt 6; ReadAborted false;
        GetInfo "photo.jpg"; Post BLIP_API_URL []; Warn 6].
Proof. reflexivity. Qed.

Example transcription_missing_text :
  snd (sendAudioForTranscription "question.wav" None
                                 (answering (Some no_fields)))
  = Returned "".
Proof. reflexivity. Qed.

(** The request library reports the cancellation of a pending request with
    an error of its own, which the operation takes for a failure; the read
    of the token before the delay then finds it cancelled. *)
Example caption_cancelled_in_flight :
  sendImageForCaptioning
    "photo.jpg" (Some false)
    (fun _ => mkAttempt (Resolved true) false
                        (Rejected (mkError "CanceledError" "canceled"))
                        true false)
  = ([ReadAborted false; ReadAborted false; Attempt 1; ReadAborted false;
      GetInfo "photo.jpg"; Post BLIP_API_URL []; Warn 1; ReadAborted true],
     Thrown request_aborted).
Proof. reflexivity. Qed.

(** The token is cancelled during the first delay. *)
Example transcription_cancelled_asleep :
  sendAudioForTranscription
    "question.wav" (Some false)
    (fun _ => mkAttempt (Resolved true) false
                        (Rejected (mkError "AxiosError" "Network Error"))
                        false true)
  = ([ReadAborted false; ReadAborted false; Attempt 1;
      Post WHISPER_API_URL []; Warn 1; ReadAborted false; Sleep 3000;
      ReadAborted true],
     Returned "").
Proof. reflexivity. Qed.

(** ** Properties of the retrying client *)

(** What the detection returns on a first answer that succeeds: the labels
    joined when there are [labels], were it an empty array, and the
    sentence "No objects detected." when there are none. *)
Lemma detection_first_answer uri s w r :
  aborted s = false ->
  info (w 1) = Resolved true ->
  post (w 1) = Resolved (Some r) ->
  snd (sendImageForObjectDetection uri s w)
  = Returned match labels r with
             | Some [] => ""
             | Some l => join ", " l
             | None => "No objects detected."
             end.
Proof.
  intros Hs Hi Hp. unfold sendImageForObjectDetection. rewrite Hs.
  change MAX_RETRIES with 6. cbn [detection_loop]. rewrite Hs.
  unfold sendImage. rewrite Hs, Hi, Hp. cbn [labels_field snd].
  destruct (labels r) as [[|x l]|]; reflexivity.
Qed.

(** C1 on the source: an empty array is truthy, so on [{labels: []}] the
    detection takes the branch that joins the labels and returns the empty
    string, not "No objects detected."; the Detect screen then displays
    and speaks "No objects found". *)
Theorem detection_empty_labels :
  sendImageForObjectDetection
    "photo.jpg" None (answering (Some (mkResponse None (Some []) None None)))
  = ([ReadAborted false; ReadAborted false; Attempt 1; ReadAborted false;
      GetInfo "photo.jpg"; Post DETR_API_URL []],
     Returned "")
  /\ sendImageForObjectDetection "photo.jpg" None (answering (Some no_fields))
     = ([ReadAborted false; ReadAborted false; Attempt 1; ReadAborted false;
         GetInfo "photo.jpg"; Post DETR_API_URL []],
        Returned "No objects detected.")
  /\ filter (fun p => Detect.is_ui (snd p) || Detect.is_speech (snd p))
            (fst (fst (Detect.takePhoto Detect.fresh_closure
                                        (Detect.smooth Detect.stays "")
                                        Detect.focused_refs)))
     = [(1, Detect.SetIsCapturing true);
        (1, Detect.SetCapturedPhoto "photo.jpg");
        (1, Detect.SetIsDetecting true);
        (1, Detect.SetDetectionResults "Processing...");
        (1, Detect.SpeakText "Processing...");
        (1, Detect.SetDetectionResults "No objects found");
        (1, Detect.SpeakText "No objects found");
        (1, Detect.SetIsDetecting false);
        (1, Detect.Later 1000 (Detect.SetIsCapturing false))].
Proof. repeat split. Qed.

(** C2, as the source has it: when all six attempts fail (and not by an
    abort) and nobody cancels, every operation, the transcription included,
    makes six attempts with five delays between them and returns the
    fallback message; the transcription returns the empty string when a
    read of the token finds it cancelled. *)
Theorem exhaustion_returns_fallback op uri s w :
  never_cancelled s w ->
  (forall n, 1 <= n <= MAX_RETRIES -> attempt_fails op (w n) = true) ->
  snd (run op uri s w) = Returned FALLBACK_MESSAGE
  /\ attempts (fst (run op uri s w)) = 6
  /\ sleeps (fst (run op uri s w)) = 5
  /\ (forall s' w',
         In (ReadAborted true) (fst (sendAudioForTranscription uri s' w')) ->
         snd (sendAudioForTranscription uri s' w') = Returned "").
Proof.
  intros Hnc Hfail. apply never_cancelled_live in Hnc as [Hs Hfire].
  assert (Hrun : snd (run op uri s w) = Returned FALLBACK_MESSAGE /\
                 attempts (fst (run op uri s w)) = 6 /\
                 sleeps (fst (run op uri s w)) = 5).
  { rewrite run_retry. unfold retry. rewrite Hs.
    destruct (retry_loop_exhausted (policy_of op uri) s w
                (policy_of_plain op uri) Hs (fun n => proj2 (proj2 (Hfire n)))
                MAX_RETRIES 1 eq_refl) as (Hres & Hatt & Hsl).
    { intros n Hn. apply attempt_fails_plainly; try assumption;
        try apply Hfire. apply Hfail, Hn. }
    destruct (retry_loop (policy_of op uri) MAX_RETRIES 1 s w) as [t res].
    cbn [fst snd] in *. repeat split; assumption. }
  destruct Hrun as (Hres & Hatt & Hsl).
  split; [exact Hres|split; [exact Hatt|split; [exact Hsl|]]].
  intros s' w'. change (sendAudioForTranscription uri s' w')
    with (run Transcribe uri s' w').
  rewrite run_retry. unfold retry.
  destruct (aborted s'); [reflexivity|].
  pose proof (retry_loop_cancelled (policy_of Transcribe uri)
                (policy_of_plain Transcribe uri) MAX_RETRIES 1 s' w') as H.
  destruct (retry_loop (policy_of Transcribe uri) MAX_RETRIES 1 s' w')
    as [t res]. cbn [fst snd] in *.
  intros [Hin|Hin]; [discriminate|]. apply H, Hin.
Qed.

Lemma exhaustion_returns_fallback_witness :
  snd (run Caption "photo.jpg" (Some false) unreachable)
  = Returned FALLBACK_MESSAGE
  /\ snd (run Transcribe "question.wav" None unreachable)
     = Returned FALLBACK_MESSAGE.
Proof.
  split.
  - destruct (exhaustion_returns_fallback
                Caption "photo.jpg" (Some false) unreachable) as [H _].
    + split; [reflexivity|]. intros n. reflexivity.
    + intros n _. reflexivity.
    + exact H.
  - destruct (exhaustion_returns_fallback
                Transcribe "question.wav" None unreachable) as [H _].
    + exact I.
    + intros n _. reflexivity.
    + exact H.
Defined.

(** C2 as stated fails: on retry exhaustion the transcription does not
    return the empty string. *)
Lemma transcription_exhaustion_counterexample :
  snd (sendAudioForTranscription "question.wav" None unreachable)
  <> Returned "".
Proof. vm_compute. discriminate. Qed.

(** C3, as the source has it: called with a token that is already
    cancelled, every operation reads the token once and does nothing else
    (no attempt, no file or network access); the four image operations
    throw the abort error, the transcription returns the empty string. *)
Theorem already_cancelled op uri w :
  fst (run op uri (Some true) w) = [ReadAborted true]
  /\ attempts (fst (run op uri (Some true) w)) = 0
  /\ io_count (fst (run op uri (Some true) w)) = 0
  /\ snd (run op uri (Some true) w)
     = match op with
       | Transcribe => Returned ""
       | _ => Thrown request_aborted
       end.
Proof. destruct op; repeat split. Qed.

(** C3 as stated fails: with a token already cancelled the transcription
    does not fail with the abort error, nor with any error. *)
Lemma transcription_cancelled_counterexample :
  ~ exists e,
      snd (run Transcribe "question.wav" (Some true) unreachable) = Thrown e.
Proof. intros [e H]. vm_compute in H. discriminate. Qed.



(** C10, as the source has it: in the caption and VQA operations a
    successful answer without its field takes one of the six attempts and
    is followed by no delay, and six of them end in the fallback message;
    the color operation returns "Unknown" on the first such answer. *)
Theorem fieldless_answers uri question s w :
  never_cancelled s w ->
  (forall n, 1 <= n <= MAX_RETRIES ->
             fieldless caption (w n) = true /\ fieldless answer (w n) = true) ->
  (snd (sendImageForCaptioning uri s w) = Returned FALLBACK_MESSAGE
   /\ attempts (fst (sendImageForCaptioning uri s w)) = 6
   /\ sleeps (fst (sendImageForCaptioning uri s w)) = 0)
  /\ (snd (sendImageForVQA uri question s w) = Returned FALLBACK_MESSAGE
      /\ attempts (fst (sendImageForVQA uri question s w)) = 6
      /\ sleeps (fst (sendImageForVQA uri question s w)) = 0)
  /\ (snd (sendImageForColorVQA uri s w) = Returned "Unknown"
      /\ attempts (fst (sendImageForColorVQA uri s w)) = 1
      /\ sleeps (fst (sendImageForColorVQA uri s w)) = 0).
Proof.
  intros Hnc Hall. apply never_cancelled_live in Hnc as [Hs Hfire].
  assert (Hgen : forall endpoint extra f,
             (forall n, 1 <= n <= MAX_RETRIES -> fieldless f (w n) = true) ->
             let p := image_policy uri endpoint extra
                        (fun data => option_map Returned (truthy_field data f)) in
             snd (retry p s w) = Returned FALLBACK_MESSAGE
             /\ attempts (fst (retry p s w)) = 6
             /\ sleeps (fst (retry p s w)) = 0).
  { intros endpoint extra f Hf p. unfold retry. rewrite Hs.
    destruct (retry_loop_all_through p s w) with (fuel := MAX_RETRIES) (k := 1)
      as (Hres & Hatt & Hsl); try assumption.
    - intros s0 a H0. apply sendImage_plain, H0.
    - intros n Hn. apply fieldless_falls_through; try assumption;
        try apply Hfire. apply Hf. change MAX_RETRIES with 6 in *. lia.
    - destruct (retry_loop p MAX_RETRIES 1 s w) as [t res].
      cbn [fst snd] in *. repeat split; assumption. }
  split; [|split].
  - change (sendImageForCaptioning uri s w) with (run Caption uri s w).
    rewrite run_retry. apply Hgen. intros n Hn. apply Hall, Hn.
  - change (sendImageForVQA uri question s w) with (run (Vqa question) uri s w).
    rewrite run_retry. apply Hgen. intros n Hn. apply Hall, Hn.
  - destruct (Hall 1) as [_ H1]; [change MAX_RETRIES with 6; lia|].
    destruct (Hfire 1) as (Hi & Hp & _).
    unfold sendImageForColorVQA. rewrite Hs. change MAX_RETRIES with 6.
    cbn [color_loop]. rewrite Hs. unfold sendImage. rewrite Hs, Hi, Hp.
    unfold fieldless in H1.
    destruct (info (w 1)) as [[|]|e]; try discriminate.
    destruct (post (w 1)) as [d|e]; try discriminate.
    destruct (truthy_field d answer); [discriminate|].
    repeat split.
Qed.

Lemma fieldless_answers_witness :
  snd (sendImageForCaptioning "photo.jpg" None (answering (Some no_fields)))
  = Returned FALLBACK_MESSAGE
  /\ snd (sendImageForColorVQA "photo.jpg" None (answering (Some no_fields)))
     = Returned "Unknown".
Proof.
  destruct (fieldless_answers "photo.jpg" "What is this?" None
                              (answering (Some no_fields)))
    as [[H1 _] [_ [H3 _]]].
  - exact I.
  - intros n _. split; reflexivity.
  - split; [exact H1|exact H3].
Defined.

(** C10 as stated fails for the color operation: six successful answers
    without an [answer] do not end in the fallback message. *)
Lemma color_fieldless_counterexample :
  snd (sendImageForColorVQA "photo.jpg" None (answering (Some no_fields)))
  <> Returned FALLBACK_MESSAGE.
Proof. vm_compute. discriminate. Qed.

(** ** The timeout of the speech *)

Section TimeoutFacts.

Import Double Speech.
Local Open Scope Z_scope.

Lemma digits2_size p : digits2_pos p = Pos.size p.
Proof. induction p as [p IH|p IH|]; cbn; rewrite ?IH; reflexivity. Qed.

Lemma digits2_bounds p :
  2 ^ (Zpos (digits2_pos p) - 1) <= Zpos p < 2 ^ Zpos (digits2_pos p).
Proof.
  rewrite digits2_size. split.
  - pose proof (Pos.size_le p) as H.
    assert (H2 : 2 ^ Zpos (Pos.size p) <= Zpos p~0).
    { rewrite <- Pos2Z.inj_pow. apply Pos2Z.pos_le_pos. exact H. }
    replace (Zpos (Pos.size p)) with (Zpos (Pos.size p) - 1 + 1) in H2 by lia.
    rewrite Z.pow_add_r in H2 by lia. lia.
  - pose proof (Pos.size_gt p) as H.
    rewrite <- Pos2Z.inj_pow. apply Pos2Z.pos_lt_pos. exact H.
Qed.

Lemma shr_1_m mrs :
  0 <= shr_m mrs -> shr_m (shr_1 mrs) = shr_m mrs / 2 /\ 0 <= shr_m (shr_1 mrs).
Proof.
  destruct mrs as [m r s]. cbn [shr_m]. intros H.
  destruct m as [|[p|p|]|p]; cbn [shr_1 shr_m]; try lia.
  - split; [reflexivity|lia].
  - split; [|lia]. rewrite (Pos2Z.inj_xI p).
    apply Z.div_unique with (r := 1); lia.
  - split; [|lia]. rewrite (Pos2Z.inj_xO p).
    apply Z.div_unique with (r := 0); lia.
  - split; [reflexivity|lia].
Qed.

Lemma pow2_xI p : 2 ^ Zpos p~1 = 2 * 2 ^ Zpos p * 2 ^ Zpos p.
Proof.
  rewrite (Pos2Z.inj_xI p).
  replace (2 * Zpos p + 1) with (1 + Zpos p + Zpos p) by lia.
  rewrite Z.pow_add_r by lia. rewrite Z.pow_add_r by lia.
  rewrite Z.pow_1_r. reflexivity.
Qed.

Lemma pow2_xO p : 2 ^ Zpos p~0 = 2 ^ Zpos p * 2 ^ Zpos p.
Proof.
  rewrite (Pos2Z.inj_xO p).
  replace (2 * Zpos p) with (Zpos p + Zpos p) by lia.
  rewrite Z.pow_add_r by lia. reflexivity.
Qed.

Lemma iter_shr_m p : forall mrs,
  0 <= shr_m mrs ->
  shr_m (iter_pos shr_1 p mrs) = shr_m mrs / 2 ^ Zpos p
  /\ 0 <= shr_m (iter_pos shr_1 p mrs).
Proof.
  induction p as [p IH|p IH|]; intros mrs H; cbn [iter_pos].
  - destruct (shr_1_m mrs H) as [E1 H1].
    destruct (IH _ H1) as [E2 H2]. destruct (IH _ H2) as [E3 H3].
    split; [|exact H3]. rewrite E3, E2, E1, pow2_xI.
    assert (0 < 2 ^ Zpos p) by (apply Z.pow_pos_nonneg; lia).
    rewrite !Z.div_div by lia. f_equal. lia.
  - destruct (IH _ H) as [E2 H2]. destruct (IH _ H2) as [E3 H3].
    split; [|exact H3]. rewrite E3, E2, pow2_xO.
    assert (0 < 2 ^ Zpos p) by (apply Z.pow_pos_nonneg; lia).
    rewrite !Z.div_div by lia. reflexivity.
  - destruct (shr_1_m mrs H) as [E1 H1]. split; [|exact H1].
    rewrite E1. reflexivity.
Qed.

Lemma digits2_53 m : 2 ^ 52 <= Zpos m < 2 ^ 53 -> Zpos (digits2_pos m) = 53.
Proof.
  intros [Hlo Hhi]. destruct (digits2_bounds m) as [H1 H2].
  assert (Ha : 2 ^ 52 < 2 ^ Zpos (digits2_pos m)) by lia.
  assert (Hb : 2 ^ (Zpos (digits2_pos m) - 1) < 2 ^ 53) by lia.
  apply Z.pow_lt_mono_r_iff in Ha; [|lia|lia].
  apply Z.pow_lt_mono_r_iff in Hb; [|lia|lia]. lia.
Qed.

(** The first shift of the rounding of an exact positive mantissa. *)
Lemma shr_fexp_exact m E :
  0 < m ->
  -1074 <= Zdigits2 m + E - 53 ->
  (Zdigits2 m <= 53 ->
   shr_fexp prec emax m E loc_Exact = (Build_shr_record m false false, E))
  /\ (53 < Zdigits2 m ->
      snd (shr_fexp prec emax m E loc_Exact) = E + (Zdigits2 m - 53)
      /\ shr_m (fst (shr_fexp prec emax m E loc_Exact))
         = m / 2 ^ (Zdigits2 m - 53)).
Proof.
  intros Hm Hd. unfold shr_fexp, fexp, emin, prec, emax.
  replace (Z.max (Zdigits2 m + E - 53) (3 - 1024 - 53))
    with (Zdigits2 m + E - 53) by lia.
  replace (Zdigits2 m + E - 53 - E) with (Zdigits2 m - 53) by lia.
  cbn [shr_record_of_loc]. split; intros H.
  - unfold shr. destruct (Zdigits2 m - 53) eqn:En; try reflexivity. lia.
  - unfold shr. destruct (Zdigits2 m - 53) eqn:En; try lia.
    cbn [fst snd]. split; [reflexivity|].
    apply (iter_shr_m p (Build_shr_record m false false)). cbn. lia.
Qed.

Lemma round_nearest_even_bounds m l :
  m <= round_nearest_even m l <= m + 1.
Proof.
  destruct l as [|[| |]]; cbn; try lia. destruct (Z.even m); lia.
Qed.

Lemma round_aux_at_least M E mT eT :
  53 <= Zpos (digits2_pos M) ->
  2 ^ 52 <= mT < 2 ^ 53 ->
  -1000 <= eT ->
  -2000 <= E ->
  mT * 2 ^ (eT + 2000) <= Zpos M * 2 ^ (E + 2000) ->
  at_least mT eT (binary_round_aux prec emax false (Zpos M) E loc_Exact).
Proof.
  intros Hd HmT HeT HE Hv.
  destruct (digits2_bounds M) as [Hlo Hhi].
  set (d := Zpos (digits2_pos M)) in *.
  assert (Hde : 52 + eT < d + E).
  { assert (H : 2 ^ (52 + eT + 2000) < 2 ^ (d + E + 2000)).
    { replace (52 + eT + 2000) with (52 + (eT + 2000)) by lia.
      replace (d + E + 2000) with (d + (E + 2000)) by lia.
      rewrite (Z.pow_add_r 2 52 (eT + 2000)) by lia.
      rewrite (Z.pow_add_r 2 d (E + 2000)) by lia.
      assert (0 < 2 ^ (eT + 2000)) by (apply Z.pow_pos_nonneg; lia).
      assert (0 < 2 ^ (E + 2000)) by (apply Z.pow_pos_nonneg; lia).
      apply Z.le_lt_trans with (mT * 2 ^ (eT + 2000));
        [apply Z.mul_le_mono_nonneg_r; lia|].
      apply Z.le_lt_trans with (Zpos M * 2 ^ (E + 2000)); [exact Hv|].
      apply Z.mul_lt_mono_pos_r; lia. }
    apply Z.pow_lt_mono_r_iff in H; lia. }
  assert (HM : 0 < Zpos M) by lia.
  destruct (shr_fexp_exact (Zpos M) E HM) as [Hsame Hshift];
    [cbn [Zdigits2]; fold d; lia|].
  cbn [Zdigits2] in Hsame, Hshift. fold d in Hsame, Hshift.
  unfold binary_round_aux.
  destruct (shr_fexp prec emax (Zpos M) E loc_Exact) as [mrs1 e1] eqn:E1.
  cbn [fst snd] in Hshift.
  (* what the first shift leaves *)
  assert (H1 : 2 ^ 52 <= shr_m mrs1 < 2 ^ 53
               /\ e1 = d + E - 53
               /\ (e1 = eT -> mT <= shr_m mrs1)).
  { destruct (Z.eq_dec d 53) as [Heq|Hne].
    - specialize (Hsame ltac:(lia)). injection Hsame as -> ->. cbn [shr_m].
      rewrite Heq in *. split; [split; [lia|lia]|]. split; [lia|].
      intros HeE. subst eT.
      assert (0 < 2 ^ (E + 2000)) by (apply Z.pow_pos_nonneg; lia). nia.
    - destruct Hshift as [He1 Hm1]; [lia|]. rewrite Hm1, He1.
      assert (Hp : 0 < 2 ^ (d - 53)) by (apply Z.pow_pos_nonneg; lia).
      assert (Hpow : 2 ^ (d - 1) = 2 ^ 52 * 2 ^ (d - 53)).
      { rewrite <- Z.pow_add_r by lia. f_equal. lia. }
      assert (Hpow' : 2 ^ d = 2 ^ 53 * 2 ^ (d - 53)).
      { rewrite <- Z.pow_add_r by lia. f_equal. lia. }
      split; [split|split; [lia|]].
      + apply Z.div_le_lower_bound; [lia|]. lia.
      + apply Z.div_lt_upper_bound; [lia|]. lia.
      + intros HeE. apply Z.div_le_lower_bound; [lia|].
        assert (0 < 2 ^ (E + 2000)) by (apply Z.pow_pos_nonneg; lia).
        replace (eT + 2000) with ((d - 53) + (E + 2000)) in Hv by lia.
        rewrite Z.pow_add_r in Hv by lia. nia. }
  destruct H1 as (Hm1 & He1 & Hge).
  pose proof (round_nearest_even_bounds (shr_m mrs1)
                (loc_of_shr_record mrs1)) as Hr.
  set (m2 := round_nearest_even (shr_m mrs1) (loc_of_shr_record mrs1)) in *.
  destruct m2 as [|q|q] eqn:Eq2; try lia.
  destruct (Z.eq_dec (Zpos q) (2 ^ 53)) as [Hcarry|Hnc].
  - (* the rounding carries: one more shift *)
    assert (Hq : q = 9007199254740992%positive) by lia. subst q.
    destruct (shr_fexp_exact (Zpos 9007199254740992) e1) as [_ Hs2];
      [lia|change (Zdigits2 9007199254740992) with 54; lia|].
    change (Zdigits2 9007199254740992) with 54 in Hs2.
    destruct Hs2 as [He2 Hm2]; [lia|].
    destruct (shr_fexp prec emax 9007199254740992 e1 loc_Exact)
      as [mrs2 e2] eqn:E2.
    cbn [fst snd] in He2, Hm2. rewrite Hm2. change (54 - 53) with 1.
    change (9007199254740992 / 2 ^ 1) with 4503599627370496.
    destruct (e2 <=? emax - prec); [right|left; reflexivity].
    exists 4503599627370496%positive, e2. split; [reflexivity|].
    split; [lia|]. left. lia.
  - assert (Hq : 2 ^ 52 <= Zpos q < 2 ^ 53) by lia.
    pose proof (digits2_53 q Hq) as Hdq.
    destruct (shr_fexp_exact (Zpos q) e1) as [Hs2 _];
      [lia|cbn [Zdigits2]; lia|].
    rewrite Hs2 by (cbn [Zdigits2]; lia). cbn [shr_m].
    destruct (e1 <=? emax - prec); [right|left; reflexivity].
    exists q, e1. split; [reflexivity|]. split; [exact Hq|].
    destruct (Z.eq_dec e1 eT) as [HeE|HeE]; [right|left; lia].
    split; [exact HeE|]. specialize (Hge HeE). lia.
Qed.

Lemma digits2_ge m : 2 ^ 52 <= Zpos m -> 53 <= Zpos (digits2_pos m).
Proof.
  intros H. destruct (digits2_bounds m) as [_ H2].
  assert (Ha : 2 ^ 52 < 2 ^ Zpos (digits2_pos m)) by lia.
  apply Z.pow_lt_mono_r_iff in Ha; lia.
Qed.

Lemma iter_xO k : forall m, Zpos (Pos.iter xO m k) = Zpos m * 2 ^ Zpos k.
Proof.
  induction k as [|k IH] using Pos.peano_ind; intros m.
  - cbn [Pos.iter]. rewrite (Pos2Z.inj_xO m). change (2 ^ 1) with 2. lia.
  - rewrite Pos.iter_succ, (Pos2Z.inj_xO (Pos.iter xO m k)), IH.
    rewrite Pos2Z.inj_succ, Z.pow_succ_r by lia. lia.
Qed.

(** A double at least as large in the order of exponent and mantissa is at
    least as large in value. *)
Lemma value_ge mA eA mx ex K :
  mA < 2 ^ 53 -> 2 ^ 52 <= mx -> 0 <= eA + K ->
  eA < ex \/ (ex = eA /\ mA <= mx) ->
  mA * 2 ^ (eA + K) <= mx * 2 ^ (ex + K).
Proof.
  intros HmA Hmx HK [Hlt|[-> Hm]].
  - replace (ex + K) with ((ex - eA - 1) + (1 + (eA + K))) by lia.
    rewrite (Z.pow_add_r 2 (ex - eA - 1)) by lia.
    rewrite (Z.pow_add_r 2 1 (eA + K)) by lia. change (2 ^ 1) with 2.
    assert (HA : 0 < 2 ^ (eA + K)) by (apply Z.pow_pos_nonneg; lia).
    assert (HB : 0 < 2 ^ (ex - eA - 1)) by (apply Z.pow_pos_nonneg; lia).
    apply Z.le_trans with (2 ^ 53 * 2 ^ (eA + K)).
    + apply Z.mul_le_mono_nonneg_r; lia.
    + apply Z.le_trans with (2 ^ 52 * (1 * (2 * 2 ^ (eA + K)))); [lia|].
      apply Z.mul_le_mono_nonneg; try lia.
      apply Z.mul_le_mono_nonneg_r; lia.
  - apply Z.mul_le_mono_nonneg_r; [apply Z.pow_nonneg; lia|exact Hm].
Qed.

Lemma round_at_least m e mT eT :
  2 ^ 52 <= mT < 2 ^ 53 -> -1000 <= eT -> -1000 <= e ->
  mT * 2 ^ (eT + 2000) <= Zpos m * 2 ^ (e + 2000) ->
  at_least mT eT (binary_round prec emax false m e).
Proof.
  intros HmT HeT He Hv. unfold binary_round, shl_align, fexp, emin.
  destruct (digits2_bounds m) as [Hlo Hhi].
  set (d := Zpos (digits2_pos m)) in *.
  assert (Hd : 0 < d) by (unfold d; lia).
  replace (Z.max (d + e - prec) (3 - emax - prec)) with (d + e - 53)
    by (unfold prec, emax; lia).
  destruct (d + e - 53 - e) as [|k|k] eqn:Ek.
  - apply round_aux_at_least; try assumption; fold d; lia.
  - apply round_aux_at_least; try assumption; fold d; lia.
  - assert (Hk : Zpos k = 53 - d) by lia.
    apply round_aux_at_least; try assumption; try lia.
    + apply digits2_ge. rewrite iter_xO.
      replace (2 ^ 52) with (2 ^ (d - 1) * 2 ^ Zpos k)
        by (rewrite <- Z.pow_add_r by lia; f_equal; lia).
      apply Z.mul_le_mono_nonneg_r; [apply Z.pow_nonneg; lia|exact Hlo].
    + rewrite iter_xO.
      replace (e + 2000) with (Zpos k + (d + e - 53 + 2000)) in Hv by lia.
      rewrite (Z.pow_add_r 2 (Zpos k)) in Hv by lia.
      rewrite Z.mul_assoc in Hv. exact Hv.
Qed.

Lemma of_Z_at_least z mT eT :
  0 < z -> 2 ^ 52 <= mT < 2 ^ 53 -> -1000 <= eT ->
  mT * 2 ^ (eT + 2000) <= z * 2 ^ 2000 ->
  at_least mT eT (of_Z z).
Proof.
  intros Hz HmT HeT Hv. destruct z as [|p|p]; try lia.
  unfold of_Z, binary_normalize. apply round_at_least; try assumption; lia.
Qed.

Lemma mul_at_least x mA eA mY eY mT eT :
  at_least mA eA x ->
  mA < 2 ^ 53 -> -1000 <= eT -> -1000 <= eA + eY ->
  2 ^ 52 <= mT < 2 ^ 53 ->
  mT * 2 ^ (eT + 2000) <= mA * Zpos mY * 2 ^ (eA + eY + 2000) ->
  at_least mT eT (mul x (S754_finite false mY eY)).
Proof.
  intros [->|(mx & ex & -> & Hmx & Hord)] HmA HeT HeA HmT Hc.
  - left. reflexivity.
  - unfold mul, SFmul. cbn [xorb].
    assert (Hex : eA <= ex) by lia.
    apply round_aux_at_least; try assumption; try lia.
    + apply digits2_ge. rewrite Pos2Z.inj_mul.
      apply Z.le_trans with (Zpos mx * 1); [lia|].
      apply Z.mul_le_mono_nonneg_l; lia.
    + pose proof (value_ge mA eA (Zpos mx) ex (eY + 2000) HmA
                    ltac:(lia) ltac:(lia) Hord) as Hge.
      replace (eA + (eY + 2000)) with (eA + eY + 2000) in Hge by lia.
      replace (ex + (eY + 2000)) with (ex + eY + 2000) in Hge by lia.
      apply Z.le_trans with (1 := Hc). rewrite Pos2Z.inj_mul.
      replace (mA * Zpos mY * 2 ^ (eA + eY + 2000))
        with (Zpos mY * (mA * 2 ^ (eA + eY + 2000))) by ring.
      replace (Zpos mx * Zpos mY * 2 ^ (ex + eY + 2000))
        with (Zpos mY * (Zpos mx * 2 ^ (ex + eY + 2000))) by ring.
      apply Z.mul_le_mono_nonneg_l; [lia|exact Hge].
Qed.

Lemma shl_align_value m e e' :
  e' <= e ->
  Zpos (fst (shl_align m e e')) * 2 ^ (e' + 2000) = Zpos m * 2 ^ (e + 2000)
  \/ e' + 2000 < 0.
Proof.
  intros H. destruct (Z_lt_dec (e' + 2000) 0) as [Hn|Hn]; [right; exact Hn|].
  left. unfold shl_align. destruct (e' - e) as [|k|k] eqn:Ek; cbn [fst].
  - replace e' with e by lia. reflexivity.
  - lia.
  - rewrite iter_xO. replace (e + 2000) with (Zpos k + (e' + 2000)) by lia.
    rewrite (Z.pow_add_r 2 (Zpos k)) by lia. ring.
Qed.

Lemma add_at_least x mA eA mY eY mT eT :
  at_least mA eA x ->
  mA < 2 ^ 53 -> -1000 <= eT -> -1000 <= eA -> -1000 <= eY ->
  2 ^ 52 <= mT < 2 ^ 53 ->
  mT * 2 ^ (eT + 2000) <= mA * 2 ^ (eA + 2000) + Zpos mY * 2 ^ (eY + 2000) ->
  at_least mT eT (add x (S754_finite false mY eY)).
Proof.
  intros [->|(mx & ex & -> & Hmx & Hord)] HmA HeT HeA HeY HmT Hc.
  - left. reflexivity.
  - unfold add, SFadd. cbn [cond_Zopp]. cbn zeta.
    assert (Hex : eA <= ex) by lia.
    set (ez := Z.min ex eY).
    destruct (shl_align_value mx ex ez) as [Hx|Hx]; [lia| |lia].
    destruct (shl_align_value mY eY ez) as [Hy|Hy]; [lia| |lia].
    change (Zpos (fst (shl_align mx ex ez)) + Zpos (fst (shl_align mY eY ez)))
      with (Zpos (fst (shl_align mx ex ez) + fst (shl_align mY eY ez))).
    unfold binary_normalize. apply round_at_least; try assumption; try lia.
    rewrite Pos2Z.inj_add, Z.mul_add_distr_r, Hx, Hy.
    apply Z.le_trans with (1 := Hc). apply Z.add_le_mono_r.
    apply (value_ge mA eA (Zpos mx) ex 2000); try lia.
Qed.

Lemma max_at_least x mA eA mY eY :
  at_least mA eA x -> eY < eA ->
  Math_max x (S754_finite false mY eY) = x.
Proof.
  intros [->|(mx & ex & -> & Hmx & Hord)] He; [reflexivity|].
  unfold Math_max, SFcompare.
  assert (Hc : (ex ?= eY) = Gt) by (apply Z.compare_gt_iff; lia).
  rewrite Hc. reflexivity.
Qed.

Lemma min_at_least x mY eY :
  at_least (Zpos mY) eY x ->
  Math_min x (S754_finite false mY eY) = S754_finite false mY eY.
Proof.
  intros [->|(mx & ex & -> & Hmx & [Hlt|[-> Hm]])]; [reflexivity| |].
  - unfold Math_min, SFcompare.
    assert (Hc : (ex ?= eY) = Gt) by (apply Z.compare_gt_iff; lia).
    rewrite Hc. reflexivity.
  - unfold Math_min, SFcompare. rewrite Z.compare_refl.
    change (PosDef.Pos.compare_cont Eq mx mY) with (Pos.compare mx mY).
    destruct (Pos.compare mx mY) eqn:Hc; try reflexivity.
    + apply Pos.compare_eq_iff in Hc. subst mx. reflexivity.
    + exfalso. pose proof (Pos2Z.pos_lt_pos mx mY Hc). lia.
Qed.


Lemma same_eq x y : same x y = true -> x = y.
Proof.
  destruct x as [s|s| |s m e], y as [s'|s'| |s' m' e']; cbn; try discriminate.
  - intros H. apply eqb_prop in H. congruence.
  - intros H. apply eqb_prop in H. congruence.
  - intros H. apply andb_true_iff in H as [H He].
    apply andb_true_iff in H as [Hs Hm].
    apply eqb_prop in Hs. apply Pos.eqb_eq in Hm. apply Z.eqb_eq in He.
    congruence.
Qed.

(** From 1150 code units on, [text.length * 0.1 + 5] is at least 120. *)
Lemma long_text_sum n :
  (1150 <= n)%nat ->
  at_least (120 * 2 ^ 46) (-46)
    (add (mul (of_Z (Z.of_nat n)) tenth) (of_Z 5)).
Proof.
  intros Hn.
  assert (H0 : at_least (1150 * 2 ^ 42) (-42) (of_Z (Z.of_nat n))).
  { apply of_Z_at_least; lia. }
  assert (H1 : at_least (115 * 2 ^ 46) (-46) (mul (of_Z (Z.of_nat n)) tenth)).
  { unfold tenth. apply (mul_at_least _ _ _ _ _ _ _ H0); try lia;
      apply Z.leb_le; vm_compute; reflexivity. }
  change (of_Z 5) with (S754_finite false 5629499534213120 (-50)).
  apply (add_at_least _ _ _ _ _ _ _ H1); try lia;
    apply Z.leb_le; vm_compute; reflexivity.
Qed.

Lemma long_text_timeout n :
  (1150 <= n)%nat ->
  timeout_of n = of_Z 120000 /\ clamped_of n = of_Z 120000.
Proof.
  intros Hn. pose proof (long_text_sum n Hn) as Ha.
  unfold timeout_of, estimate, clamped_of, clamp.
  set (a := add (mul (of_Z (Z.of_nat n)) tenth) (of_Z 5)) in *.
  change (of_Z 30) with (S754_finite false 8444249301319680 (-48)).
  rewrite (max_at_least a _ _ _ _ Ha) by lia. split.
  - change (of_Z 1000) with (S754_finite false 8796093022208000 (-43)).
    change (of_Z 120000) with (S754_finite false 8246337208320000 (-36)).
    apply min_at_least.
    apply (mul_at_least _ _ _ _ _ _ _ Ha); try lia;
      apply Z.leb_le; vm_compute; reflexivity.
  - change (of_Z 120) with (S754_finite false 8444249301319680 (-46)).
    rewrite min_at_least by exact Ha. vm_compute. reflexivity.
Qed.

Lemma long_text_exact n :
  (1150 <= n)%nat -> (exact_timeout n == 120000)%Q.
Proof.
  intros Hn. unfold exact_timeout.
  assert (Hq : (1150 <= inject_Z (Z.of_nat n))%Q).
  { change 1150%Q with (inject_Z 1150). rewrite <- Zle_Qle. lia. }
  rewrite Q.max_l by lra. rewrite Q.min_r by lra. reflexivity.
Qed.

(** The texts below 1150 code units, one by one. *)
Lemma short_texts : forallb checked (seq 0 1150) = true.
Proof. vm_compute. reflexivity. Qed.

Lemma timeout_of_spec n :
  timeout_of n = clamped_of n
  /\ finite (timeout_of n) = true
  /\ (30000 <= value (timeout_of n) <= 120000)%Q
  /\ (Qabs (value (timeout_of n) - exact_timeout n) <= 1 # 2 ^ 36)%Q.
Proof.
  destruct (lt_dec n 1150) as [Hlt|Hge].
  - pose proof short_texts as H. rewrite forallb_forall in H.
    specialize (H n ltac:(apply in_seq; lia)). unfold checked in H.
    repeat (apply andb_true_iff in H as [H ?]).
    apply same_eq in H.
    repeat match goal with
           | Hq : Qle_bool _ _ = true |- _ => apply Qle_bool_iff in Hq
           end.
    repeat split; assumption.
  - destruct (long_text_timeout n ltac:(lia)) as [Ht Hc].
    rewrite Ht, Hc. split; [reflexivity|]. split; [reflexivity|].
    rewrite (long_text_exact n ltac:(lia)).
    repeat split; apply Qle_bool_iff; vm_compute; reflexivity.
Qed.

(** C8: for every text, the timeout that [speakText] computes is the clamp
    of [0.1 * length + 5] seconds between 30 and 120 seconds, in
    milliseconds and in the arithmetic of the source (doubles, on the
    number of UTF-16 code units of the text); it is a finite number, never
    below 30 s and never above 120 s, and it differs from the same clamp in
    exact arithmetic by [2^-36] ms at most. *)
Theorem speak_timeout_clamped text :
  let n := text_length text in
  timeoutDuration text
  = mul (clamp (add (mul (of_Z (Z.of_nat n)) tenth) (of_Z 5))
               (of_Z 30) (of_Z 120))
        (of_Z 1000)
  /\ finite (timeoutDuration text) = true
  /\ (30000 <= value (timeoutDuration text) <= 120000)%Q
  /\ (Qabs (value (timeoutDuration text) - exact_timeout n) <= 1 # 2 ^ 36)%Q.
Proof. intros n. exact (timeout_of_spec n). Qed.

(** The literal [0.1] is one tenth, rounded. *)
Example tenth_is_rounded : tenth = SFdiv prec emax (of_Z 1) (of_Z 10).
Proof. vm_compute. reflexivity. Qed.

Example timeout_of_short_text :
  timeoutDuration "Processing..." = of_Z 30000.
Proof. vm_compute. reflexivity. Qed.

Example timeout_of_tutorial_length :
  estimatedDuration (letters 480) = of_Z 53000.
Proof. vm_compute. reflexivity. Qed.

(** At 252 code units the rounding shows: 30200.000000000004 ms, which is
    [2^-38] ms above the exact 30200. *)
Example timeout_of_252 :
  timeoutDuration (letters 252) = S754_finite false 8301312789708801 (-38)
  /\ (value (timeoutDuration (letters 252)) == 30200 + (1 # 2 ^ 38))%Q.
Proof. split; vm_compute; reflexivity. Qed.

(** The two bytes of an accented letter are one code unit, the four bytes
    of a character beyond the basic plane are two. *)
Example length_in_code_units :
  text_length (String (ascii_of_nat 195) (String (ascii_of_nat 169) ""))
  = 1%nat
  /\ text_length
       (String (ascii_of_nat 240)
          (String (ascii_of_nat 159)
             (String (ascii_of_nat 152) (String (ascii_of_nat 128) ""))))
     = 2%nat.
Proof. split; reflexivity. Qed.

End TimeoutFacts.

(** ** Speech synthesis *)

Import Speech.

(** No function of the module ever assigns a sound to [currentSound]: it
    is [null] when the module is loaded and stays so. *)
Lemma cancelSpeakText_idle st :
  currentSound st = None -> cancelSpeakText st = st.
Proof. unfold cancelSpeakText. intros ->. reflexivity. Qed.

Lemma speakText_catch_idle e st :
  currentSound st = None -> speakText_catch e st = st.
Proof.
  intros H. unfold speakText_catch.
  destruct (includes _ _); [apply cancelSpeakText_idle, H|reflexivity].
Qed.

Lemma step_currentSound c st :
  currentSound st = None -> currentSound (step c st) = None.
Proof.
  intros H. destruct c as [|what env|id finished]; cbn [step].
  - rewrite cancelSpeakText_idle; assumption.
  - unfold speakText_begin. rewrite cancelSpeakText_idle by assumption.
    destruct (fetched env) as [[ok n]|e]; cbn [fst].
    + destruct ok; cbn [negb];
        [|rewrite speakText_catch_idle; assumption].
      destruct (n =? 0)%nat; [rewrite speakText_catch_idle; assumption|].
      destruct (written env); cbn [negb fst];
        [exact H|rewrite speakText_catch_idle; [exact H|exact H]].
    + rewrite speakText_catch_idle; assumption.
  - unfold speakText_end. destruct finished; cbn [fst]; [exact H|].
    rewrite speakText_catch_idle; exact H.
Qed.

Lemma run_currentSound cs : forall st,
  currentSound st = None -> currentSound (run cs st) = None.
Proof.
  induction cs as [|c cs IH]; intros st H; [exact H|].
  apply IH, step_currentSound, H.
Qed.

(** Whatever was called before, the cancellation that opens [speakText]
    (and any other call of [cancelSpeakText]) changes nothing: what was
    audible stays audible. *)
Lemma cancel_never_stops cs :
  cancelSpeakText (run cs initial) = run cs initial.
Proof. apply cancelSpeakText_idle, run_currentSound. reflexivity. Qed.

(** C6 on the source: after [speakText("A")] has started its clip, a call
    of [speakText("B")] leaves "A" loaded and playing and starts "B" next
    to it: two clips are audible at once. *)
Theorem speak_twice_overlaps :
  let st := run [Begin "A" synthesises; Begin "B" synthesises] initial in
  audible st = ["A"; "B"]
  /\ loaded st = [mkSound 0 "A" true; mkSound 1 "B" true]
  /\ currentSound st = None.
Proof. repeat split. Qed.

(** ** The audio queue *)

Section QueueFacts.

Import Queue.

Context {job : Type}.

Lemma run_serial_fifo (ins : list (input job)) :
  forall st,
    consistent st ->
    serial (awaited st) (snd (run ins st))
    /\ started (snd (run ins st)) ++ audioQueue (fst (run ins st))
       = audioQueue st ++ enqueued ins
    /\ consistent (fst (run ins st)).
Proof.
  induction ins as [|i ins IH]; intros [q p a] [Hflag Hidle]; cbn [run].
  - cbn. rewrite app_nil_r. repeat split; try apply Hflag; assumption.
  - cbn [audioQueue isPlayingAudio awaited] in *.
    destruct i as [j|ok]; cbn [step enqueued].
    + unfold queueAudio, playNextInQueue.
      cbn [audioQueue isPlayingAudio awaited].
      rewrite length_app, Nat.add_1_r. cbn [Nat.eqb]. rewrite orb_false_r.
      destruct p.
      * specialize (IH (mkState (q ++ [j]) true a)).
        destruct IH as (Hs & Hf & Hc).
        { split; [exact Hflag|intros; discriminate]. }
        destruct (run ins (mkState (q ++ [j]) true a)) as [st2 log].
        cbn [fst snd app audioQueue awaited] in *.
        rewrite Hf, <- app_assoc. repeat split; try apply Hc. exact Hs.
      * rewrite (Hidle eq_refl) in *. cbn [app].
        assert (a = None) as ->.
        { destruct a as [x|]; [|reflexivity].
          assert (false = true) by (apply Hflag; discriminate). discriminate. }
        specialize (IH (mkState [] true (Some j))).
        destruct IH as (Hs & Hf & Hc).
        { split; [split; [discriminate|reflexivity]|intros; discriminate]. }
        destruct (run ins (mkState [] true (Some j))) as [st2 log].
        cbn [fst snd app audioQueue awaited started serial] in *.
        rewrite Hf. repeat split; try apply Hc. exact Hs.
    + unfold resume. cbn [awaited audioQueue].
      destruct a as [j|].
      * unfold playNextInQueue. cbn [audioQueue isPlayingAudio awaited orb].
        destruct q as [|n rest]; cbn [length Nat.eqb].
        -- specialize (IH (mkState [] false None)).
           destruct IH as (Hs & Hf & Hc).
           { split; [split; [discriminate|intros H; contradiction]|reflexivity]. }
           destruct (run ins (mkState [] false None)) as [st2 log].
           cbn [fst snd app audioQueue awaited started serial] in *.
           rewrite Hf. repeat split; try apply Hc. exact Hs.
        -- specialize (IH (mkState rest true (Some n))).
           destruct IH as (Hs & Hf & Hc).
           { split; [split; [discriminate|reflexivity]|intros; discriminate]. }
           destruct (run ins (mkState rest true (Some n))) as [st2 log].
           cbn [fst snd app audioQueue awaited started serial] in *.
           rewrite Hf. repeat split; try apply Hc. exact Hs.
      * specialize (IH (mkState q p None)).
        destruct IH as (Hs & Hf & Hc).
        { split; assumption. }
        destruct (run ins (mkState q p None)) as [st2 log].
        cbn [fst snd app audioQueue awaited] in *.
        repeat split; try apply Hc; assumption.
Qed.

(** C7: whatever is enqueued and whenever the jobs settle, a queue that
    starts idle runs its jobs one at a time (a job starts only after the
    one before it has settled) and in arrival order, and never sits idle
    on a job that waits; jobs J1, J2, J3 enqueued while it is idle run as
    J1, J2, J3, each to its end, whether they are fulfilled or fail. *)
Theorem queue_serial_fifo (ins : list (input job)) (J1 J2 J3 : job)
        (o1 o2 o3 : bool) :
  serial None (snd (run ins idle))
  /\ started (snd (run ins idle)) ++ audioQueue (fst (run ins idle))
     = enqueued ins
  /\ (isPlayingAudio (fst (run ins idle)) = false ->
      audioQueue (fst (run ins idle)) = [])
  /\ snd (run [Enqueue J1; Enqueue J2; Enqueue J3;
               Settle o1; Settle o2; Settle o3] idle)
     = [Started J1; Settled J1 o1; Started J2; Settled J2 o2;
        Started J3; Settled J3 o3].
Proof.
  destruct (run_serial_fifo ins idle) as (Hs & Hf & Hc).
  { split; [split; [discriminate|intros H; contradiction]|reflexivity]. }
  repeat split; try assumption. apply Hc.
Qed.

End QueueFacts.

(** ** The capture pipeline of the Detect screen *)

Section DetectFacts.

Import Detect.

Lemma stale_effects_app e l1 l2 :
  stale_effects e (l1 ++ l2) = stale_effects e l1 ++ stale_effects e l2.
Proof. apply filter_app. Qed.

Lemma safe_weaken {A} e (P P' : refs -> Prop) (m : M A)
      (Q Q' : A -> refs -> Prop) :
  safe e P m Q ->
  (forall r, P' r -> P r) ->
  (forall a r, Q a r -> Q' a r) ->
  safe e P' m Q'.
Proof.
  intros H HP HQ r Hr. destruct (H r (HP r Hr)) as [Hl Hc]. split; [exact Hl|].
  destruct (snd (m r)); auto.
Qed.

Lemma safe_ret {A} e (P : refs -> Prop) (a : A) :
  safe e P (ret a) (fun _ => P).
Proof. intros r Hr. split; [reflexivity|exact Hr]. Qed.

Lemma safe_return {A} e P (Q : A -> refs -> Prop) : safe e P return_ Q.
Proof. intros r Hr. split; [reflexivity|exact I]. Qed.

Lemma safe_throw {A} e P err (Q : A -> refs -> Prop) : safe e P (throw err) Q.
Proof. intros r Hr. split; [reflexivity|exact I]. Qed.

Lemma safe_bind {A B} e P (m : M A) Q (k : A -> M B) R :
  safe e P m Q ->
  (forall a, safe e (Q a) (k a) R) ->
  safe e P (bind m k) R.
Proof.
  intros Hm Hk r Hr. destruct (Hm r Hr) as [Hl Hc]. unfold bind.
  destruct (m r) as [[l1 r1] c]. cbn [fst snd] in *.
  destruct c as [a| |err]; try (split; [exact Hl|exact I]).
  destruct (Hk a r1 Hc) as [Hl2 Hc2].
  destruct (k a r1) as [[l2 r2] c2]. cbn [fst snd] in *.
  rewrite stale_effects_app, Hl, Hl2. split; [reflexivity|exact Hc2].
Qed.

Lemma safe_get e (P : refs -> Prop) :
  safe e P get (fun r0 r => r0 = r /\ P r).
Proof. intros r Hr. split; [reflexivity|]. split; [reflexivity|exact Hr]. Qed.

Lemma safe_modify e (P : refs -> Prop) f (Q : unit -> refs -> Prop) :
  (forall r, P r -> Q tt (f r)) -> safe e P (modify f) Q.
Proof. intros H r Hr. split; [reflexivity|apply H, Hr]. Qed.

(** An effect that is neither an update of the display nor speech may be
    performed under any session. *)
Lemma safe_perform_silent e (P : refs -> Prop) x :
  is_ui x || is_speech x = false ->
  safe e P (perform x) (fun _ => P).
Proof.
  intros Hx r Hr. split; [|exact Hr].
  cbn. rewrite Hx, andb_false_r. reflexivity.
Qed.

(** Any effect may be performed while the session is current. *)
Lemma safe_perform_current e x :
  safe e (current e) (perform x) (fun _ => current e).
Proof.
  intros r Hr. split; [|exact Hr].
  cbn. unfold current in Hr. rewrite Hr, Nat.eqb_refl. reflexivity.
Qed.

(** A suspension performs nothing; with no focus change the refs are as
    they were, else nothing is known of them. *)
Lemma safe_suspend_still e (P : refs -> Prop) sch s :
  focus_changes sch s = [] ->
  safe e P (suspend sch s) (fun _ => P).
Proof. intros H r Hr. unfold suspend, modify. rewrite H. split; [reflexivity|exact Hr]. Qed.

Lemma safe_suspend e (P : refs -> Prop) sch s :
  safe e P (suspend sch s) (fun _ => anyhow).
Proof. intros r Hr. split; [reflexivity|exact I]. Qed.

Lemma safe_await e (P : refs -> Prop) sch s :
  safe e P (await sch s) (fun _ => anyhow).
Proof.
  unfold await. eapply safe_bind; [apply safe_suspend|]. intros ?.
  destruct (rejects sch s); [apply safe_throw|apply safe_ret].
Qed.

(** The test of the session, followed by the early return: what comes
    after runs with the session current. *)
Lemma safe_stale_test e (P : refs -> Prop) :
  safe e P (stale_test e) (fun old r => old = false -> current e r).
Proof.
  intros r Hr. split; [reflexivity|]. cbn. intros H.
  apply negb_false_iff, Nat.eqb_eq in H. exact H.
Qed.

Lemma safe_guard {A} e (P : refs -> Prop) n (k : M A) Q :
  n = e ->
  safe e (current e) k Q ->
  safe e P (bind (stale_test n) (fun old => if old then return_ else k)) Q.
Proof.
  intros Hn Hk. subst n. eapply safe_bind; [apply safe_stale_test|].
  intros [|]; [apply safe_return|].
  eapply safe_weaken; [exact Hk| |]; auto.
Qed.

Lemma safe_try_catch_finally {A} e (P : refs -> Prop) (body : M A) handler
      finalizer Q Q' Q'' :
  safe e P body Q ->
  (forall err, safe e anyhow (handler err) Q') ->
  safe e anyhow finalizer Q'' ->
  safe e P (try_catch_finally body handler finalizer) (fun _ => anyhow).
Proof.
  intros Hb Hh Hf r Hr. unfold try_catch_finally.
  destruct (Hb r Hr) as [Hl1 _].
  destruct (body r) as [[l1 r1] c1]. cbn [fst snd] in *.
  assert (H2 : stale_effects e
                 (fst (fst match c1 with
                           | Throw err => handler err r1
                           | _ => ([], r1, c1)
                           end)) = []).
  { destruct c1 as [a| |err]; try reflexivity. apply (Hh err r1 I). }
  destruct (match c1 with
            | Throw err => handler err r1
            | _ => ([], r1, c1)
            end) as [[l2 r2] c2]. cbn [fst snd] in *.
  destruct (Hf r2 I) as [Hl3 _].
  destruct (finalizer r2) as [[l3 r3] c3]. cbn [fst snd] in *.
  rewrite !stale_effects_app, Hl1, H2, Hl3. split; [reflexivity|].
  destruct c3; destruct c2; exact I.
Qed.

(** [stopLoadingSound] performs nothing that shows; it keeps the session
    when no focus change happens while it waits. *)
Lemma safe_stopLoadingSound_still e (P : refs -> Prop) sch s :
  (forall r b, P r -> P (set_loadingSound b r)) ->
  (forall w, focus_changes sch (s w) = []) ->
  safe e P (stopLoadingSound sch s) (fun _ => P).
Proof.
  intros HP Hs r Hr.
  cbv [stopLoadingSound bind Detect.get try_catch_finally await suspend
       modify on_loadingSound perform ret throw].
  rewrite !Hs. cbn [fold_left].
  destruct (loadingSound r) eqn:Hl; [|split; [reflexivity|exact Hr]].
  destruct (rejects sch (s GetStatus)), (isLoaded sch),
           (rejects sch (s StopAsync)), (rejects sch (s UnloadAsync));
    cbn; rewrite ?Hl; cbn; rewrite ?andb_false_r; cbn;
    (split; [reflexivity|apply HP, Hr]).
Qed.

Lemma safe_assume {A} e (P : refs -> Prop) (phi : Prop) (m : M A) Q :
  (forall r, P r -> phi) -> (phi -> safe e P m Q) -> safe e P m Q.
Proof. intros H1 H2 r Hr. exact (H2 (H1 r Hr) r Hr). Qed.

Lemma safe_forget {A} e (P : refs -> Prop) (m : M A) Q :
  safe e P m Q -> safe e P m (fun _ => anyhow).
Proof.
  intros H r Hr. destruct (H r Hr) as [Hl _]. split; [exact Hl|].
  destruct (snd (m r)); exact I.
Qed.

Lemma safe_modify_current e f :
  (forall r, sessionId (f r) = sessionId r) ->
  safe e (current e) (modify f) (fun _ => current e).
Proof.
  intros H. apply safe_modify. intros r Hr. unfold current. rewrite H.
  exact Hr.
Qed.

Lemma safe_modify_anyhow e (P : refs -> Prop) f :
  safe e P (modify f) (fun _ => anyhow).
Proof. apply safe_modify. intros; exact I. Qed.

Lemma safe_get_keep e (P : refs -> Prop) : safe e P Detect.get (fun _ => P).
Proof. intros r Hr. split; [reflexivity|exact Hr]. Qed.

(** One statement of a block. *)
Ltac safe_atom :=
  first
    [ apply safe_perform_current
    | apply safe_perform_silent; reflexivity
    | apply safe_suspend_still; assumption
    | apply safe_stopLoadingSound_still; [intros ? ? H; exact H | assumption]
    | apply safe_await
    | apply safe_suspend
    | apply safe_modify_current; intros; reflexivity
    | apply safe_modify_anyhow
    | apply safe_get_keep
    | apply safe_return
    | apply safe_throw
    | apply safe_ret ].

(** A sequence of statements, down to the first branch or the last
    statement. *)
Ltac safe_seq :=
  repeat (cbv beta;
          lazymatch goal with
          | |- safe _ _ (bind (stale_test _) _) _ =>
              apply safe_guard; [assumption|]
          | |- safe _ _ (bind _ _) _ =>
              eapply safe_bind; [solve [safe_atom]|intros ?]
          end).

(** What the session tests of [takePhoto] achieve: when no focus change is
    handled while it waits for the loading cue to stop (in the [try] or in
    the [catch] block) or during the 500 ms pause, every update of the
    display and every speech of the call is performed under the session
    the call started in.  In particular a focus change during the capture
    or during the detection request is caught by the test that follows. *)
Lemma takePhoto_safe c sch e :
  (forall w, focus_changes sch (StopLoading w) = []) ->
  focus_changes sch Pause500 = [] ->
  (forall w, focus_changes sch (StopLoadingCatch w) = []) ->
  safe e (current e) (takePhoto c sch) (fun _ => anyhow).
Proof.
  intros H1 H2 H3. unfold takePhoto.
  eapply safe_bind; [apply safe_get|]. intros r0. cbv beta.
  apply (safe_assume e _ (sessionId r0 = e)); [intros r [-> H]; exact H|].
  intros He.
  eapply safe_weaken with (P := current e) (Q := fun _ => anyhow);
    [|intros r [_ H]; exact H|auto].
  destruct (_ <? _)%Z; [apply safe_return|].
  destruct (_ || _); [apply safe_return|].
  apply safe_try_catch_finally
    with (Q := fun _ => anyhow) (Q' := fun _ => anyhow) (Q'' := fun _ => anyhow);
    unfold takePhoto_try, takePhoto_catch, takePhoto_finally; cbv zeta.
  - safe_seq. destruct (photo sch) as [uri|]; [|apply safe_throw].
    destruct (negb (truthy uri)); [apply safe_throw|].
    safe_seq.
    eapply safe_bind with (Q := fun _ => anyhow).
    { destruct (isFocused c); [|eapply safe_forget; apply safe_ret].
      safe_seq. apply safe_await. }
    intros ?. safe_seq. apply safe_modify_anyhow.
  - intros err. safe_seq. apply safe_await.
  - safe_seq. eapply safe_forget. apply safe_perform_current.
Qed.

Lemma takePhoto_discards_stale c sch r :
  (forall w, focus_changes sch (StopLoading w) = []) ->
  focus_changes sch Pause500 = [] ->
  (forall w, focus_changes sch (StopLoadingCatch w) = []) ->
  stale_effects (sessionId r) (fst (fst (takePhoto c sch r))) = [].
Proof.
  intros H1 H2 H3.
  exact (proj1 (takePhoto_safe c sch (sessionId r) H1 H2 H3 r eq_refl)).
Qed.

(** C5 on the source: [takePhoto] tests the session right after the
    detection request, and then waits for the loading cue to stop and for
    500 ms without testing it again.  When the user leaves the screen
    during the first wait, the result is displayed and spoken under the
    new session; during the second, it is spoken under the new session. *)
Theorem takePhoto_applies_stale_result :
  stale_effects 1
    (fst (fst (takePhoto fresh_closure (smooth leaves_during_stop "cat, dog")
                         focused_refs)))
  = [(2, SetDetectionResults "cat, dog"); (2, SpeakText "cat, dog")]
  /\ stale_effects 1
       (fst (fst (takePhoto fresh_closure (smooth leaves_during_pause "cat, dog")
                            focused_refs)))
     = [(2, SpeakText "cat, dog")]
  /\ stale_effects 1
       (fst (fst (takePhoto fresh_closure (smooth leaves_during_detection "cat, dog")
                            focused_refs)))
     = [].
Proof. repeat split. Qed.

End DetectFacts.

(** ** The voice question of the Describe screen *)

Section DescribeFacts.

Import Describe.

Lemma stops_app l1 l2 : stops (l1 ++ l2) = stops l1 + stops l2.
Proof. unfold stops. rewrite filter_app, length_app. reflexivity. Qed.


Lemma run_cons e evs st :
  run (e :: evs) st
  = (fst (run evs (fst (step e st))),
     snd (step e st) ++ snd (run evs (fst (step e st)))).
Proof.
  cbn [run]. destruct (step e st) as [st1 effs]. cbn [fst snd].
  destruct (run evs st1); reflexivity.
Qed.










(** [onFinalize] while the recording runs, before or after the tenth
    second: the stop is invoked, once. *)
Lemma finalize_counting rec photo n :
  step Finalize (counting n rec photo)
  = (stopping_state rec photo, [StopAndUnload rec]).
Proof. reflexivity. Qed.

Lemma finalize_expired rec photo :
  step Finalize (expired rec photo)
  = (stopping_state rec photo, [StopAndUnload rec]).
Proof. reflexivity. Qed.





(** The countdown and the timeout alone stop nothing. *)
Example timers_stop_nothing :
  snd (run (repeat Tick 10 ++ [TimeoutFires; Tick])
           (listening 7 "photo.jpg")) = [].
Proof. reflexivity. Qed.



End DescribeFacts.

(** * Further properties *)

(** ** The retrying client on every input *)

Section RetryFacts.

Import Retry.

(** Whatever holds of the fallback, of the two ways a policy ends on an
    abort and of every answer it returns on, holds of the result. *)
Lemma retry_loop_result p (P : result -> Prop) :
  P (Returned FALLBACK_MESSAGE) ->
  P (abort_seen p) ->
  (forall e, is_abort p e = true -> P (abort_caught p e)) ->
  (forall d res, on_data p d = Some res -> P res) ->
  forall fuel k s w, P (snd (retry_loop p fuel k s w)).
Proof.
  intros Hf Hs Hc Hd. induction fuel as [|fuel IH]; intros k s w; simpl.
  - exact Hf.
  - destruct (aborted s); [exact Hs|].
    destruct (request p s (w k)) as [[tr s1] [data|e]].
    + destruct (on_data p data) as [res|] eqn:E; [exact (Hd _ _ E)|].
      specialize (IH (S k) s1 w).
      destruct (retry_loop p fuel (S k) s1 w) as [t' res]. exact IH.
    + destruct (is_abort p e) eqn:E; [exact (Hc _ E)|].
      destruct (k <? MAX_RETRIES)%nat; [|exact Hf].
      destruct (aborted s1); [exact Hs|].
      specialize (IH (S k) (fire s1 (abort_during_sleep (w k))) w).
      destruct (retry_loop p fuel (S k) _ w) as [t' res]. exact IH.
Qed.

Lemma run_result op uri (P : result -> Prop) :
  P (Returned FALLBACK_MESSAGE) ->
  P (abort_seen (policy_of op uri)) ->
  (forall e, is_abort (policy_of op uri) e = true ->
             P (abort_caught (policy_of op uri) e)) ->
  (forall d res, on_data (policy_of op uri) d = Some res -> P res) ->
  forall s w, P (snd (Api.run op uri s w)).
Proof.
  intros Hf Hs Hc Hd s w. rewrite run_retry. unfold retry.
  destruct (aborted s); [exact Hs|].
  pose proof (retry_loop_result _ P Hf Hs Hc Hd MAX_RETRIES 1 s w) as H.
  destruct (retry_loop (policy_of op uri) MAX_RETRIES 1 s w). exact H.
Qed.

Lemma truthy_field_truthy data f c :
  truthy_field data f = Some c -> truthy c = true.
Proof.
  unfold truthy_field. destruct data as [r|]; [|discriminate].
  destruct (f r) as [s|]; [|discriminate].
  destruct (truthy s) eqn:E; [|discriminate]. intros H.
  injection H as <-. exact E.
Qed.

(** What a call of the transcription loop can end with. *)
Lemma transcription_loop_result audioUri fuel : forall k s w,
  let res := snd (transcription_loop fuel k audioUri s w) in
  res = Returned ""
  \/ res = Returned FALLBACK_MESSAGE
  \/ exists j data c,
       k <= j < k + fuel
       /\ post (w j) = Resolved data
       /\ truthy_field data text = Some c
       /\ res = Returned c.
Proof.
  induction fuel as [|fuel IH]; intros k s w; cbn [transcription_loop].
  - right. left. reflexivity.
  - destruct (aborted s); [left; reflexivity|].
    destruct (post (w k)) as [data|e] eqn:Hpost.
    + destruct (truthy_field data text) as [c|] eqn:Hc; cbn [snd].
      * right. right. exists k, data, c. repeat split; try assumption; lia.
      * left. reflexivity.
    + destruct ((name e =? "AbortError") || (message e =? "Request aborted"));
        [left; reflexivity|].
      destruct (k <? MAX_RETRIES)%nat; [|right; left; reflexivity].
      destruct (aborted (fire s (abort_during_post (w k))));
        [left; reflexivity|].
      specialize (IH (S k)
                     (fire (fire s (abort_during_post (w k)))
                           (abort_during_sleep (w k))) w).
      destruct (transcription_loop fuel (S k) audioUri _ w) as [t' res'].
      cbn [snd] in *.
      destruct IH as [H|[H|(j & data & c & Hj & H1 & H2 & H3)]];
        [left; exact H|right; left; exact H|].
      right. right. exists j, data, c. repeat split; try assumption; lia.
Qed.

(** X1.  The transcription never throws.  Whatever the backend and the token
    do, it returns the text of the answer to one of its at most 6 requests
    when that text is not empty, the empty string (when the answer carries
    no text, or on a cancellation), or the fallback message. *)
Theorem transcription_never_throws audioUri s w :
  let res := snd (sendAudioForTranscription audioUri s w) in
  res = Returned ""
  \/ res = Returned FALLBACK_MESSAGE
  \/ exists j data c,
       1 <= j <= MAX_RETRIES
       /\ post (w j) = Resolved data
       /\ truthy_field data text = Some c
       /\ truthy c = true
       /\ res = Returned c.
Proof.
  unfold sendAudioForTranscription.
  destruct (aborted s); [left; reflexivity|].
  pose proof (transcription_loop_result audioUri MAX_RETRIES 1 s w) as H.
  destruct (transcription_loop MAX_RETRIES 1 audioUri s w) as [t res].
  cbn [snd] in *.
  destruct H as [H|[H|(j & data & c & Hj & H1 & H2 & H3)]];
    [left; exact H|right; left; exact H|].
  right. right. exists j, data, c.
  repeat split; try assumption; try lia.
  exact (truthy_field_truthy _ _ _ H2).
Qed.

(** X2.  Only the four image operations throw, and what they throw always has
    the message of an abort: every other failure ends in a returned
    string. *)
Theorem only_aborts_are_thrown op uri s w e :
  snd (Api.run op uri s w) = Thrown e ->
  op <> Transcribe /\ message e = "Request aborted".
Proof.
  revert e.
  apply (run_result op uri
           (fun res => forall e, res = Thrown e ->
                                 op <> Transcribe /\
                                 message e = "Request aborted")).
  - intros e H. discriminate.
  - destruct op; cbn; intros e H; try discriminate;
      injection H as <-; (split; [discriminate|reflexivity]).
  - destruct op; cbn; intros e0 H0 e H; try discriminate;
      injection H as <-; (split; [discriminate|apply String.eqb_eq, H0]).
  - destruct op; cbn; intros d res H e H'; subst res.
    + destruct (truthy_field d caption); cbn in H; [|discriminate].
      injection H as H. discriminate.
    + injection H as H. destruct (labels_field d); discriminate.
    + destruct (truthy_field d answer); cbn in H; [|discriminate].
      injection H as H. discriminate.
    + injection H as H. destruct (truthy_field d answer); discriminate.
    + injection H as H. destruct (truthy_field d text); discriminate.
Qed.

Lemma only_aborts_are_thrown_witness :
  Caption <> Transcribe /\ message request_aborted = "Request aborted".
Proof.
  apply (only_aborts_are_thrown Caption "photo.jpg" (Some true) unreachable
                                request_aborted).
  reflexivity.
Defined.


Lemma posts_app t u : posts (t ++ u) = posts t + posts u.
Proof. unfold posts. rewrite filter_app, length_app. reflexivity. Qed.

Lemma posts_iteration k tr u :
  posts ((ReadAborted false :: Attempt k :: tr) ++ u) = posts tr + posts u.
Proof. rewrite posts_app. reflexivity. Qed.

Lemma sendImage_single_post uri endpoint extra :
  single_post (mkPolicy (sendImage uri endpoint extra) (fun _ => None)
                        message_is_abort Thrown (Thrown request_aborted)).
Proof.
  intros s a. cbn [request]. unfold sendImage.
  destruct (aborted s); [cbn; lia|].
  destruct (info a) as [[|]|e]; try (cbn; lia).
  destruct (post a) as [d|e]; [cbn; lia|].
  destruct (_ || _); cbn; lia.
Qed.

Lemma policy_of_single_post op uri : single_post (policy_of op uri).
Proof.
  destruct op; intros s a;
    try exact (sendImage_single_post uri _ _ s a).
  cbn. lia.
Qed.

(** Along a loop that starts at iteration [k] with [7 - k] iterations left,
    there is one delay less than iterations, and no more requests than
    attempts. *)
Lemma retry_loop_counts p :
  plain_request p -> single_post p ->
  forall fuel k s w,
    k + fuel = S MAX_RETRIES ->
    sleeps (fst (retry_loop p fuel k s w)) <= fuel - 1
    /\ posts (fst (retry_loop p fuel k s w))
       <= attempts (fst (retry_loop p fuel k s w)).
Proof.
  intros Hp Hs1. induction fuel as [|fuel IH]; intros k s w Hk.
  - cbn. split; lia.
  - cbn [retry_loop]. destruct (aborted s) eqn:Hs; [cbn; split; lia|].
    pose proof (Hp s (w k) Hs) as Htr. pose proof (Hs1 s (w k)) as Hpost.
    destruct (request p s (w k)) as [[tr s1] r]. cbn [fst] in Htr, Hpost.
    destruct r as [data|e].
    + destruct (on_data p data) as [res|].
      * cbn [fst]. rewrite <- (app_nil_r (_ :: _ :: tr)).
        rewrite sleeps_iteration, attempts_iteration, posts_iteration
          by assumption.
        cbn. split; lia.
      * destruct fuel as [|fuel'].
        -- cbn [retry_loop fst]. 
           rewrite sleeps_iteration, attempts_iteration, posts_iteration
             by assumption.
           cbn. split; lia.
        -- destruct (IH (S k) s1 w) as [H1 H2]; [lia|].
           destruct (retry_loop p (S fuel') (S k) s1 w) as [t' res].
           cbn [fst] in *.
           rewrite sleeps_iteration, attempts_iteration, posts_iteration
             by assumption.
           split; lia.
    + destruct (is_abort p e).
      * cbn [fst]. rewrite <- (app_nil_r (_ :: _ :: tr)).
        rewrite sleeps_iteration, attempts_iteration, posts_iteration
          by assumption.
        cbn. split; lia.
      * destruct (k <? MAX_RETRIES)%nat eqn:Hlt.
        -- apply Nat.ltb_lt in Hlt. destruct (aborted s1).
           ++ cbn [fst].
              rewrite sleeps_iteration, attempts_iteration, posts_iteration
                by assumption.
              cbn. split; lia.
           ++ destruct (IH (S k) (fire s1 (abort_during_sleep (w k))) w)
                as [H1 H2]; [lia|].
              destruct (retry_loop p fuel (S k) _ w) as [t' res].
              cbn [fst] in *.
              rewrite sleeps_iteration, attempts_iteration, posts_iteration
                by assumption.
              cbn [app].
              change (sleeps (_ :: _ :: _ :: t')) with (S (sleeps t')).
              change (posts (_ :: _ :: _ :: t')) with (posts t').
              change (attempts (_ :: _ :: _ :: t')) with (attempts t').
              split; lia.
        -- cbn [fst].
           rewrite sleeps_iteration, attempts_iteration, posts_iteration
             by assumption.
           cbn. split; lia.
Qed.

Lemma total_delay_fixed d t :
  fixed_delay d t = true -> total_delay t = (d * Z.of_nat (sleeps t))%Z.
Proof.
  induction t as [|e t IH]; intros H; [cbn; lia|].
  cbn [fixed_delay forallb] in H. apply andb_prop in H as [He H].
  specialize (IH H).
  destruct e; cbn [total_delay]; try exact IH.
  apply Z.eqb_eq in He. subst ms.
  change (sleeps (Sleep d :: t)) with (S (sleeps t)). lia.
Qed.

(** X4.  On every input, failing or not, an operation makes at most 6 attempts
    and 6 HTTP requests and sleeps at most 5 times 3000 ms, 15 seconds in
    all; every attempt and every delay follows a read of the token that
    found it live, and nothing follows a read that found it cancelled. *)
Theorem every_call_is_bounded op uri s w :
  attempts (fst (Api.run op uri s w)) <= 6
  /\ posts (fst (Api.run op uri s w)) <= 6
  /\ sleeps (fst (Api.run op uri s w)) <= 5
  /\ (total_delay (fst (Api.run op uri s w)) <= 15000)%Z
  /\ fixed_delay 3000 (fst (Api.run op uri s w)) = true
  /\ guarded None (fst (Api.run op uri s w)) = true
  /\ abort_is_last (fst (Api.run op uri s w)) = true.
Proof.
  rewrite run_retry. unfold retry. destruct (aborted s).
  { cbn. repeat split; lia. }
  pose proof (retry_loop_shape (policy_of op uri) (policy_of_plain op uri)
                MAX_RETRIES 1 s w) as Hshape.
  destruct (retry_loop_counts (policy_of op uri) (policy_of_plain op uri)
              (policy_of_single_post op uri) MAX_RETRIES 1 s w eq_refl)
    as [Hsl Hpo].
  destruct (retry_loop (policy_of op uri) MAX_RETRIES 1 s w) as [t res].
  cbn [fst snd] in *.
  pose proof (loop_trace_attempts _ _ _ _ Hshape) as Hatt.
  pose proof (loop_trace_fixed_delay _ _ _ _ Hshape) as Hfix.
  change (attempts (ReadAborted false :: t)) with (attempts t).
  change (posts (ReadAborted false :: t)) with (posts t).
  change (sleeps (ReadAborted false :: t)) with (sleeps t).
  change (total_delay (ReadAborted false :: t)) with (total_delay t).
  change (fixed_delay 3000 (ReadAborted false :: t)) with (fixed_delay 3000 t).
  change (abort_is_last (ReadAborted false :: t)) with (abort_is_last t).
  change MAX_RETRIES with 6 in *.
  rewrite (total_delay_fixed _ _ Hfix).
  repeat split; try lia; try assumption.
  - exact (loop_trace_guarded _ _ _ _ Hshape _).
  - exact (loop_trace_abort_is_last _ _ _ _ Hshape).
Qed.

(** A condition on events that holds of the bookkeeping of the loop and of
    every request the world lets the policy make holds of the whole
    trace. *)
Lemma retry_loop_forallb p (Q : event -> bool) w :
  (forall b, Q (ReadAborted b) = true) ->
  (forall n, Q (Attempt n) = true) ->
  (forall n, Q (Warn n) = true) ->
  Q (Sleep RETRY_DELAY) = true ->
  (forall s n, aborted s = false ->
               forallb Q (fst (fst (request p s (w n)))) = true) ->
  forall fuel k s, forallb Q (fst (retry_loop p fuel k s w)) = true.
Proof.
  intros Hr Ha Hw Hs Hreq. induction fuel as [|fuel IH]; intros k s.
  - reflexivity.
  - cbn [retry_loop]. destruct (aborted s) eqn:Hab.
    { cbn. rewrite Hr. reflexivity. }
    specialize (Hreq s k Hab).
    destruct (request p s (w k)) as [[tr s1] r]. cbn [fst] in Hreq.
    assert (Hpre : forall u, forallb Q u = true ->
                             forallb Q ((ReadAborted false :: Attempt k :: tr)
                                          ++ u) = true).
    { intros u Hu. rewrite forallb_app. cbn [forallb].
      rewrite Hr, Ha, Hreq, Hu. reflexivity. }
    destruct r as [data|e].
    + destruct (on_data p data).
      * cbn [fst]. rewrite <- (app_nil_r (_ :: _ :: tr)). apply Hpre.
        reflexivity.
      * specialize (IH (S k) s1).
        destruct (retry_loop p fuel (S k) s1 w) as [t' res]. cbn [fst] in *.
        apply Hpre, IH.
    + destruct (is_abort p e).
      * cbn [fst]. rewrite <- (app_nil_r (_ :: _ :: tr)). apply Hpre.
        reflexivity.
      * destruct (k <? MAX_RETRIES)%nat.
        -- destruct (aborted s1).
           ++ cbn [fst]. apply Hpre. cbn. rewrite Hw, Hr. reflexivity.
           ++ specialize (IH (S k) (fire s1 (abort_during_sleep (w k)))).
              destruct (retry_loop p fuel (S k) _ w) as [t' res].
              cbn [fst] in *. apply Hpre. cbn [app forallb].
              rewrite Hw, Hr, Hs, IH. reflexivity.
        -- cbn [fst]. apply Hpre. cbn. rewrite Hw. reflexivity.
Qed.

(** X5.  When the file of the image is missing, an image operation never sends
    a request to the backend; it does not stop at the first attempt either:
    unless cancelled it asks for the file six times and returns the
    fallback message. *)
Theorem missing_file_sends_nothing op uri s w :
  op <> Transcribe ->
  file_missing w ->
  posts (fst (Api.run op uri s w)) = 0
  /\ (never_cancelled s w ->
      snd (Api.run op uri s w) = Returned FALLBACK_MESSAGE
      /\ attempts (fst (Api.run op uri s w)) = 6
      /\ sleeps (fst (Api.run op uri s w)) = 5).
Proof.
  intros Hop Hmiss. split.
  - rewrite run_retry. unfold retry. destruct (aborted s); [reflexivity|].
    pose proof (retry_loop_forallb (policy_of op uri)
                  (fun e => negb (is_post e)) w) as H.
    assert (Hq : forall fuel k s0,
               forallb (fun e => negb (is_post e))
                       (fst (retry_loop (policy_of op uri) fuel k s0 w))
               = true).
    { apply H; try reflexivity. intros s0 n Hs0.
      destruct op; try contradiction; cbn [policy_of caption_policy
        detection_policy vqa_policy color_policy image_policy request];
        unfold sendImage; rewrite Hs0, (Hmiss n); reflexivity. }
    specialize (Hq MAX_RETRIES 1 s).
    destruct (retry_loop (policy_of op uri) MAX_RETRIES 1 s w) as [t res].
    cbn [fst] in *. change (posts (ReadAborted false :: t)) with (posts t).
    unfold posts. clear H. induction t as [|e t IH]; [reflexivity|].
    cbn [forallb] in Hq. apply andb_prop in Hq as [He Hq]. cbn [filter].
    apply negb_true_iff in He. rewrite He. apply IH, Hq.
  - intros Hnc. apply never_cancelled_live in Hnc as [Hs Hfire].
    rewrite run_retry. unfold retry. rewrite Hs.
    destruct (retry_loop_exhausted (policy_of op uri) s w
                (policy_of_plain op uri) Hs (fun n => proj2 (proj2 (Hfire n)))
                MAX_RETRIES 1 eq_refl) as (Hres & Hatt & Hsl).
    { intros n Hn. apply attempt_fails_plainly; try assumption;
        try apply Hfire.
      destruct op; try contradiction; cbn; rewrite (Hmiss n); reflexivity. }
    destruct (retry_loop (policy_of op uri) MAX_RETRIES 1 s w) as [t res].
    cbn [fst snd] in *. repeat split; assumption.
Qed.

Lemma missing_file_sends_nothing_witness :
  posts (fst (Api.run Detect "gone.jpg" (Some false)
                      (fun _ => mkAttempt (Resolved false) false
                                          (Resolved None) false false))) = 0.
Proof.
  apply (missing_file_sends_nothing
           Detect "gone.jpg" (Some false)
           (fun _ => mkAttempt (Resolved false) false (Resolved None)
                               false false)).
  - discriminate.
  - intros n. reflexivity.
Defined.

Lemma warnings_iteration k tr u :
  forallb is_request_event tr = true ->
  warnings ((ReadAborted false :: Attempt k :: tr) ++ u) = warnings u.
Proof.
  intros H. unfold warnings. rewrite filter_app, length_app.
  cbn [filter is_warn]. 
  assert (Hz : filter is_warn tr = []).
  { induction tr as [|e tr IH]; [reflexivity|]. cbn [forallb] in H.
    apply andb_prop in H as [He H].
    destruct e as [[|]| | | | |]; try discriminate; cbn; apply IH, H. }
  rewrite Hz. reflexivity.
Qed.

(** When the attempts before the [j+1]-th after [k] fail plainly and that
    one settles the call, the loop ends there with its result, after
    [j + 1] attempts and [j] delays. *)
Lemma retry_loop_decides p s w res :
  plain_request p ->
  aborted s = false ->
  (forall n, fire s (abort_during_sleep (w n)) = s) ->
  forall j fuel k,
    j < fuel ->
    k + j <= MAX_RETRIES ->
    (forall n, k <= n < k + j -> fails_plainly p s (w n)) ->
    decides p s (w (k + j)) res ->
    snd (retry_loop p fuel k s w) = res
    /\ attempts (fst (retry_loop p fuel k s w)) = S j
    /\ sleeps (fst (retry_loop p fuel k s w)) = j
    /\ warnings (fst (retry_loop p fuel k s w)) = j.
Proof.
  intros Hp Hs Hsleep. induction j as [|j IH]; intros fuel k Hfuel Hk Hfail Hdec.
  - destruct fuel as [|fuel]; [lia|]. cbn [retry_loop]. rewrite Hs.
    rewrite Nat.add_0_r in Hdec. destruct Hdec as (tr & s' & r & Hreq & Hr).
    pose proof (Hp s (w k) Hs) as Htr. rewrite Hreq in *. cbn [fst] in Htr.
    destruct r as [d|e].
    + rewrite Hr. cbn [fst snd]. rewrite <- (app_nil_r (_ :: _ :: tr)).
      rewrite attempts_iteration, sleeps_iteration, warnings_iteration
        by assumption.
      repeat split.
    + destruct Hr as [Hab ->]. rewrite Hab. cbn [fst snd].
      rewrite <- (app_nil_r (_ :: _ :: tr)).
      rewrite attempts_iteration, sleeps_iteration, warnings_iteration
        by assumption.
      repeat split.
  - destruct fuel as [|fuel]; [lia|]. cbn [retry_loop]. rewrite Hs.
    destruct (Hfail k) as (tr & e & Hreq & He); [lia|].
    pose proof (Hp s (w k) Hs) as Htr. rewrite Hreq in *. cbn [fst] in Htr.
    rewrite He. assert (Hlt : (k <? MAX_RETRIES)%nat = true)
      by (apply Nat.ltb_lt; lia).
    rewrite Hlt, Hs, Hsleep.
    destruct (IH fuel (S k)) as (Hres & Hatt & Hsl & Hwa); [lia|lia| | |].
    { intros n Hn. apply Hfail. lia. }
    { replace (S k + j) with (k + S j) by lia. exact Hdec. }
    destruct (retry_loop p fuel (S k) s w) as [t' res']. cbn [fst snd] in *.
    rewrite attempts_iteration, sleeps_iteration, warnings_iteration
      by assumption.
    cbn [app].
    change (attempts (_ :: _ :: _ :: t')) with (attempts t').
    change (sleeps (_ :: _ :: _ :: t')) with (S (sleeps t')).
    change (warnings (_ :: _ :: _ :: t')) with (S (warnings t')).
    repeat split; [assumption|lia|lia|lia].
Qed.

(** X6.  Retrying recovers: when the first [k - 1] attempts fail (not by an
    abort), nobody cancels and the [k]-th request succeeds with a body the
    operation returns on, the operation returns that answer after [k]
    attempts and [k - 1] delays. *)
Theorem retry_recovers op uri s w k d res :
  never_cancelled s w ->
  1 <= k <= 6 ->
  (forall n, 1 <= n < k -> attempt_fails op (w n) = true) ->
  info (w k) = Resolved true ->
  post (w k) = Resolved d ->
  on_data (policy_of op uri) d = Some res ->
  snd (Api.run op uri s w) = res
  /\ attempts (fst (Api.run op uri s w)) = k
  /\ sleeps (fst (Api.run op uri s w)) = k - 1.
Proof.
  intros Hnc Hk Hfail Hinfo Hpost Hdata.
  apply never_cancelled_live in Hnc as [Hs Hfire].
  rewrite run_retry. unfold retry. rewrite Hs.
  destruct (retry_loop_decides (policy_of op uri) s w res
              (policy_of_plain op uri) Hs (fun n => proj2 (proj2 (Hfire n)))
              (k - 1) MAX_RETRIES 1) as (Hres & Hatt & Hsl & _).
  - change MAX_RETRIES with 6. lia.
  - change MAX_RETRIES with 6. lia.
  - intros n Hn. apply attempt_fails_plainly; try assumption;
      try apply Hfire. apply Hfail. lia.
  - replace (1 + (k - 1)) with k by lia. unfold decides.
    destruct op; cbn [policy_of caption_policy detection_policy vqa_policy
                        color_policy image_policy request transcription_policy];
      try (unfold sendImage; rewrite Hs, Hinfo, Hpost;
           eexists _, _, _; split; [reflexivity|exact Hdata]).
    rewrite Hpost. eexists _, _, _. split; [reflexivity|exact Hdata].
  - destruct (retry_loop (policy_of op uri) MAX_RETRIES 1 s w) as [t r].
    cbn [fst snd] in *.
    change (attempts (ReadAborted false :: t)) with (attempts t).
    change (sleeps (ReadAborted false :: t)) with (sleeps t).
    repeat split; [assumption|lia|lia].
Qed.

Lemma retry_recovers_witness :
  snd (Api.run Caption "photo.jpg" None recovering) = Returned "a red mug"
  /\ attempts (fst (Api.run Caption "photo.jpg" None recovering)) = 3
  /\ sleeps (fst (Api.run Caption "photo.jpg" None recovering)) = 3 - 1.
Proof.
  apply (retry_recovers Caption "photo.jpg" None recovering 3
           (Some (mkResponse (Some "a red mug") None None None))
           (Returned "a red mug")).
  - exact I.
  - lia.
  - intros n Hn. assert (n = 1 \/ n = 2) as [-> | ->] by lia; reflexivity.
  - reflexivity.
  - reflexivity.
  - reflexivity.
Defined.

(** The iterations that fail plainly, with the token left alone, are
    passed one by one. *)
Lemma retry_loop_skip p s w :
  plain_request p ->
  aborted s = false ->
  forall j fuel k,
    j <= fuel ->
    k + j <= MAX_RETRIES ->
    (forall n, k <= n < k + j ->
               fails_plainly p s (w n)
               /\ fire s (abort_during_sleep (w n)) = s) ->
    snd (retry_loop p fuel k s w)
    = snd (retry_loop p (fuel - j) (k + j) s w)
    /\ attempts (fst (retry_loop p fuel k s w))
       = j + attempts (fst (retry_loop p (fuel - j) (k + j) s w))
    /\ sleeps (fst (retry_loop p fuel k s w))
       = j + sleeps (fst (retry_loop p (fuel - j) (k + j) s w))
    /\ warnings (fst (retry_loop p fuel k s w))
       = j + warnings (fst (retry_loop p (fuel - j) (k + j) s w)).
Proof.
  intros Hp Hs. induction j as [|j IH]; intros fuel k Hfuel Hk Hfail.
  - rewrite Nat.sub_0_r, Nat.add_0_r. repeat split.
  - destruct fuel as [|fuel]; [lia|]. cbn [retry_loop]. rewrite Hs.
    destruct (Hfail k) as [(tr & e & Hreq & He) Hsleep]; [lia|].
    pose proof (Hp s (w k) Hs) as Htr. rewrite Hreq in *. cbn [fst] in Htr.
    rewrite He. assert (Hlt : (k <? MAX_RETRIES)%nat = true)
      by (apply Nat.ltb_lt; lia).
    rewrite Hlt, Hs, Hsleep.
    destruct (IH fuel (S k)) as (Hres & Hatt & Hsl & Hwa); [lia|lia| |].
    { intros n Hn. apply Hfail. lia. }
    replace (S fuel - S j) with (fuel - j) by lia.
    replace (k + S j) with (S k + j) by lia.
    destruct (retry_loop p fuel (S k) s w) as [t' res']. cbn [fst snd] in *.
    rewrite attempts_iteration, sleeps_iteration, warnings_iteration
      by assumption.
    cbn [app].
    change (attempts (_ :: _ :: _ :: t')) with (attempts t').
    change (sleeps (_ :: _ :: _ :: t')) with (S (sleeps t')).
    change (warnings (_ :: _ :: _ :: t')) with (S (warnings t')).
    repeat split; [assumption|lia|lia|lia].
Qed.

(** An iteration whose request is rejected, not as an abort, while the
    token is cancelled: the failure is logged; before the last attempt the
    next read of the token ends the call as cancelled, at the last attempt
    the call ends with the fallback. *)
Lemma retry_loop_cancelled_in_flight p s w fuel k tr s1 e :
  plain_request p ->
  aborted s = false ->
  request p s (w k) = (tr, s1, Rejected e) ->
  is_abort p e = false ->
  aborted s1 = true ->
  snd (retry_loop p (S fuel) k s w)
  = (if (k <? MAX_RETRIES)%nat then abort_seen p
     else Returned FALLBACK_MESSAGE)
  /\ attempts (fst (retry_loop p (S fuel) k s w)) = 1
  /\ sleeps (fst (retry_loop p (S fuel) k s w)) = 0
  /\ warnings (fst (retry_loop p (S fuel) k s w)) = 1.
Proof.
  intros Hp Hs Hreq He Hs1. cbn [retry_loop]. rewrite Hs.
  pose proof (Hp s (w k) Hs) as Htr. rewrite Hreq in *. cbn [fst] in Htr.
  rewrite He, Hs1.
  destruct (k <? MAX_RETRIES)%nat; cbn [fst snd];
    rewrite attempts_iteration, sleeps_iteration, warnings_iteration
      by assumption; repeat split.
Qed.

(** X7.  A request that is cancelled in flight and rejected with an error that
    is not taken for an abort (neither named AbortError nor saying
    "Request aborted") is logged as a failed attempt.  When the first
    [k - 1] attempts fail plainly with the token left alone and the token
    is cancelled during the [k]-th request: before the sixth attempt the
    next read of the token ends the call as cancelled (an image operation
    throws "Request aborted", the transcription returns the empty
    string); at the sixth attempt the call returns the fallback message.
    Either way the call makes [k] attempts and logs [k] warnings. *)
Theorem cancelled_in_flight op uri w k e :
  1 <= k <= 6 ->
  (forall n, 1 <= n < k ->
             undisturbed (w n) = true /\ attempt_fails op (w n) = true) ->
  info (w k) = Resolved true ->
  abort_during_info (w k) = false ->
  abort_during_post (w k) = true ->
  post (w k) = Rejected e ->
  abort_error e = false ->
  snd (Api.run op uri (Some false) w)
  = (if (k <? 6)%nat then cancelled_result op else Returned FALLBACK_MESSAGE)
  /\ attempts (fst (Api.run op uri (Some false) w)) = k
  /\ sleeps (fst (Api.run op uri (Some false) w)) = k - 1
  /\ warnings (fst (Api.run op uri (Some false) w)) = k.
Proof.
  intros Hk Hfail Hinfo Hai Hap Hpost Hab.
  rewrite run_retry. unfold retry. cbn [aborted].
  set (s := Some false).
  assert (Hs : aborted s = false) by reflexivity.
  assert (Hfire : forall b, b = false -> fire s b = s)
    by (intros b ->; reflexivity).
  destruct (retry_loop_skip (policy_of op uri) s w (policy_of_plain op uri) Hs
              (k - 1) MAX_RETRIES 1) as (Hres & Hatt & Hsl & Hwa).
  - change MAX_RETRIES with 6. lia.
  - change MAX_RETRIES with 6. lia.
  - intros n Hn. destruct (Hfail n) as [Hu Hf]; [lia|].
    unfold undisturbed in Hu. apply negb_true_iff in Hu.
    apply orb_false_iff in Hu as [Hu Hsleep].
    apply orb_false_iff in Hu as [Hi Hp].
    split; [|apply Hfire, Hsleep].
    apply attempt_fails_plainly; try assumption; apply Hfire; assumption.
  - replace (1 + (k - 1)) with k in * by lia.
    assert (Hreq : exists tr,
               request (policy_of op uri) s (w k) = (tr, Some true, Rejected e)
               /\ is_abort (policy_of op uri) e = false).
    { unfold abort_error in Hab. pose proof Hab as Hab'.
      apply orb_false_iff in Hab' as [_ Hmsg].
      destruct op; cbn [policy_of caption_policy detection_policy vqa_policy
                          color_policy image_policy request
                          transcription_policy is_abort];
        try (unfold sendImage; cbn [aborted s]; rewrite Hinfo, Hpost, Hab, Hai, Hap;
             eexists; split; [reflexivity|exact Hmsg]).
      rewrite Hpost, Hap. eexists. split; [reflexivity|exact Hab]. }
    destruct Hreq as (tr & Hreq & Hnot).
    destruct (MAX_RETRIES - (k - 1)) as [|fuel] eqn:Hfuel;
      [change MAX_RETRIES with 6 in Hfuel; lia|].
    destruct (retry_loop_cancelled_in_flight (policy_of op uri) s w fuel k
                tr (Some true) e (policy_of_plain op uri) Hs Hreq Hnot
                eq_refl) as (Hres' & Hatt' & Hsl' & Hwa').
    destruct (retry_loop (policy_of op uri) MAX_RETRIES 1 s w) as [t r].
    cbn [fst snd] in *.
    change (attempts (ReadAborted false :: t)) with (attempts t).
    change (sleeps (ReadAborted false :: t)) with (sleeps t).
    change (warnings (ReadAborted false :: t)) with (warnings t).
    rewrite Hres, Hres', Hatt, Hatt', Hsl, Hsl', Hwa, Hwa'.
    change MAX_RETRIES with 6.
    split; [|repeat split; lia].
    destruct (k <? 6)%nat; [|reflexivity]. destruct op; reflexivity.
Qed.

Lemma cancelled_in_flight_witness :
  snd (Api.run (Vqa "What is this?") "photo.jpg" (Some false)
               cancelled_second)
  = (if (2 <? 6)%nat then cancelled_result (Vqa "What is this?")
     else Returned FALLBACK_MESSAGE)
  /\ attempts (fst (Api.run (Vqa "What is this?") "photo.jpg" (Some false)
                            cancelled_second)) = 2
  /\ sleeps (fst (Api.run (Vqa "What is this?") "photo.jpg" (Some false)
                          cancelled_second)) = 2 - 1
  /\ warnings (fst (Api.run (Vqa "What is this?") "photo.jpg" (Some false)
                            cancelled_second)) = 2.
Proof.
  apply (cancelled_in_flight (Vqa "What is this?") "photo.jpg"
                             cancelled_second 2 CanceledError).
  - lia.
  - intros n Hn. assert (n = 1) as -> by lia. split; reflexivity.
  - reflexivity.
  - reflexivity.
  - reflexivity.
  - reflexivity.
  - reflexivity.
Defined.

(** At the sixth attempt the cancellation is answered by the fallback. *)
Example cancelled_at_the_last_attempt :
  snd (Api.run Caption "photo.jpg" (Some false)
         (fun n => if (n <=? 5)%nat then unreachable n
                   else mkAttempt (Resolved true) false
                                  (Rejected CanceledError) true false))
  = Returned FALLBACK_MESSAGE.
Proof. reflexivity. Qed.

End RetryFacts.

(** ** The audio queue drains *)

Section QueueDrains.

Import Queue Playback.

Context {job : Type}.

Lemma queue_run_app (ins1 : list (input job)) : forall ins2 st,
  Queue.run (ins1 ++ ins2) st
  = (fst (Queue.run ins2 (fst (Queue.run ins1 st))),
     snd (Queue.run ins1 st) ++ snd (Queue.run ins2 (fst (Queue.run ins1 st)))).
Proof.
  induction ins1 as [|i ins1 IH]; intros ins2 st; cbn [app Queue.run].
  - cbn. destruct (Queue.run ins2 st); reflexivity.
  - destruct (Queue.step i st) as [st1 evs]. rewrite IH.
    destruct (Queue.run ins1 st1) as [st2 log]. cbn [fst snd].
    rewrite app_assoc. reflexivity.
Qed.

Lemma enqueued_app (ins1 ins2 : list (input job)) :
  enqueued (ins1 ++ ins2) = enqueued ins1 ++ enqueued ins2.
Proof.
  induction ins1 as [|[j|ok] ins1 IH]; cbn; [reflexivity| |exact IH].
  rewrite IH. reflexivity.
Qed.

Lemma enqueued_settles (os : list bool) :
  enqueued (map (@Settle job) os) = [].
Proof. induction os as [|o os IH]; [reflexivity|exact IH]. Qed.

(** Settlements empty a consistent queue: one per job it owes. *)
Lemma settles_drain (os : list bool) : forall st : Queue.state job,
  consistent st ->
  pending st <= length os ->
  fst (Queue.run (map Settle os) st) = idle.
Proof.
  induction os as [|o os IH]; intros [q p a] [Hflag Hidle] Hpend;
    unfold pending in Hpend; cbn [audioQueue awaited isPlayingAudio] in *.
  - cbn in Hpend. destruct q; [|cbn in Hpend; lia].
    destruct a; [lia|]. cbn. destruct p; [|reflexivity].
    exfalso. apply (proj1 Hflag); reflexivity.
  - cbn [map Queue.run Queue.step]. unfold resume. cbn [awaited audioQueue].
    destruct a as [j|].
    + unfold playNextInQueue. cbn [audioQueue isPlayingAudio awaited orb].
      destruct q as [|n rest]; cbn [length Nat.eqb].
      * specialize (IH (mkState [] false None)).
        destruct (Queue.run (map Settle os) (mkState [] false None))
          as [st2 log]. cbn [fst] in *. apply IH.
        -- split; [split; [discriminate|intros H; contradiction]|reflexivity].
        -- cbn. lia.
      * specialize (IH (mkState rest true (Some n))).
        destruct (Queue.run (map Settle os) (mkState rest true (Some n)))
          as [st2 log]. cbn [fst] in *. apply IH.
        -- split; [split; [discriminate|reflexivity]|intros; discriminate].
        -- unfold pending. cbn in *. lia.
    + assert (p = false) as ->.
      { destruct p; [|reflexivity]. exfalso. apply (proj1 Hflag); reflexivity. }
      rewrite (Hidle eq_refl) in *.
      specialize (IH (mkState [] false None)).
      destruct (Queue.run (map Settle os) (mkState [] false None))
        as [st2 log]. cbn [fst] in *. apply IH.
      * split; [split; [discriminate|intros H; contradiction]|reflexivity].
      * cbn. lia.
Qed.

(** X11.  The queue always drains: whatever was enqueued and settled so far,
    once as many settlements have arrived as the queue owes jobs (those
    that wait and the one that plays), whether fulfilled or rejected, the
    queue is idle and empty again and every job that was enqueued has been
    started, in arrival order. *)
Theorem queue_drains (ins : list (input job)) (os : list bool) :
  pending (fst (Queue.run ins idle)) <= length os ->
  fst (Queue.run (ins ++ map Settle os) idle) = idle
  /\ started (snd (Queue.run (ins ++ map Settle os) idle)) = enqueued ins.
Proof.
  intros Hpend.
  destruct (run_serial_fifo ins idle) as (_ & _ & Hc).
  { split; [split; [discriminate|intros H; contradiction]|reflexivity]. }
  assert (Hidle : fst (Queue.run (ins ++ map Settle os) idle) = idle).
  { rewrite queue_run_app. cbn [fst]. apply settles_drain; assumption. }
  split; [exact Hidle|].
  destruct (run_serial_fifo (ins ++ map Settle os) idle) as (_ & Hf & _).
  { split; [split; [discriminate|intros H; contradiction]|reflexivity]. }
  rewrite Hidle in Hf. cbn [audioQueue idle] in Hf.
  rewrite app_nil_r, enqueued_app, enqueued_settles, app_nil_r in Hf.
  exact Hf.
Qed.

End QueueDrains.

Lemma queue_drains_witness :
  fst (Queue.run ([Queue.Enqueue "Detect"; Queue.Enqueue "Camera Front"]
                    ++ map Queue.Settle [false; true])
                 Queue.idle)
  = Queue.idle
  /\ Queue.started
       (snd (Queue.run ([Queue.Enqueue "Detect"; Queue.Enqueue "Camera Front"]
                          ++ map Queue.Settle [false; true])
                       Queue.idle))
     = Queue.enqueued [Queue.Enqueue "Detect"; Queue.Enqueue "Camera Front"].
Proof.
  apply (queue_drains [Queue.Enqueue "Detect"; Queue.Enqueue "Camera Front"]
                      [false; true]).
  cbn. lia.
Defined.

(** ** The camera context *)

Section CameraFacts.

Import CameraContext.

Lemma announcements_enqueued acts : forall f,
  Queue.enqueued (queue_inputs f acts) = announcements f (toggles acts).
Proof.
  induction acts as [|[|ok] acts IH]; intros f; cbn; [reflexivity| |apply IH].
  rewrite IH. reflexivity.
Qed.

(** Once the initial flip is over, the context drives its queue with one
    job per swipe. *)
Lemma run_simulates acts : forall st,
  hasFlippedOnce st = true ->
  facing (fst (run acts st)) = swiped (facing st) (toggles acts)
  /\ hasFlippedOnce (fst (run acts st)) = true
  /\ audio (fst (run acts st))
     = fst (Queue.run (queue_inputs (facing st) acts) (audio st))
  /\ snd (run acts st)
     = snd (Queue.run (queue_inputs (facing st) acts) (audio st)).
Proof.
  induction acts as [|a acts IH]; intros st Hf.
  - cbn. repeat split. exact Hf.
  - cbn [run]. destruct a as [|ok].
    + cbn [act toggles queue_inputs swiped Queue.run Queue.step].
      unfold toggle, setFacing. rewrite Hf.
      destruct (Queue.queueAudio (announcement (other (facing st))) (audio st))
        as [q evs].
      specialize (IH (mkState (other (facing st)) true (isTutorialActive st)
                              (tutorialInProgress st) q) eq_refl).
      cbn [facing audio] in IH. destruct IH as (H1 & H2 & H3 & H4).
      destruct (run acts _) as [st2 log].
      destruct (Queue.run (queue_inputs (other (facing st)) acts) q)
        as [q2 qlog].
      cbn [fst snd] in *. subst. repeat split; assumption.
    + cbn [act toggles queue_inputs Queue.run Queue.step].
      destruct (Queue.resume ok (audio st)) as [q evs].
      specialize (IH (mkState (facing st) (hasFlippedOnce st)
                              (isTutorialActive st) (tutorialInProgress st) q)
                     Hf).
      cbn [facing audio] in IH. destruct IH as (H1 & H2 & H3 & H4).
      destruct (run acts _) as [st2 log].
      destruct (Queue.run (queue_inputs (facing st) acts) q) as [q2 qlog].
      cbn [fst snd] in *. subst. repeat split; assumption.
Qed.

(** Before the initial flip is over a swipe changes the facing without a
    word. *)
Lemma silent_before_flip n : forall st,
  hasFlippedOnce st = false ->
  snd (run (repeat Toggle n) st) = []
  /\ hasFlippedOnce (fst (run (repeat Toggle n) st)) = false
  /\ audio (fst (run (repeat Toggle n) st)) = audio st.
Proof.
  induction n as [|n IH]; intros st Hf; [repeat split; exact Hf|].
  cbn [repeat run act]. unfold toggle, setFacing. rewrite Hf.
  specialize (IH (mkState (other (facing st)) false (isTutorialActive st)
                          (tutorialInProgress st) (audio st)) eq_refl).
  destruct IH as (H1 & H2 & H3). destruct (run (repeat Toggle n) _) as [st2 log].
  cbn [fst snd audio] in *. subst. repeat split; assumption.
Qed.

(** X12.  The camera is announced as it is shown.  The initial flip is silent
    and ends facing back, whatever swipes fall before or between its two
    timers; after it, every swipe is announced exactly once, in order,
    with the facing the camera takes ("Camera Front", "Camera Back", ...),
    one announcement at a time, and the facing follows the parity of the
    swipes.  Each swipe is taken to come from a render that has seen the
    previous one, so that the closure of [setFacing] holds the current
    state. *)
Theorem camera_is_announced_as_shown k1 k2 acts :
  let st1 := flip_front (fst (run (repeat Toggle k1) initial)) in
  let st2 := flip_back (fst (run (repeat Toggle k2) st1)) in
  snd (run (repeat Toggle k1) initial) = []
  /\ snd (run (repeat Toggle k2) st1) = []
  /\ facing st2 = back
  /\ audio st2 = Queue.idle
  /\ facing (fst (run acts st2)) = swiped back (toggles acts)
  /\ Queue.started (snd (run acts st2))
       ++ Queue.audioQueue (audio (fst (run acts st2)))
     = announcements back (toggles acts)
  /\ Queue.serial None (snd (run acts st2)).
Proof.
  intros st1 st2.
  destruct (silent_before_flip k1 initial eq_refl) as (Ha & Hb & Hc).
  assert (Hf1 : hasFlippedOnce st1 = false) by exact Hb.
  destruct (silent_before_flip k2 st1 Hf1) as (Hd & He & Hg).
  assert (Haud : audio st2 = Queue.idle).
  { unfold st2, flip_back. cbn [audio]. rewrite Hg. unfold st1, flip_front.
    cbn [audio]. exact Hc. }
  destruct (run_simulates acts st2 eq_refl) as (H1 & _ & H3 & H4).
  change (facing st2) with back in *.
  split; [exact Ha|]. split; [exact Hd|]. split; [reflexivity|].
  split; [exact Haud|]. split; [exact H1|].
  rewrite H3, H4, Haud.
  destruct (run_serial_fifo (queue_inputs back acts) Queue.idle)
    as (Hs & Hfifo & _).
  { split; [split; [discriminate|intros H; contradiction]|reflexivity]. }
  rewrite Hfifo, announcements_enqueued. split; [reflexivity|exact Hs].
Qed.

(** X13.  The tutorial always ends: from a state in which no tutorial runs, a
    call of [startTutorial] raises the tutorial flag first and lowers it
    last, whichever speech fails; it speaks "Tutorial ON", the tutorial
    and "Tutorial OFF" in that order and stops at the first text that
    fails; and while it runs, another call does nothing. *)
Theorem tutorial_always_ends spoken st :
  isTutorialActive st = false ->
  tutorialInProgress st = false ->
  isTutorialActive (fst (startTutorial spoken st)) = false
  /\ tutorialInProgress (fst (startTutorial spoken st)) = false
  /\ hd_error (snd (startTutorial spoken st)) = Some (SetIsTutorialActive true)
  /\ last (snd (startTutorial spoken st)) ConsoleWarn
     = SetIsTutorialActive false
  /\ spoken_texts (snd (startTutorial spoken st))
     = (if spoken "Tutorial ON"
        then if spoken tutorialText
             then ["Tutorial ON"; tutorialText; "Tutorial OFF"]
             else ["Tutorial ON"; tutorialText]
        else ["Tutorial ON"])
  /\ startTutorial spoken (fst (fst (startTutorial_enter st)))
     = (fst (fst (startTutorial_enter st)), []).
Proof.
  intros Ha Hp. unfold startTutorial, startTutorial_enter.
  rewrite Ha, Hp. cbn [orb fst snd startTutorial_leave isTutorialActive
                         tutorialInProgress app hd_error].
  split; [reflexivity|]. split; [reflexivity|]. split; [reflexivity|].
  unfold startTutorial_try. cbn [speak_all].
  destruct (spoken "Tutorial ON"); [|repeat split].
  destruct (spoken tutorialText); [|repeat split].
  destruct (spoken "Tutorial OFF"); repeat split.
Qed.

Lemma tutorial_always_ends_witness :
  isTutorialActive
    (fst (startTutorial (fun what => String.eqb what "Tutorial ON") initial))
  = false.
Proof.
  apply (tutorial_always_ends (fun what => String.eqb what "Tutorial ON")
                              initial); reflexivity.
Defined.

End CameraFacts.

(** ** The tab navigator *)

Section NavigatorFacts.

Import TabNavigator.

Lemma queue_log_app a b : queue_log (a ++ b) = queue_log a ++ queue_log b.
Proof.
  induction a as [|[|e] a IH]; cbn; [reflexivity|exact IH|].
  rewrite IH. reflexivity.
Qed.

Lemma queue_log_Queued evs : queue_log (map Queued evs) = evs.
Proof.
  induction evs as [|e evs IH]; cbn; [reflexivity|]. rewrite IH. reflexivity.
Qed.

Lemma heard_enqueued evs : forall first,
  Queue.enqueued (queue_inputs first evs)
  = map (fun routeName => [routeName])
        (if first then tl (heard evs) else heard evs).
Proof.
  induction evs as [|[[|] routeName|ok] evs IH]; intros first; cbn.
  - destruct first; reflexivity.
  - apply IH.
  - destruct first; [rewrite IH; reflexivity|].
    cbn. rewrite IH. reflexivity.
  - apply IH.
Qed.

(** The listener drives the queue of the navigator with one job per
    navigation event outside a tutorial, the first one excepted. *)
Lemma listen_simulates evs : forall r,
  hasAnnouncedTutorial (fst (listen evs r)) = hasAnnouncedTutorial r
  /\ audio (fst (listen evs r))
     = fst (Queue.run (queue_inputs (isInitialMount r) evs) (audio r))
  /\ queue_log (snd (listen evs r))
     = snd (Queue.run (queue_inputs (isInitialMount r) evs) (audio r)).
Proof.
  induction evs as [|e evs IH]; intros r; [repeat split|].
  cbn [listen]. destruct e as [tutorial routeName|ok]; cbn [handle].
  - unfold on_state. destruct tutorial.
    + cbn [queue_inputs]. specialize (IH r). destruct IH as (H1 & H2 & H3).
      destruct (listen evs r) as [r2 log]. cbn [fst snd app] in *.
      repeat split; assumption.
    + cbn [queue_inputs]. destruct (isInitialMount r) eqn:Hm.
      * specialize (IH (mkRefs (hasAnnouncedTutorial r) false (audio r))).
        cbn [hasAnnouncedTutorial isInitialMount audio] in IH.
        destruct IH as (H1 & H2 & H3). destruct (listen evs _) as [r2 log].
        cbn [fst snd app] in *. repeat split; assumption.
      * cbn [Queue.run Queue.step]. unfold job in *.
        destruct (Queue.queueAudio [routeName] (audio r)) as [q qevs].
        specialize (IH (mkRefs (hasAnnouncedTutorial r) false q)).
        cbn [hasAnnouncedTutorial isInitialMount audio] in IH.
        destruct IH as (H1 & H2 & H3). destruct (listen evs _) as [r2 log].
        destruct (Queue.run _ q) as [q2 qlog].
        cbn [fst snd] in *.
        change (queue_log ((CancelSpeakText :: map Queued qevs) ++ log))
          with (queue_log (map Queued qevs ++ log)).
        rewrite queue_log_app, queue_log_Queued.
        split; [exact H1|]. split; [exact H2|]. f_equal. exact H3.
  - cbn [queue_inputs Queue.run Queue.step].
    destruct (Queue.resume ok (audio r)) as [q qevs].
    specialize (IH (mkRefs (hasAnnouncedTutorial r) (isInitialMount r) q)).
    cbn [hasAnnouncedTutorial isInitialMount audio] in IH.
    destruct IH as (H1 & H2 & H3). destruct (listen evs _) as [r2 log].
    destruct (Queue.run (queue_inputs (isInitialMount r) evs) q)
      as [q2 qlog].
    cbn [fst snd] in *. rewrite queue_log_app, queue_log_Queued.
    split; [exact H1|]. split; [exact H2|]. f_equal. exact H3.
Qed.

(** X14.  Every mode change is announced.  After the mount, whatever navigation
    events and settlements follow: the jobs started, followed by those that
    wait, are the mount announcement ("Detect", then the tutorial prompt)
    and then one job per navigation event outside a tutorial, the first
    such event excepted, each speaking the name of its route, in order;
    the jobs run one at a time; and the mount announcement is never
    queued again. *)
Theorem mode_changes_are_announced evs :
  let r0 := fst (announce_mount mounted) in
  let r := fst (listen evs r0) in
  let log := queue_log (snd (announce_mount mounted) ++ snd (listen evs r0)) in
  Queue.started log ++ Queue.audioQueue (audio r)
  = ["Detect"; "Swipe up for tutorial"]
      :: map (fun routeName => [routeName]) (tl (heard evs))
  /\ Queue.serial None log
  /\ announce_mount r = (r, []).
Proof.
  intros r0 r log.
  destruct (listen_simulates evs r0) as (H1 & H2 & H3).
  destruct (run_serial_fifo
              (Queue.Enqueue ["Detect"; "Swipe up for tutorial"]
                 :: queue_inputs true evs) Queue.idle)
    as (Hs & Hfifo & _).
  { split; [split; [discriminate|intros H; contradiction]|reflexivity]. }
  assert (Hlog : log
                 = snd (Queue.run
                          (Queue.Enqueue ["Detect"; "Swipe up for tutorial"]
                             :: queue_inputs true evs) Queue.idle)).
  { unfold log. rewrite queue_log_app, H3.
    cbn -[Queue.run queue_inputs]. cbn [Queue.run Queue.step].
    cbn -[Queue.run queue_inputs].
    unfold job. destruct (Queue.run _ _); reflexivity. }
  assert (Hq : audio r
               = fst (Queue.run
                        (Queue.Enqueue ["Detect"; "Swipe up for tutorial"]
                           :: queue_inputs true evs) Queue.idle)).
  { unfold r. rewrite H2.
    cbn -[Queue.run queue_inputs]. cbn [Queue.run Queue.step].
    cbn -[Queue.run queue_inputs].
    unfold job. destruct (Queue.run _ _); reflexivity. }
  rewrite Hlog, Hq. split; [|split].
  - refine (eq_trans Hfifo _). cbn [Queue.enqueued Queue.audioQueue Queue.idle app].
    rewrite heard_enqueued. reflexivity.
  - exact Hs.
  - unfold announce_mount. fold r0 in H1. fold r in H1. rewrite H1.
    reflexivity.
Qed.

End NavigatorFacts.

(** ** A capture on the Detect screen *)

Section CaptureFacts.

Import Detect Capture.

Lemma takePhoto_blocks c sch r :
  goes_ahead c sch r = true ->
  takePhoto c sch r
  = try_catch_finally (takePhoto_try c sch (sessionId r))
                      (takePhoto_catch sch (sessionId r))
                      (takePhoto_finally (sessionId r)) r.
Proof.
  intros Hgo. unfold goes_ahead in Hgo.
  apply andb_prop in Hgo as [Hgo Hcap].
  apply andb_prop in Hgo as [Hgo Hdet].
  apply andb_prop in Hgo as [Hcool Hcam].
  apply negb_true_iff in Hcool, Hdet, Hcap.
  unfold takePhoto, bind at 1, Detect.get. cbv zeta.
  rewrite Hcool, Hcam, Hdet, Hcap. cbn [negb orb].
  match goal with
  | |- _ = ?u =>
      transitivity (let '(l2, r2, c2) := u in ([] ++ l2, r2, c2));
      [reflexivity|destruct u as [[l2 r2] c2]; reflexivity]
  end.
Qed.

(** Observations distribute over the blocks. *)
Lemma displayed_app l1 l2 : displayed (l1 ++ l2) = displayed l1 ++ displayed l2.
Proof.
  induction l1 as [|[n e] l1 IH]; [reflexivity|].
  destruct e; cbn; rewrite IH; reflexivity.
Qed.

Lemma spoken_app l1 l2 : spoken (l1 ++ l2) = spoken l1 ++ spoken l2.
Proof.
  induction l1 as [|[n e] l1 IH]; [reflexivity|].
  destruct e; cbn; rewrite IH; reflexivity.
Qed.

Lemma deleted_app l1 l2 : deleted (l1 ++ l2) = deleted l1 ++ deleted l2.
Proof.
  induction l1 as [|[n e] l1 IH]; [reflexivity|].
  destruct e; cbn; rewrite IH; reflexivity.
Qed.

Section Undisturbed.

Variables (c : closure) (sch : schedule).
Hypothesis Hfc : undisturbed sch.

(** What one call of [stopLoadingSound] comes to. *)
Lemma stopLoadingSound_undisturbed s r :
  let out := stopLoadingSound sch s r in
  snd out = Normal tt
  /\ snd (fst out) = set_loadingSound false r
  /\ Forall (fun p => fst p = sessionId r) (fst (fst out))
  /\ displayed (fst (fst out)) = []
  /\ spoken (fst (fst out)) = []
  /\ deleted (fst (fst out)) = [].
Proof.
  cbv [stopLoadingSound bind Detect.get try_catch_finally await suspend
       modify on_loadingSound perform ret throw].
  rewrite !Hfc. cbn [fold_left].
  destruct r as [sid cr ac ls lru lct].
  destruct ls; [|cbn; repeat split; constructor].
  destruct (rejects sch (s GetStatus)), (isLoaded sch),
           (rejects sch (s StopAsync)), (rejects sch (s UnloadAsync));
    cbn; repeat split; repeat constructor.
Qed.


(** Symbolic execution of a block, one [await] at a time, in the equation
    [E] that names its log, refs and completion. *)
Tactic Notation "tp_simp" hyp(E) :=
  cbn -[stopLoadingSound] in E; rewrite ?Nat.eqb_refl in E;
  cbn -[stopLoadingSound] in E.

(** A call of [stopLoadingSound] is replaced by what it comes to. *)
Tactic Notation "tp_stop" hyp(E) :=
  match type of E with
  | context [stopLoadingSound sch ?s ?R] =>
      let Hc := fresh "Hc" in
      let Hr := fresh "Hr" in
      let Hall := fresh "Hall" in
      let Hd := fresh "Hd" in
      let Hs := fresh "Hs" in
      let Hx := fresh "Hx" in
      destruct (stopLoadingSound_undisturbed s R)
        as (Hc & Hr & Hall & Hd & Hs & Hx);
      destruct (stopLoadingSound sch s R) as [[? ?] ?];
      cbn [fst snd] in Hc, Hr, Hall, Hd, Hs, Hx; subst; tp_simp E
  end.

Ltac tp_logs :=
  cbn;
  rewrite ?displayed_app, ?spoken_app, ?deleted_app;
  cbn;
  repeat match goal with
         | H : displayed _ = [] |- _ => rewrite H
         | H : spoken _ = [] |- _ => rewrite H
         | H : deleted _ = [] |- _ => rewrite H
         end;
  cbn.

Ltac tp_all :=
  repeat match goal with
         | |- Forall _ (_ :: _) => constructor; [reflexivity|]
         | |- Forall _ (_ ++ _) => apply Forall_app; split
         | |- Forall _ [] => constructor
         end;
  try assumption.

(** A boolean condition on the schedule, by cases. *)
Ltac tp_bool :=
  repeat match goal with
         | |- context [match ?x with _ => _ end] => destruct x
         end;
  cbn; rewrite ?andb_false_r; reflexivity.

(** The block has run to its end. *)
Tactic Notation "tp_done" hyp(E) :=
  injection E as <- <- <-;
  repeat match goal with
         | |- _ /\ _ => split
         end;
  first [ reflexivity
        | exact I
        | solve [tp_all]
        | solve [tp_logs; reflexivity]
        | solve [tp_bool] ].

Lemma fails_not_succeeds : fails c sch = negb (succeeds c sch).
Proof.
  unfold fails, succeeds. destruct (photo sch) as [uri|]; [|reflexivity].
  rewrite negb_andb. reflexivity.
Qed.

(** The [try] block: it completes normally exactly when every step
    succeeds, and then it has shown and said the result and deleted the
    resized image. *)
Lemma takePhoto_try_undisturbed r :
  let out := takePhoto_try c sch (sessionId r) r in
  let log := fst (fst out) in
  let r1 := snd (fst out) in
  sessionId r1 = sessionId r
  /\ lastCaptureTime r1 = clock sch
  /\ hd_error (map snd log) = Some (SetIsCapturing true)
  /\ Forall (fun p => fst p = sessionId r) log
  /\ match snd out with
     | Normal _ =>
         succeeds c sch = true
         /\ loadingSound r1 = false
         /\ displayed log = ["Processing..."; output sch]
         /\ spoken log
            = "Processing..." :: (if isFocused c then [output sch] else [])
         /\ deleted log = [resized sch]
         /\ lastResizedUri r1 = None
     | Return => False
     | Throw _ => succeeds c sch = false
     end.
Proof.
  intros out log r1. subst log r1 out.
  destruct (takePhoto_try c sch (sessionId r) r) as [[log r1] cpl] eqn:E.
  cbn [fst snd].
  destruct r as [sid cr ac ls lru lct]. cbn [sessionId] in *.
  unfold succeeds, try_sites, fulfilled, output.
  cbv [takePhoto_try bind ret return_ throw Detect.get modify perform suspend
       await stale_test set_lastCaptureTime set_loadingSound
       set_lastResizedUri sessionId cameraReady abortController loadingSound
       lastResizedUri lastCaptureTime negb] in E.
  rewrite !Hfc in E. cbn [fold_left] in E.
  destruct (isFocused c); cbn [forallb app].
  all: destruct (rejects sch TakePicture) eqn:?; [tp_done E|tp_simp E].
  all: destruct (photo sch) as [uri|]; [|tp_done E].
  all: destruct (truthy uri) eqn:?; [tp_simp E|tp_done E].
  all: destruct (rejects sch SpeakProcessing) eqn:?; [tp_done E|tp_simp E].
  all: destruct (rejects sch CreateSound) eqn:?; [tp_done E|tp_simp E].
  all: destruct (rejects sch SetLooping) eqn:?; [tp_done E|tp_simp E].
  all: destruct (rejects sch PlaySound) eqn:?; [tp_done E|tp_simp E].
  all: destruct (rejects sch Resize) eqn:?; [tp_done E|tp_simp E].
  all: destruct (rejects sch Detect_) eqn:?; [tp_done E|tp_simp E].
  all: tp_stop E.
  1: destruct (rejects sch SpeakOutput) eqn:?; [tp_done E|tp_simp E].
  all: destruct (rejects sch DeleteResized) eqn:?; [tp_done E|tp_simp E].
  all: tp_done E.
Qed.


(** The [catch] block: it stops the cue, shows and says "Please Try
    Again", and is rejected only if that speech is. *)
Lemma takePhoto_catch_undisturbed err r :
  let out := takePhoto_catch sch (sessionId r) err r in
  let log := fst (fst out) in
  let r2 := snd (fst out) in
  sessionId r2 = sessionId r
  /\ loadingSound r2 = false
  /\ lastCaptureTime r2 = lastCaptureTime r
  /\ Forall (fun p => fst p = sessionId r) log
  /\ displayed log = ["Please Try Again"]
  /\ spoken log = ["Please Try Again"]
  /\ match snd out with
     | Normal _ => True
     | Return => False
     | Throw e => rejects sch SpeakRetry = Some e
     end.
Proof.
  intros out log r2. subst log r2 out.
  destruct (takePhoto_catch sch (sessionId r) err r) as [[log r2] cpl] eqn:E.
  cbn [fst snd].
  destruct r as [sid cr ac ls lru lct]. cbn [sessionId lastCaptureTime] in *.
  cbv [takePhoto_catch bind ret return_ throw Detect.get modify perform
       suspend await stale_test sessionId negb] in E.
  rewrite !Hfc in E. cbn [fold_left] in E. tp_simp E. tp_stop E.
  destruct (rejects sch SpeakRetry) eqn:Hretry; tp_simp E; tp_done E.
Qed.

(** The [finally] block, in the session of the call. *)
Lemma takePhoto_finally_current r :
  takePhoto_finally (sessionId r) r
  = ([(sessionId r, SetIsDetecting false);
      (sessionId r, Later 1000 (SetIsCapturing false))], r, Normal tt).
Proof.
  cbv [takePhoto_finally bind ret return_ Detect.get perform stale_test].
  rewrite Nat.eqb_refl. reflexivity.
Qed.

Lemma hd_error_app {A} (l1 l2 : list A) x :
  hd_error l1 = Some x -> hd_error (l1 ++ l2) = Some x.
Proof. destruct l1; [discriminate|intros H; exact H]. Qed.

Lemma last_two {A} (l : list A) a b :
  firstn 2 (rev (l ++ [a; b])) = [b; a].
Proof. rewrite rev_app_distr. reflexivity. Qed.

Lemma takePhoto_undisturbed r :
  goes_ahead c sch r = true ->
  let log := fst (fst (takePhoto c sch r)) in
  let r' := snd (fst (takePhoto c sch r)) in
  let cpl := snd (takePhoto c sch r) in
  sessionId r' = sessionId r
  /\ loadingSound r' = false
  /\ lastCaptureTime r' = clock sch
  /\ hd_error (map snd log) = Some (SetIsCapturing true)
  /\ firstn 2 (rev (map snd log))
     = [Later 1000 (SetIsCapturing false); SetIsDetecting false]
  /\ Forall (fun p => fst p = sessionId r) log
  /\ match cpl with
     | Normal _ => True
     | Return => False
     | Throw e => rejects sch SpeakRetry = Some e
     end
  /\ (succeeds c sch = true ->
      cpl = Normal tt
      /\ displayed log = ["Processing..."; output sch]
      /\ spoken log
         = "Processing..." :: (if isFocused c then [output sch] else [])
      /\ deleted log = [resized sch]
      /\ lastResizedUri r' = None)
  /\ (fails c sch = true ->
      last (displayed log) "" = "Please Try Again"
      /\ last (spoken log) "" = "Please Try Again").
Proof.
  intros Hgo log r' cpl. subst log r' cpl.
  rewrite (takePhoto_blocks c sch r Hgo). unfold try_catch_finally.
  pose proof (takePhoto_try_undisturbed r) as Htry. cbv zeta in Htry.
  destruct (takePhoto_try c sch (sessionId r) r) as [[l1 r1] c1].
  cbn [fst snd] in Htry. destruct Htry as (Hs1 & Ht1 & Hhd & Hall1 & Hc1).
  rewrite fails_not_succeeds.
  destruct c1 as [[]| |err]; [| contradiction |].
  - destruct Hc1 as (Hsucc & Hls & Hdisp & Hspoken & Hdel & Hlru).
    rewrite <- Hs1, takePhoto_finally_current, Hs1. cbn [fst snd app].
    rewrite Hsucc. repeat split; try assumption; try discriminate.
    + rewrite map_app. apply hd_error_app, Hhd.
    + rewrite map_app. apply (last_two (map snd l1)).
    + apply Forall_app. split; [exact Hall1|].
      rewrite <- Hs1. repeat constructor; exact Hs1.
    + rewrite displayed_app, Hdisp. reflexivity.
    + rewrite spoken_app, Hspoken. exact (app_nil_r _).
    + rewrite deleted_app, Hdel. reflexivity.
  - pose proof (takePhoto_catch_undisturbed err r1) as Hcatch.
    cbv zeta in Hcatch. rewrite Hs1 in Hcatch.
    destruct (takePhoto_catch sch (sessionId r) err r1) as [[l2 r2] c2].
    cbn [fst snd] in Hcatch.
    destruct Hcatch as (Hs2 & Hls & Ht2 & Hall2 & Hdisp & Hspoken & Hc2).
    rewrite <- Hs2, takePhoto_finally_current, Hs2. cbn [fst snd].
    rewrite Hc1.
    split; [exact Hs2|]. split; [exact Hls|]. split; [congruence|].
    split; [rewrite map_app; apply hd_error_app, Hhd|].
    split; [rewrite app_assoc, map_app;
            apply (last_two (map snd (l1 ++ l2)))|].
    split.
    { apply Forall_app. split; [exact Hall1|].
      apply Forall_app. split; [exact Hall2|].
      rewrite <- Hs2. repeat constructor; exact Hs2. }
    split; [destruct c2; [exact I|contradiction|exact Hc2]|].
    split; [discriminate|]. intros _. split.
    + rewrite !displayed_app, Hdisp. cbn. rewrite ?app_nil_r.
      apply last_last.
    + rewrite !spoken_app, Hspoken. cbn. rewrite ?app_nil_r.
      apply last_last.
Qed.

End Undisturbed.

(** X15.  A capture always cleans up after itself.  When no focus change
    disturbs it, a call of [takePhoto] that passes its guards, whatever
    fails on the way (the camera, the speech, the loading cue, the resize,
    the detection request, the deletion): raises the capture flag first and
    ends by releasing the detection flag and scheduling the release of the
    capture flag; leaves the ref of the loading cue cleared; performs every
    effect in the session it started in; and its promise is rejected only
    when the speech of "Please Try Again" is. *)
Theorem capture_always_cleans_up c sch r :
  undisturbed sch ->
  goes_ahead c sch r = true ->
  let log := fst (fst (takePhoto c sch r)) in
  let r' := snd (fst (takePhoto c sch r)) in
  hd_error (map snd log) = Some (SetIsCapturing true)
  /\ firstn 2 (rev (map snd log))
     = [Later 1000 (SetIsCapturing false); SetIsDetecting false]
  /\ loadingSound r' = false
  /\ sessionId r' = sessionId r
  /\ Forall (fun p => fst p = sessionId r) log
  /\ match snd (takePhoto c sch r) with
     | Normal _ => True
     | Return => False
     | Throw e => rejects sch SpeakRetry = Some e
     end.
Proof.
  intros Hfc Hgo.
  destruct (takePhoto_undisturbed c sch Hfc r Hgo)
    as (H1 & H2 & H3 & H5 & H6 & H7 & H8 & _).
  cbv zeta. repeat split; assumption.
Qed.

Lemma capture_always_cleans_up_witness :
  loadingSound
    (snd (fst (takePhoto fresh_closure (smooth stays "cat, dog")
                         focused_refs)))
  = false.
Proof.
  apply (capture_always_cleans_up fresh_closure (smooth stays "cat, dog")
                                  focused_refs).
  - intros s. reflexivity.
  - reflexivity.
Defined.

(** X16.  The cooldown holds between two captures.  After a capture that passed
    its guards at time [clock sch] and that no focus change disturbed, a
    call of [takePhoto] less than 2000 ms later does nothing at all,
    whatever its closure shows. *)
Theorem capture_cooldown c sch r c2 sch2 :
  undisturbed sch ->
  goes_ahead c sch r = true ->
  (clock sch2 - clock sch < CAPTURE_COOLDOWN)%Z ->
  let r' := snd (fst (takePhoto c sch r)) in
  takePhoto c2 sch2 r' = ([], r', Return).
Proof.
  intros Hfc Hgo Hsoon r'.
  destruct (takePhoto_undisturbed c sch Hfc r Hgo) as (_ & _ & H3 & _).
  fold r' in H3. unfold takePhoto, bind, Detect.get. rewrite H3.
  apply Z.ltb_lt in Hsoon. rewrite Hsoon. reflexivity.
Qed.

Lemma capture_cooldown_witness :
  let r' := snd (fst (takePhoto fresh_closure (smooth stays "cat, dog")
                                focused_refs)) in
  takePhoto fresh_closure
            (mkSchedule 6500%Z stays (fun _ => None) (Some "photo.jpg")
                        "resized.jpg" "cat" true)
            r'
  = ([], r', Return).
Proof.
  apply (capture_cooldown fresh_closure (smooth stays "cat, dog")
                          focused_refs).
  - intros s. reflexivity.
  - reflexivity.
  - reflexivity.
Defined.

(** X17.  A capture always tells its outcome.  When no focus change disturbs a
    call of [takePhoto] that passes its guards: if every step succeeds,
    the result line shows "Processing..." and then the detected objects
    (or "No objects found" when the detection returns the empty string),
    the same text is spoken when the screen had the focus, the resized
    file is deleted and forgotten, and the call completes normally; if a
    step fails, the last text shown and the last text spoken are "Please
    Try Again". *)
Theorem capture_tells_the_outcome c sch r :
  undisturbed sch ->
  goes_ahead c sch r = true ->
  let log := fst (fst (takePhoto c sch r)) in
  let r' := snd (fst (takePhoto c sch r)) in
  (succeeds c sch = true ->
   snd (takePhoto c sch r) = Normal tt
   /\ displayed log = ["Processing..."; output sch]
   /\ spoken log
      = "Processing..." :: (if isFocused c then [output sch] else [])
   /\ deleted log = [resized sch]
   /\ lastResizedUri r' = None)
  /\ (fails c sch = true ->
      last (displayed log) "" = "Please Try Again"
      /\ last (spoken log) "" = "Please Try Again").
Proof.
  intros Hfc Hgo.
  destruct (takePhoto_undisturbed c sch Hfc r Hgo)
    as (_ & _ & _ & _ & _ & _ & _ & H9 & H10).
  cbv zeta. split; assumption.
Qed.

Lemma capture_tells_the_outcome_witness :
  spoken (fst (fst (takePhoto fresh_closure (smooth stays "cat, dog")
                              focused_refs)))
  = ["Processing..."; "cat, dog"].
Proof.
  apply (capture_tells_the_outcome fresh_closure (smooth stays "cat, dog")
                                   focused_refs).
  - intros s. reflexivity.
  - reflexivity.
  - reflexivity.
Defined.

End CaptureFacts.

(** ** Contracts of blocks *)

Section AsyncFacts.

Context {refs effect : Type}.
Variable sessionId : refs -> nat.
Variable shows : effect -> bool.

Import Async.

Local Abbreviation safe := (Async.safe shows).
Local Abbreviation stale_effects := (Async.stale_effects shows).
Local Abbreviation current := (Async.current sessionId).
Local Abbreviation M := (@Async.M refs effect).

Lemma async_stale_effects_app e l1 l2 :
  stale_effects e (l1 ++ l2) = stale_effects e l1 ++ stale_effects e l2.
Proof. apply filter_app. Qed.

Lemma async_safe_weaken {A} e (P P' : refs -> Prop) (m : M A)
      (Q Q' : A -> refs -> Prop) :
  safe e P m Q ->
  (forall r, P' r -> P r) ->
  (forall a r, Q a r -> Q' a r) ->
  safe e P' m Q'.
Proof.
  intros H HP HQ r Hr. destruct (H r (HP r Hr)) as [Hl Hc]. split; [exact Hl|].
  destruct (snd (m r)); auto.
Qed.

Lemma async_safe_ret {A} e (P : refs -> Prop) (a : A) :
  safe e P (ret a) (fun _ => P).
Proof. intros r Hr. split; [reflexivity|exact Hr]. Qed.

Lemma async_safe_return {A} e P (Q : A -> refs -> Prop) :
  safe e P return_ Q.
Proof. intros r Hr. split; [reflexivity|exact I]. Qed.

Lemma async_safe_throw {A} e P err (Q : A -> refs -> Prop) :
  safe e P (throw err) Q.
Proof. intros r Hr. split; [reflexivity|exact I]. Qed.

Lemma async_safe_bind {A B} e P (m : M A) Q (k : A -> M B) R :
  safe e P m Q ->
  (forall a, safe e (Q a) (k a) R) ->
  safe e P (bind m k) R.
Proof.
  intros Hm Hk r Hr. destruct (Hm r Hr) as [Hl Hc]. unfold bind.
  destruct (m r) as [[l1 r1] c]. cbn [fst snd] in *.
  destruct c as [a| |err]; try (split; [exact Hl|exact I]).
  destruct (Hk a r1 Hc) as [Hl2 Hc2].
  destruct (k a r1) as [[l2 r2] c2]. cbn [fst snd] in *.
  rewrite async_stale_effects_app, Hl, Hl2. split; [reflexivity|exact Hc2].
Qed.

Lemma async_safe_get e (P : refs -> Prop) :
  safe e P get (fun r0 r => r0 = r /\ P r).
Proof. intros r Hr. split; [reflexivity|]. split; [reflexivity|exact Hr]. Qed.

Lemma async_safe_get_keep e (P : refs -> Prop) :
  safe e P get (fun _ => P).
Proof. intros r Hr. split; [reflexivity|exact Hr]. Qed.

Lemma async_safe_modify e (P : refs -> Prop) f (Q : unit -> refs -> Prop) :
  (forall r, P r -> Q tt (f r)) -> safe e P (modify f) Q.
Proof. intros H r Hr. split; [reflexivity|apply H, Hr]. Qed.

Lemma async_safe_modify_anyhow e (P : refs -> Prop) f :
  safe e P (modify f) (fun _ => anyhow).
Proof. apply async_safe_modify. intros; exact I. Qed.

Lemma async_safe_modify_current e f :
  (forall r, sessionId (f r) = sessionId r) ->
  safe e (current e) (modify f) (fun _ => current e).
Proof.
  intros H. apply async_safe_modify. intros r Hr. unfold Async.current.
  rewrite H. exact Hr.
Qed.

(** An effect that does not show may be performed under any session. *)
Lemma async_safe_perform_silent e (P : refs -> Prop) x :
  shows x = false ->
  safe e P (perform sessionId x) (fun _ => P).
Proof.
  intros Hx r Hr. split; [|exact Hr].
  cbn. rewrite Hx, andb_false_r. reflexivity.
Qed.

(** Any effect may be performed while the session is current. *)
Lemma async_safe_perform_current e x :
  safe e (current e) (perform sessionId x) (fun _ => current e).
Proof.
  intros r Hr. split; [|exact Hr].
  cbn. unfold Async.current in Hr. rewrite Hr, Nat.eqb_refl. reflexivity.
Qed.

Lemma async_safe_forget {A} e (P : refs -> Prop) (m : M A) Q :
  safe e P m Q -> safe e P m (fun _ => anyhow).
Proof.
  intros H r Hr. destruct (H r Hr) as [Hl _]. split; [exact Hl|].
  destruct (snd (m r)); exact I.
Qed.

Lemma async_safe_assume {A} e (P : refs -> Prop) (phi : Prop) (m : M A) Q :
  (forall r, P r -> phi) -> (phi -> safe e P m Q) -> safe e P m Q.
Proof. intros H1 H2 r Hr. exact (H2 (H1 r Hr) r Hr). Qed.

Lemma async_safe_try_catch {A} e (P : refs -> Prop) (body : M A) handler
      Q Q' :
  safe e P body Q ->
  (forall err, safe e anyhow (handler err) Q') ->
  safe e P (try_catch body handler) (fun _ => anyhow).
Proof.
  intros Hb Hh r Hr. unfold try_catch.
  destruct (Hb r Hr) as [Hl1 _].
  destruct (body r) as [[l1 r1] c1]. cbn [fst snd] in *.
  destruct c1 as [a| |err]; try (split; [exact Hl1|exact I]).
  destruct (Hh err r1 I) as [Hl2 _].
  destruct (handler err r1) as [[l2 r2] c2]. cbn [fst snd] in *.
  rewrite async_stale_effects_app, Hl1, Hl2. split; [reflexivity|].
  destruct c2; exact I.
Qed.

Lemma async_safe_try_catch_finally {A} e (P : refs -> Prop) (body : M A)
      handler finalizer Q Q' Q'' :
  safe e P body Q ->
  (forall err, safe e anyhow (handler err) Q') ->
  safe e anyhow finalizer Q'' ->
  safe e P (try_catch_finally body handler finalizer) (fun _ => anyhow).
Proof.
  intros Hb Hh Hf r Hr. unfold try_catch_finally.
  destruct (Hb r Hr) as [Hl1 _].
  destruct (body r) as [[l1 r1] c1]. cbn [fst snd] in *.
  assert (H2 : stale_effects e
                 (fst (fst match c1 with
                           | Detect.Throw err => handler err r1
                           | _ => ([], r1, c1)
                           end)) = []).
  { destruct c1 as [a| |err]; try reflexivity. apply (Hh err r1 I). }
  destruct (match c1 with
            | Detect.Throw err => handler err r1
            | _ => ([], r1, c1)
            end) as [[l2 r2] c2]. cbn [fst snd] in *.
  destruct (Hf r2 I) as [Hl3 _].
  destruct (finalizer r2) as [[l3 r3] c3]. cbn [fst snd] in *.
  rewrite !async_stale_effects_app, Hl1, H2, Hl3. split; [reflexivity|].
  destruct c3; destruct c2; exact I.
Qed.

(** *** Where a block ends *)

Lemma within_weaken {A} (P P' Q Q' : refs -> Prop) mr mt mr' mt' (m : M A) :
  within P Q mr mt m ->
  (forall r, P' r -> P r) ->
  (forall r, Q r -> Q' r) ->
  (mr = true -> mr' = true) ->
  (mt = true -> mt' = true) ->
  within P' Q' mr' mt' m.
Proof.
  intros H HP HQ Hr Ht r Hp. destruct (H r (HP r Hp)) as [H1 H2].
  split; [apply HQ, H1|]. destruct (snd (m r)); auto.
Qed.

Lemma within_ret {A} (P : refs -> Prop) mr mt (a : A) :
  within P P mr mt (ret a : M A).
Proof. intros r Hr. split; [exact Hr|exact I]. Qed.

Lemma within_return {A} (P : refs -> Prop) mt :
  within P P true mt (return_ : M A).
Proof. intros r Hr. split; [exact Hr|reflexivity]. Qed.

Lemma within_throw {A} (P : refs -> Prop) mr err :
  within P P mr true (throw err : M A).
Proof. intros r Hr. split; [exact Hr|reflexivity]. Qed.

Lemma within_get (P : refs -> Prop) mr mt : within P P mr mt (get : M refs).
Proof. intros r Hr. split; [exact Hr|exact I]. Qed.

Lemma within_modify (P Q : refs -> Prop) mr mt f :
  (forall r, P r -> Q (f r)) -> within P Q mr mt (modify f : M unit).
Proof. intros H r Hr. split; [apply H, Hr|exact I]. Qed.

Lemma within_perform (P : refs -> Prop) mr mt x :
  within P P mr mt (perform sessionId x : M unit).
Proof. intros r Hr. split; [exact Hr|exact I]. Qed.

Lemma within_bind {A B} (P Q : refs -> Prop) mr mt (m : M A) (k : A -> M B) :
  within P Q mr mt m ->
  (forall a, within Q Q mr mt (k a)) ->
  within P Q mr mt (bind m k).
Proof.
  intros Hm Hk r Hr. destruct (Hm r Hr) as [H1 H2]. unfold bind.
  destruct (m r) as [[l1 r1] c]. cbn [fst snd] in *.
  destruct c as [a| |err]; try (split; assumption).
  destruct (Hk a r1 H1) as [H3 H4].
  destruct (k a r1) as [[l2 r2] c2]. cbn [fst snd] in *. split; assumption.
Qed.

Lemma within_try_catch {A} (P Q : refs -> Prop) mr mt (body : M A) handler :
  within P Q mr true body ->
  (forall err, within Q Q mr mt (handler err)) ->
  within P Q mr mt (try_catch body handler).
Proof.
  intros Hb Hh r Hr. destruct (Hb r Hr) as [H1 H2]. unfold try_catch.
  destruct (body r) as [[l1 r1] c1]. cbn [fst snd] in *.
  destruct c1 as [a| |err]; try (split; assumption).
  destruct (Hh err r1 H1) as [H3 H4].
  destruct (handler err r1) as [[l2 r2] c2]. cbn [fst snd] in *.
  split; assumption.
Qed.

Lemma within_try_catch_finally {A} (P Q : refs -> Prop) mr mt (body : M A)
      handler finalizer :
  within P Q mr true body ->
  (forall err, within Q Q mr mt (handler err)) ->
  within Q Q mr mt finalizer ->
  within P Q mr mt (try_catch_finally body handler finalizer).
Proof.
  intros Hb Hh Hf r Hr. destruct (Hb r Hr) as [H1 H2].
  unfold try_catch_finally.
  destruct (body r) as [[l1 r1] c1]. cbn [fst snd] in *.
  assert (H3 : Q (snd (fst match c1 with
                           | Detect.Throw err => handler err r1
                           | _ => ([], r1, c1)
                           end))
               /\ match snd match c1 with
                            | Detect.Throw err => handler err r1
                            | _ => ([], r1, c1)
                            end with
                  | Detect.Normal _ => True
                  | Detect.Return => mr = true
                  | Detect.Throw _ => mt = true
                  end).
  { destruct c1 as [a| |err]; [split; [exact H1|exact I]|split; assumption|].
    apply (Hh err r1 H1). }
  destruct (match c1 with
            | Detect.Throw err => handler err r1
            | _ => ([], r1, c1)
            end) as [[l2 r2] c2]. cbn [fst snd] in H3. destruct H3 as [H3 H4].
  destruct (Hf r2 H3) as [H5 H6].
  destruct (finalizer r2) as [[l3 r3] c3]. cbn [fst snd] in *.
  split; [exact H5|]. destruct c3; assumption.
Qed.

(** Every block ends somewhere. *)
Lemma within_anyhow {A} (P : refs -> Prop) (m : M A) :
  within P anyhow true true m.
Proof. intros r Hr. split; [exact I|]. destruct (snd (m r)); reflexivity. Qed.

(** The log of a [try] statement ends with the log of its [finally]
    block. *)
Lemma try_catch_finally_log {A} (body : M A) handler finalizer r :
  exists l2 r2,
    fst (fst (try_catch_finally body handler finalizer r))
    = fst (fst (body r)) ++ l2 ++ fst (fst (finalizer r2))
    /\ (forall (Q : refs -> Prop) P mr mt,
          within P Q mr true body ->
          (forall err, within Q Q mr mt (handler err)) ->
          P r -> Q r2).
Proof.
  unfold try_catch_finally.
  pose proof (fun (Q : refs -> Prop) P mr (Hb : within P Q mr true body) =>
                Hb r) as Hb.
  destruct (body r) as [[l1 r1] c1].
  pose proof (fun (Q : refs -> Prop) mr mt err
                  (Hh : within Q Q mr mt (handler err)) => Hh r1) as Hh.
  destruct c1 as [a| |err].
  - exists [], r1. destruct (finalizer r1) as [[l3 r3] c3].
    split; [reflexivity|]. intros Q P mr mt H1 _ Hp.
    apply (Hb Q P mr H1 Hp).
  - exists [], r1. destruct (finalizer r1) as [[l3 r3] c3].
    split; [reflexivity|]. intros Q P mr mt H1 _ Hp.
    apply (Hb Q P mr H1 Hp).
  - destruct (handler err r1) as [[l2 r2] c2] eqn:E. exists l2, r2.
    destruct (finalizer r2) as [[l3 r3] c3].
    split; [reflexivity|]. intros Q P mr mt H1 H2 Hp.
    specialize (Hh Q mr mt err (H2 err)). rewrite E in Hh.
    apply Hh. apply (Hb Q P mr H1 Hp).
Qed.

End AsyncFacts.

(** ** A capture on the Color screen *)

Section ColorFacts.

Import ColorScreen.

Local Abbreviation safe := (Async.safe ColorScreen.shows).
Local Abbreviation current := (Async.current ColorScreen.sessionId).
Local Abbreviation anyhow := (@Async.anyhow ColorScreen.refs).

Lemma color_safe_suspend e (P : refs -> Prop) sch s :
  safe e P (suspend sch s) (fun _ => anyhow).
Proof. apply async_safe_modify_anyhow. Qed.

Lemma color_safe_await e (P : refs -> Prop) sch s :
  safe e P (await sch s) (fun _ => anyhow).
Proof.
  unfold await. eapply async_safe_bind; [apply color_safe_suspend|].
  intros ?. destruct (rejects sch s); [apply async_safe_throw|].
  apply async_safe_ret.
Qed.

Lemma color_safe_on_loadingSound e (P : refs -> Prop) x :
  shows x = false ->
  safe e P (on_loadingSound x) (fun _ => P).
Proof.
  intros Hx. unfold on_loadingSound.
  eapply async_safe_bind; [apply async_safe_get_keep|]. intros r0.
  destruct (loadingSound r0); [|apply async_safe_throw].
  apply (async_safe_perform_silent sessionId shows e P x Hx).
Qed.

Lemma color_safe_perform_silent e (P : refs -> Prop) x :
  shows x = false -> safe e P (perform x) (fun _ => P).
Proof. apply async_safe_perform_silent. Qed.

Lemma color_safe_perform_current e x :
  safe e (current e) (perform x) (fun _ => current e).
Proof. apply async_safe_perform_current. Qed.

(** One statement of a block. *)
Ltac color_atom0 :=
  first
    [ apply color_safe_perform_current
    | apply color_safe_perform_silent; reflexivity
    | apply color_safe_on_loadingSound; reflexivity
    | apply color_safe_await
    | apply color_safe_suspend
    | apply async_safe_modify_current; intros; reflexivity
    | apply async_safe_modify_anyhow
    | apply async_safe_get_keep
    | apply async_safe_return
    | apply async_safe_throw
    | apply async_safe_ret ].

(** A sequence of statements, down to the first branch or the last
    statement. *)
Ltac color_seq0 :=
  repeat (cbv beta;
          lazymatch goal with
          | |- Async.safe _ _ _ (Async.bind (stale_test _ _) _) _ => fail
          | |- Async.safe _ _ _ (Async.bind _ _) _ =>
              eapply async_safe_bind; [solve [color_atom0]|intros ?]
          end).

(** [stopLoadingSound] performs nothing that shows. *)
Lemma color_safe_stopLoadingSound e (P : refs -> Prop) sch p :
  safe e P (stopLoadingSound sch p) (fun _ => anyhow).
Proof.
  unfold stopLoadingSound.
  eapply async_safe_bind with (Q := fun _ => anyhow);
    [|intros ?; apply color_safe_suspend].
  eapply async_safe_bind; [apply async_safe_get_keep|]. intros r0.
  destruct (loadingSound r0); [|eapply async_safe_forget; apply async_safe_ret].
  eapply async_safe_try_catch with (Q := fun _ => anyhow)
                                   (Q' := fun _ => anyhow).
  - color_seq0. destruct (isLoaded sch p);
      [|eapply async_safe_forget; apply async_safe_ret].
    color_seq0. apply async_safe_modify_anyhow.
  - intros err. color_seq0. apply async_safe_modify_anyhow.
Qed.

(** The test of the session: what follows a negative test runs with the
    session current. *)
Lemma color_safe_stale_test e (P : refs -> Prop) c :
  safe e P (stale_test c e) (fun old r => old = false -> current e r).
Proof.
  intros r Hr. split; [reflexivity|]. cbn. intros H.
  apply orb_false_iff in H. destruct H as [H _].
  apply negb_false_iff, Nat.eqb_eq in H. exact H.
Qed.

Lemma color_safe_guard {A} e (P : refs -> Prop) c n (k1 k2 : M A) Q :
  n = e ->
  safe e anyhow k1 Q ->
  safe e (current e) k2 Q ->
  safe e P (Async.bind (stale_test c n) (fun old => if old then k1 else k2)) Q.
Proof.
  intros Hn H1 H2. subst n.
  eapply async_safe_bind; [apply color_safe_stale_test|].
  intros [|].
  - eapply async_safe_weaken; [exact H1| |]; auto. intros; exact I.
  - eapply async_safe_weaken; [exact H2| |]; auto.
Qed.

(** A speech of its own [try] block, started while the session is
    current. *)
Lemma color_safe_speak_guarded e sch s text :
  safe e (current e) (speak_guarded sch s text) (fun _ => anyhow).
Proof.
  unfold speak_guarded.
  eapply async_safe_try_catch with (Q := fun _ => anyhow)
                                   (Q' := fun _ => anyhow).
  - color_seq0. apply color_safe_await.
  - intros err. color_seq0.
    eapply async_safe_forget. apply color_safe_perform_silent. reflexivity.
Qed.

Ltac color_atom :=
  first
    [ apply color_safe_stopLoadingSound
    | apply color_safe_speak_guarded
    | color_atom0 ].

Ltac color_seq :=
  repeat (cbv beta;
          lazymatch goal with
          | |- Async.safe _ _ _ (Async.bind (stale_test _ _) _) _ => fail
          | |- Async.safe _ _ _ (Async.bind _ _) _ =>
              eapply async_safe_bind; [solve [color_atom]|intros ?]
          end).

(** What the session tests of [takePhoto] achieve, whatever the rest of
    the component does meanwhile. *)
Lemma color_takePhoto_safe c sch e :
  safe e (current e) (takePhoto c sch) (fun _ => anyhow).
Proof.
  unfold takePhoto.
  eapply async_safe_bind; [apply async_safe_get|]. intros r0. cbv beta.
  apply (async_safe_assume shows e _ (sessionId r0 = e));
    [intros r [-> H]; exact H|].
  intros He. rewrite He.
  eapply async_safe_weaken with (P := current e) (Q := fun _ => anyhow);
    [|intros r [_ H]; exact H|auto].
  destruct (_ <? _)%Z; [apply async_safe_return|].
  destruct (_ || _); [apply async_safe_return|].
  apply async_safe_try_catch_finally
    with (Q := fun _ => anyhow) (Q' := fun _ => anyhow) (Q'' := fun _ => anyhow).
  - color_seq. destruct (photo sch) as [uri|]; [|apply async_safe_throw].
    apply color_safe_guard; [reflexivity| |].
    { color_seq. apply async_safe_return. }
    color_seq.
    eapply async_safe_bind with (Q := fun _ => anyhow).
    { destruct (isFocused c); [|eapply async_safe_forget; apply async_safe_ret].
      eapply async_safe_bind with (Q := fun _ => anyhow).
      - eapply async_safe_try_catch with (Q := fun _ => anyhow)
                                         (Q' := fun _ => anyhow).
        + apply color_safe_guard; [reflexivity| |].
          * eapply async_safe_forget. apply async_safe_ret.
          * color_seq. apply color_safe_await.
        + intros err. color_seq. eapply async_safe_forget.
          apply color_safe_perform_silent. reflexivity.
      - intros ?.
        eapply async_safe_try_catch with (Q := fun _ => anyhow)
                                         (Q' := fun _ => anyhow).
        + color_seq. apply color_safe_guard; [reflexivity| |].
          * color_seq. apply async_safe_return.
          * color_seq. apply color_safe_await.
        + intros err. color_seq. apply color_safe_stopLoadingSound. }
    intros ?. color_seq.
    apply color_safe_guard; [reflexivity|apply async_safe_return|].
    color_seq.
    eapply async_safe_bind; [apply color_safe_stale_test|].
    intros [|]; cbv beta.
    + rewrite andb_false_r. color_seq. eapply async_safe_forget.
      apply color_safe_perform_silent. reflexivity.
    + eapply async_safe_weaken with (P := current e) (Q := fun _ => anyhow);
        [|intros r H; exact (H eq_refl)|auto].
      eapply async_safe_bind with (Q := fun _ => anyhow).
      { destruct (truthy (colorResp sch)); cbn [andb negb];
          [apply color_safe_speak_guarded|].
        eapply async_safe_forget. apply async_safe_ret. }
      intros ?. eapply async_safe_forget.
      apply color_safe_perform_silent. reflexivity.
  - intros err. color_seq.
    apply color_safe_guard; [reflexivity|apply async_safe_return|].
    color_seq.
    eapply async_safe_bind with (Q := fun _ => anyhow).
    { destruct (isFocused c); [apply color_safe_speak_guarded|].
      eapply async_safe_forget. apply async_safe_ret. }
    intros ?. eapply async_safe_forget.
    apply color_safe_perform_silent. reflexivity.
  - color_seq.
    eapply async_safe_bind; [apply color_safe_stale_test|].
    intros [|]; cbv beta; cbn [negb].
    + eapply async_safe_forget. apply color_safe_perform_silent. reflexivity.
    + eapply async_safe_forget. apply color_safe_perform_silent. reflexivity.
Qed.


(** *** Where the call ends *)

(** Case analysis on the tests and the promises of a block. *)
Ltac color_cases :=
  repeat match goal with
         | |- context [if ?b then _ else _] => destruct b eqn:?
         | |- context [match rejects ?s ?x with _ => _ end] =>
             destruct (rejects s x)
         end.

(** The same when nothing else touches the refs ([Hu]). *)
Ltac color_run Hu :=
  repeat (cbv beta iota zeta; rewrite ?Hu;
          match goal with
          | |- context [if ?b then _ else _] => destruct b eqn:?
          | |- context [match rejects ?s ?x with _ => _ end] =>
              destruct (rejects s x)
          end);
  cbv beta iota zeta; rewrite ?Hu; cbn [fst snd].

(** [await stopLoadingSound()] always completes normally. *)
Lemma stopLoadingSound_completes (P : refs -> Prop) sch p :
  Async.within P anyhow false false (stopLoadingSound sch p).
Proof.
  intros r _.
  cbv [stopLoadingSound Async.bind Async.get Async.try_catch await suspend
       Async.modify on_loadingSound perform Async.perform Async.ret
       Async.throw].
  color_cases. all: split; exact I.
Qed.

(** When nothing else touches the refs, it keeps the session and the time
    of the last capture. *)
Lemma stopLoadingSound_settled e t sch p :
  undisturbed sch ->
  Async.within (settled e t) (settled e t) false false
               (stopLoadingSound sch p).
Proof.
  intros Hu r Hr.
  cbv [stopLoadingSound Async.bind Async.get Async.try_catch await suspend
       Async.modify on_loadingSound perform Async.perform Async.ret
       Async.throw].
  color_run Hu.
  all: split; [exact Hr|exact I].
Qed.

Lemma speak_guarded_completes (P : refs -> Prop) sch s text :
  Async.within P anyhow false false (speak_guarded sch s text).
Proof.
  intros r _.
  cbv [speak_guarded Async.bind Async.try_catch await suspend Async.modify
       perform Async.perform Async.ret Async.throw].
  destruct (rejects sch s); split; exact I.
Qed.

Lemma speak_guarded_settled e t sch s text :
  undisturbed sch ->
  Async.within (settled e t) (settled e t) false false
               (speak_guarded sch s text).
Proof.
  intros Hu r Hr.
  cbv [speak_guarded Async.bind Async.try_catch await suspend Async.modify
       perform Async.perform Async.ret Async.throw].
  color_run Hu. all: split; first [exact Hr|exact I].
Qed.

(** A promise awaited may be rejected. *)
Lemma await_settled e t sch s mr :
  undisturbed sch ->
  Async.within (settled e t) (settled e t) mr true (await sch s).
Proof.
  intros Hu r Hr.
  cbv [Async.bind await suspend Async.modify Async.ret Async.throw].
  color_run Hu. all: split; first [exact Hr|reflexivity|exact I].
Qed.

(** With the session current and the focus in the closure, the session
    test lets the call go on. *)
Lemma within_guard {A} e t c mr mt (k1 k2 : M A) :
  isFocused c = true ->
  Async.within (settled e t) (settled e t) mr mt k2 ->
  Async.within (settled e t) (settled e t) mr mt
               (Async.bind (stale_test c e)
                           (fun old => if old then k1 else k2)).
Proof.
  intros Hc Hk r Hr. cbv [Async.bind stale_test Async.get Async.ret].
  destruct Hr as [He Ht]. rewrite He, Nat.eqb_refl, Hc. cbn [negb orb].
  destruct (Hk r (conj He Ht)) as [H1 H2].
  destruct (k2 r) as [[l r2] cc]. cbn [fst snd app] in *. split; assumption.
Qed.

(** The rules of [Async.within], applied along the syntax of a block. *)
Ltac color_flag :=
  let H := fresh in
  intros H; first [exact H | discriminate H | reflexivity].

Ltac color_within Hu :=
  repeat
    (cbv beta;
     lazymatch goal with
     | |- Async.within _ _ _ _
            (Async.bind (stale_test _ _) (fun old => if old then _ else _)) =>
         first [ apply within_guard; [first [assumption|reflexivity]|]
               | unfold stale_test at 1 ]
     | |- Async.within _ _ _ _ (Async.bind _ _) =>
         apply within_bind; [|intros ?]
     | |- Async.within _ _ _ _ (Async.try_catch _ _) =>
         apply within_try_catch; [|intros ?]
     | |- Async.within _ _ _ _ (Async.ret _) => apply within_ret
     | |- Async.within _ _ _ _ Async.return_ => apply within_return
     | |- Async.within _ _ _ _ (Async.throw _) => apply within_throw
     | |- Async.within _ _ _ _ Async.get => apply within_get
     | |- Async.within _ _ _ _ (perform _) => apply (within_perform sessionId)
     | |- Async.within _ _ _ _ (Async.modify _) =>
         first [ apply within_modify; intros ? [? ?]; split; assumption
               | apply within_modify; intros; exact I ]
     | |- Async.within ?Inv _ _ _ (stopLoadingSound _ _) =>
         first [ eapply within_weaken with (P := Inv) (Q := Inv);
                 [ apply (stopLoadingSound_settled _ _ _ _ Hu)
                 | intros ? ?; assumption | intros ? ?; assumption
                 | color_flag | color_flag ]
               | eapply within_weaken;
                 [ apply (stopLoadingSound_completes Inv)
                 | intros ? ?; assumption | intros ? ?; assumption
                 | color_flag | color_flag ] ]
     | |- Async.within ?Inv _ _ _ (speak_guarded _ _ _) =>
         first [ eapply within_weaken with (P := Inv) (Q := Inv);
                 [ apply (speak_guarded_settled _ _ _ _ _ Hu)
                 | intros ? ?; assumption | intros ? ?; assumption
                 | color_flag | color_flag ]
               | eapply within_weaken;
                 [ apply (speak_guarded_completes Inv)
                 | intros ? ?; assumption | intros ? ?; assumption
                 | color_flag | color_flag ] ]
     | |- Async.within _ _ _ _ (await _ _) => apply (await_settled _ _ _ _ _ Hu)
     | |- Async.within _ _ _ _ (stale_test _ _) => unfold stale_test
     | |- Async.within _ _ _ _ (if ?b then _ else _) => destruct b
     | |- Async.within _ _ _ _ (match ?x with _ => _ end) => destruct x
     end).

(** The call never throws. *)
Lemma color_takePhoto_quiet c sch :
  Async.within anyhow anyhow true false (takePhoto c sch).
Proof.
  unfold takePhoto. apply within_bind; [apply within_get|]. intros r0.
  cbv beta. destruct (_ <? _)%Z; [apply within_return|].
  destruct (_ || _); [apply within_return|].
  apply within_try_catch_finally.
  - apply within_anyhow.
  - intros err. color_within I.
  - color_within I.
Qed.


Lemma last_effect_app l1 l2 x :
  last_effect l2 = Some x -> last_effect (l1 ++ l2) = Some x.
Proof.
  unfold last_effect. rewrite rev_app_distr.
  destruct (rev l2) as [|[n y] l]; [discriminate|]. intros H. exact H.
Qed.

(** The [finally] block ends by releasing the capture flag, in a second
    when the session is still the one of the call. *)
Lemma finalizer_releases c sch n r :
  let log :=
    fst (fst ((perform CancelSpeakText ;;
               stopLoadingSound sch InFinally ;;
               old <- stale_test c n ;;
               if negb old then perform (Later 1000 (SetIsCapturing false))
               else perform (SetIsCapturing false)) r)) in
  ends_released log = true
  /\ (undisturbed sch -> isFocused c = true -> sessionId r = n ->
      last_effect log = Some (Later 1000 (SetIsCapturing false))).
Proof.
  cbv zeta. cbv [Async.bind perform Async.perform].
  pose proof (stopLoadingSound_completes anyhow sch InFinally r I) as [_ H].
  pose proof (fun Hu => stopLoadingSound_settled (sessionId r)
                          (lastCaptureTime r) sch InFinally Hu r
                          (conj eq_refl eq_refl)) as H'.
  destruct (stopLoadingSound sch InFinally r) as [[l r1] cc].
  cbn [fst snd] in H, H'. destruct cc as [[]| |]; try discriminate.
  cbv [stale_test Async.bind Async.get Async.ret]. split.
  - unfold ends_released.
    destruct (negb _); cbn [fst snd app].
    + replace (last_effect _) with (Some (Later 1000 (SetIsCapturing false)));
        [reflexivity|].
      symmetry.
      apply (last_effect_app ((sessionId r, CancelSpeakText) :: l)
               [(sessionId r1, Later 1000 (SetIsCapturing false))]).
      reflexivity.
    + replace (last_effect _) with (Some (SetIsCapturing false));
        [reflexivity|].
      symmetry.
      apply (last_effect_app ((sessionId r, CancelSpeakText) :: l)
               [(sessionId r1, SetIsCapturing false)]).
      reflexivity.
  - intros Hu Hc Hn. destruct (H' Hu) as [[Hs _] _].
    rewrite Hs, Hn, Nat.eqb_refl, Hc. cbn [negb orb fst snd app].
    apply (last_effect_app ((n, CancelSpeakText) :: l)
             [(sessionId r1, Later 1000 (SetIsCapturing false))]).
    reflexivity.
Qed.

(** What passing the guards means. *)
Lemma goes_ahead_inv c sch r :
  goes_ahead c sch r = true ->
  (clock sch - lastCaptureTime r <? CAPTURE_COOLDOWN)%Z = false
  /\ negb (cameraReady r) || isDetecting c || isCapturing c
     || negb (isFocused c) = false
  /\ isFocused c = true.
Proof.
  unfold goes_ahead. intros H.
  apply andb_prop in H. destruct H as [H Hf].
  apply andb_prop in H. destruct H as [H Hc].
  apply andb_prop in H. destruct H as [H Hd].
  apply andb_prop in H. destruct H as [Hcool Hcam].
  apply negb_true_iff in Hcool, Hd, Hc.
  rewrite Hcam, Hd, Hc, Hf. repeat split; assumption.
Qed.

Lemma ends_released_app l1 l2 :
  ends_released l2 = true -> ends_released (l1 ++ l2) = true.
Proof.
  unfold ends_released. destruct (last_effect l2) as [x|] eqn:E;
    [|discriminate].
  rewrite (last_effect_app l1 l2 x E). intros H. exact H.
Qed.

(** Past its guards, [takePhoto] is its [try] statement, whose blocks
    get the names [B], [H] and [F]. *)
Ltac past_guards c sch r Hcool Hg B H F :=
  let E := fresh "E" in
  eassert (E : takePhoto c sch r = _);
  [ unfold takePhoto; unfold Async.bind at 1; unfold Async.get at 1;
    cbv beta iota zeta; rewrite Hcool, Hg; reflexivity
  | rewrite !E; clear E;
    match goal with
    | |- context [Async.try_catch_finally ?b ?h ?f r] =>
        set (B := b); set (H := h); set (F := f)
    end ].

(** A capture that passes its guards raises the capture flag first and
    releases it last. *)
Lemma color_takePhoto_brackets c sch r :
  goes_ahead c sch r = true ->
  hd_error (map snd (fst (fst (takePhoto c sch r))))
  = Some (SetIsCapturing true)
  /\ ends_released (fst (fst (takePhoto c sch r))) = true.
Proof.
  intros Hgo. destruct (goes_ahead_inv c sch r Hgo) as (Hcool & Hg & Hf).
  past_guards c sch r Hcool Hg B H F.
  destruct (try_catch_finally_log B H F r) as (l2 & r2 & Hlog & _).
  destruct (Async.try_catch_finally B H F r) as [[l0 r0] c0].
  cbn [fst snd app] in *. rewrite Hlog.
  assert (HB : exists l, fst (fst (B r))
                         = (sessionId r, SetIsCapturing true) :: l).
  { unfold B.
    match goal with
    | |- context [Async.bind (perform (SetIsCapturing true)) ?k] =>
        set (K := k)
    end.
    cbv [Async.bind Async.modify perform Async.perform].
    destruct (K tt _) as [[l r1] cc]. exists l. reflexivity. }
  destruct HB as [l HB]. rewrite HB. split; [reflexivity|].
  apply ends_released_app. apply ends_released_app.
  apply (finalizer_releases c sch (sessionId r) r2).
Qed.

(** When nothing else touches the refs, a call that passes its guards
    runs to its end in its session. *)
Lemma color_takePhoto_steady c sch r :
  undisturbed sch ->
  goes_ahead c sch r = true ->
  snd (takePhoto c sch r) = Detect.Normal tt
  /\ settled (sessionId r) (clock sch) (snd (fst (takePhoto c sch r)))
  /\ last_effect (fst (fst (takePhoto c sch r)))
     = Some (Later 1000 (SetIsCapturing false)).
Proof.
  intros Hu Hgo. destruct (goes_ahead_inv c sch r Hgo) as (Hcool & Hg & Hf).
  past_guards c sch r Hcool Hg B H F.
  assert (HB : Async.within (Async.current sessionId (sessionId r))
                            (settled (sessionId r) (clock sch))
                            false true B).
  { unfold B. rewrite Hf. apply within_bind.
    { apply within_modify. intros r' Hr. split; [exact Hr|reflexivity]. }
    intros ?. color_within Hu. }
  assert (HH : forall err,
             Async.within (settled (sessionId r) (clock sch))
                          (settled (sessionId r) (clock sch))
                          false false (H err)).
  { intros err. unfold H. rewrite Hf. color_within Hu. }
  assert (HF : Async.within (settled (sessionId r) (clock sch))
                            (settled (sessionId r) (clock sch))
                            false false F).
  { unfold F. color_within Hu. }
  assert (Hp : Async.current sessionId (sessionId r) r) by reflexivity.
  destruct (within_try_catch_finally _ _ _ _ _ _ _ HB HH HF r Hp)
    as [H1 H2].
  destruct (try_catch_finally_log B H F r) as (l2 & r2 & Hlog & Hr2).
  specialize (Hr2 _ _ _ _ HB HH Hp).
  destruct (Async.try_catch_finally B H F r) as [[l0 r0] c0].
  cbn [fst snd app] in *. rewrite Hlog. split; [|split; [exact H1|]].
  - destruct c0 as [[]| |]; first [reflexivity|discriminate].
  - apply last_effect_app. apply last_effect_app.
    apply (proj2 (finalizer_releases c sch (sessionId r) r2) Hu Hf).
    apply Hr2.
Qed.


(** X18.  On the Color screen a capture never shows or says anything stale.
    Whatever the rest of the component does to the refs while [takePhoto]
    is suspended, and whatever fails: every result it puts on the screen,
    every flag it raises and every text it speaks is performed in the
    session the call started in. *)
Theorem color_capture_shows_nothing_stale c sch r :
  Async.stale_effects shows (sessionId r) (fst (fst (takePhoto c sch r)))
  = [].
Proof. exact (proj1 (color_takePhoto_safe c sch (sessionId r) r eq_refl)). Qed.

(** X19.  The promise of [takePhoto] on the Color screen is never rejected,
    whatever fails and whatever happens meanwhile. *)
Theorem color_capture_never_rejects c sch r :
  match snd (takePhoto c sch r) with
  | Detect.Throw _ => False
  | _ => True
  end.
Proof.
  destruct (color_takePhoto_quiet c sch r I) as [_ H].
  destruct (snd (takePhoto c sch r)); first [exact I|discriminate H].
Qed.

(** X20.  The capture flag is always released.  A call of [takePhoto] that
    passes its guards raises the capture flag first, and its last effect
    releases it (at once, or by a timer of one second), whatever fails and
    whatever happens meanwhile. *)
Theorem color_capture_releases_the_flag c sch r :
  goes_ahead c sch r = true ->
  hd_error (map snd (fst (fst (takePhoto c sch r))))
  = Some (SetIsCapturing true)
  /\ ends_released (fst (fst (takePhoto c sch r))) = true.
Proof. apply color_takePhoto_brackets. Qed.

Lemma color_capture_releases_the_flag_witness :
  ends_released (fst (fst (takePhoto fresh_closure (smooth "red")
                                     focused_refs)))
  = true.
Proof.
  apply (color_capture_releases_the_flag fresh_closure (smooth "red")
                                         focused_refs).
  reflexivity.
Defined.

(** X21.  An undisturbed capture runs to its end.  When nothing else touches
    the refs while it runs, a call of [takePhoto] that passes its guards
    completes normally (no early [return]) whatever fails, in the session
    it started in; its last effect schedules the release of the capture
    flag in one second; and a call less than 2000 ms later does nothing. *)
Theorem color_capture_runs_to_its_end c sch r c2 sch2 :
  undisturbed sch ->
  goes_ahead c sch r = true ->
  (clock sch2 - clock sch < CAPTURE_COOLDOWN)%Z ->
  let r' := snd (fst (takePhoto c sch r)) in
  snd (takePhoto c sch r) = Detect.Normal tt
  /\ sessionId r' = sessionId r
  /\ last_effect (fst (fst (takePhoto c sch r)))
     = Some (Later 1000 (SetIsCapturing false))
  /\ takePhoto c2 sch2 r' = ([], r', Detect.Return).
Proof.
  intros Hu Hgo Hsoon r'.
  destruct (color_takePhoto_steady c sch r Hu Hgo) as (H1 & [H2 H3] & H4).
  fold r' in H2, H3.
  split; [exact H1|]. split; [exact H2|]. split; [exact H4|].
  unfold takePhoto, Async.bind, Async.get. rewrite H3.
  apply Z.ltb_lt in Hsoon. rewrite Hsoon. reflexivity.
Qed.

Lemma color_capture_runs_to_its_end_witness :
  snd (takePhoto fresh_closure (smooth "red") focused_refs)
  = Detect.Normal tt.
Proof.
  apply (color_capture_runs_to_its_end fresh_closure (smooth "red")
                                       focused_refs fresh_closure
                                       (smooth "blue")).
  - intros s r. reflexivity.
  - reflexivity.
  - reflexivity.
Defined.

End ColorFacts.

(** ** The recording of a question *)

Section VoiceFacts.

Import Describe.

Lemma transcriptions_app l1 l2 :
  transcriptions (l1 ++ l2) = transcriptions l1 + transcriptions l2.
Proof. unfold transcriptions. rewrite filter_app, length_app. reflexivity. Qed.

(** Every event keeps the component consistent. *)
Lemma step_consistent rec e st log :
  consistent rec st log ->
  consistent rec (fst (step e st)) (log ++ snd (step e st)).
Proof.
  intros (Hrec & Hst & Hlog & Hcount & Htimers). unfold consistent.
  destruct e as [| | |ok|shown]; cbn [step].
  - destruct (countdownInterval st) eqn:Hc; cbn [fst snd]; rewrite app_nil_r.
    + assert (Hnone : stops log = 0)
        by (destruct Htimers as [H|[H _]]; [exact H|discriminate]).
      unfold countdown.
      destruct (_ <=? _)%Z; cbn; repeat split; try assumption;
        left; exact Hnone.
    + repeat split; try assumption.
      destruct Htimers as [H|[_ H]]; [left; exact H|right; split; assumption].
  - assert (Hsame : (if recordingTimeout st
                     then (timeout_callback true
                             captured_by_handleLongPressStart st, [])
                     else (st, [])) = (st, @nil effect))
      by (destruct (recordingTimeout st); reflexivity).
    rewrite Hsame. cbn [fst snd]. rewrite app_nil_r.
    repeat split; assumption.
  - unfold onFinalize, forceStopRecording.
    destruct (recording st) as [r|] eqn:Hr.
    + assert (r = rec) as -> by (destruct Hrec; congruence).
      cbn. rewrite Hr. split; [left; reflexivity|]. split.
      { apply Forall_app. split; [exact Hst|repeat constructor]. }
      split.
      { apply Forall_app. split; [exact Hlog|].
        constructor; [left; reflexivity|constructor]. }
      split; [|right; split; reflexivity].
      rewrite stops_app, transcriptions_app, length_app. cbn. lia.
    + cbn. rewrite Hr, app_nil_r. repeat split; assumption.
  - unfold forceStopRecording_stopped.
    destruct (stopping st) as [|r others] eqn:Hs.
    + cbn [fst snd]. rewrite app_nil_r, Hs. repeat split; assumption.
    + inversion Hst as [|? ? Hr Hothers]; subst. cbn [length] in Hcount.
      destruct ok; cbn; rewrite ?app_nil_r.
      * split; [right; reflexivity|]. split; [exact Hothers|]. split.
        { apply Forall_app. split; [exact Hlog|].
          constructor; [right; reflexivity|constructor]. }
        split; [rewrite stops_app, transcriptions_app; cbn; lia|].
        destruct Htimers as [H|H]; [lia|right; exact H].
      * split; [right; reflexivity|]. split; [exact Hothers|].
        split; [exact Hlog|]. split; [lia|].
        destruct Htimers as [H|H]; [lia|right; exact H].
  - unfold forceStopRecording_answered.
    destruct (transcribing st) as [|r others]; cbn; rewrite app_nil_r;
      repeat split; assumption.
Qed.

Lemma run_consistent rec evs : forall st log,
  consistent rec st log ->
  consistent rec (fst (run evs st)) (log ++ snd (run evs st)).
Proof.
  induction evs as [|e evs IH]; intros st log H.
  - cbn. rewrite app_nil_r. exact H.
  - rewrite run_cons. cbn [fst snd]. rewrite app_assoc.
    apply IH, step_consistent, H.
Qed.

(** X22.  Every transcription follows a stop.  From the start of a recording
    and whatever events follow (seconds elapsing, the 10 s timeout, long
    presses finalized, stops settling, answers returning, in any order and
    number): the stops and the transcriptions all concern that recording;
    the audio is never sent to the transcription more often than the stop
    was invoked, each call that still waits for its stop counted; and from
    the first stop on both timers stay cleared. *)
Theorem transcription_follows_stop rec photo evs :
  let st := fst (run evs (listening rec photo)) in
  let log := snd (run evs (listening rec photo)) in
  Forall (fun e => e = StopAndUnload rec \/ e = Transcribe rec) log
  /\ transcriptions log + length (stopping st) <= stops log
  /\ (stops log = 0
      \/ (countdownInterval st = false /\ recordingTimeout st = false)).
Proof.
  assert (H0 : consistent rec (listening rec photo) []).
  { repeat split; try constructor; reflexivity. }
  pose proof (run_consistent rec evs (listening rec photo) [] H0) as H.
  cbn [app] in H. destruct H as (_ & _ & Hlog & Hcount & Htimers).
  cbv zeta. repeat split; assumption.
Qed.

End VoiceFacts.
